(** * Resilient request layer: credential store, deduplication registry,
      failure classifier and bounded retry

    A shallow embedding of [src/lib/token-manager.ts] (the [TokenCrypto],
    [TokenManager] and [RequestDeduplicator] classes, [retryableRequest],
    [debounce], [throttle], [createDebouncedSearch] and [cleanup]), of
    [src/lib/error-handler.ts] ([ErrorClassifier] and [ErrorHandler])
    and of the API client of [src/lib/query-invalidation.ts], followed
    by the properties proved about them. *)

From Stdlib Require Import ZArith Lia Bool.
From stdpp Require Import gmap strings pretty list fin_maps.

Local Open Scope Z_scope.

(* ===================================================================== *)
(** * Part I: the embedding                                               *)
(* ===================================================================== *)

(** ** Completions

    A JavaScript call either returns a value or throws. *)

Inductive Completion (A E : Type) : Type :=
| Returns (a : A)
| Throws (e : E).
Arguments Returns {A E} a.
Arguments Throws {A E} e.

(** ** Constants ([@/lib/constants]) *)

Module HTTP_STATUS.
Definition OK : Z := 200.
Definition CREATED : Z := 201.
Definition NO_CONTENT : Z := 204.
Definition BAD_REQUEST : Z := 400.
Definition UNAUTHORIZED : Z := 401.
Definition FORBIDDEN : Z := 403.
Definition NOT_FOUND : Z := 404.
Definition CONFLICT : Z := 409.
Definition UNPROCESSABLE_ENTITY : Z := 422.
Definition INTERNAL_SERVER_ERROR : Z := 500.
End HTTP_STATUS.

Module ERROR_MESSAGES.
Definition NETWORK_ERROR : string := "네트워크 연결을 확인해 주세요.".
Definition UNAUTHORIZED : string := "로그인이 필요합니다.".
Definition FORBIDDEN : string := "접근 권한이 없습니다.".
Definition NOT_FOUND : string := "요청한 리소스를 찾을 수 없습니다.".
Definition VALIDATION_ERROR : string := "입력 정보를 확인해 주세요.".
Definition SERVER_ERROR : string := "서버 오류가 발생했습니다.".
Definition TOKEN_EXPIRED : string := "토큰이 만료되었습니다. 다시 로그인해 주세요.".
End ERROR_MESSAGES.

(** ** JavaScript values and settlements *)

(** ky's [Response]; the classifier reads nothing but [status]. *)
Record Response : Type := { status : Z }.

(** The values of type [unknown] as far as the code inspects them.
    An object carries: whether it is an [instanceof Error]; the [name]
    and [message] it answers with (for an [Error] with none of its own,
    [Error.prototype] supplies them); and its [response] property,
    which is absent ([None]), present but [null]/[undefined]
    ([Some None]), or a [Response] ([Some (Some r)]). *)
Inductive JsValue : Type :=
| JsUndefined
| JsNull
| JsBoolean (b : bool)
| JsNumber (n : Z)
| JsString (s : string)
| JsObject (instanceofError : bool) (name message : string)
           (response : option (option Response)).

(** What a failing property read throws. *)
Inductive JsException : Type :=
| TypeError (reason : string).

(** How a promise of an [A] settles. *)
Inductive Settlement (A : Type) : Type :=
| Fulfilled (value : A)
| Rejected (reason : JsValue).
Arguments Fulfilled {A} value.
Arguments Rejected {A} reason.

#[global] Instance Response_eq_dec : EqDecision Response.
Proof. solve_decision. Defined.
#[global] Instance JsValue_eq_dec : EqDecision JsValue.
Proof. solve_decision. Defined.
#[global] Instance Settlement_eq_dec {A} `{EqDecision A} : EqDecision (Settlement A).
Proof. solve_decision. Defined.

(** ** The failure classifier ([error-handler.ts]) *)

Module ErrorClassifier.

Inductive ErrorType : Type :=
| NETWORK_ERROR
| AUTHENTICATION_ERROR
| AUTHORIZATION_ERROR
| VALIDATION_ERROR
| NOT_FOUND_ERROR
| CONFLICT_ERROR
| SERVER_ERROR
| UNKNOWN_ERROR.

#[global] Instance ErrorType_eq_dec : EqDecision ErrorType.
Proof. solve_decision. Defined.

Record StructuredError : Type := {
  type : ErrorType;
  status_code : option Z;      (* [status?: number] *)
  message_text : string;       (* [message] *)
  originalError : JsValue
}.

(** [String.prototype.includes]. *)
Fixpoint includes (needle haystack : string) : bool :=
  String.prefix needle haystack ||
  match haystack with
  | EmptyString => false
  | String _ rest => includes needle rest
  end.

(** [s || fallback] on strings: the empty string is falsy. *)
Definition or_else (s fallback : string) : string :=
  if decide (s = "") then fallback else s.

Definition getErrorTypeByStatus (status : Z) : ErrorType :=
  if status =? HTTP_STATUS.UNAUTHORIZED then AUTHENTICATION_ERROR
  else if status =? HTTP_STATUS.FORBIDDEN then AUTHORIZATION_ERROR
  else if status =? HTTP_STATUS.NOT_FOUND then NOT_FOUND_ERROR
  else if status =? HTTP_STATUS.CONFLICT then CONFLICT_ERROR
  else if status =? HTTP_STATUS.UNPROCESSABLE_ENTITY then VALIDATION_ERROR
  else if status =? HTTP_STATUS.INTERNAL_SERVER_ERROR then SERVER_ERROR
  else if (400 <=? status) && (status <? 500) then VALIDATION_ERROR
  else if 500 <=? status then SERVER_ERROR
  else UNKNOWN_ERROR.

Definition classify (error : JsValue) : Completion StructuredError JsException :=
  match error with
  | JsObject instanceofError name message response =>
      match response with
      | Some response =>
          (* error && typeof error === "object" && "response" in error *)
          match response with
          | None =>
              (* httpError.response.status on null / undefined *)
              Throws (TypeError "Cannot read properties of undefined (reading 'status')")
          | Some r =>
              Returns {| type := getErrorTypeByStatus (status r);
                         status_code := Some (status r);
                         message_text := message;
                         originalError := error |}
          end
      | None =>
          if instanceofError then
            (* error instanceof Error *)
            if bool_decide (name = "TypeError") && includes "fetch" message then
              Returns {| type := NETWORK_ERROR;
                         status_code := None;
                         message_text := ERROR_MESSAGES.NETWORK_ERROR;
                         originalError := error |}
            else
              Returns {| type := UNKNOWN_ERROR;
                         status_code := None;
                         message_text := or_else message ERROR_MESSAGES.NETWORK_ERROR;
                         originalError := error |}
          else
            Returns {| type := UNKNOWN_ERROR;
                       status_code := None;
                       message_text := ERROR_MESSAGES.NETWORK_ERROR;
                       originalError := error |}
      end
  | JsString s =>
      (* typeof error === "string" ? error : ERROR_MESSAGES.NETWORK_ERROR *)
      Returns {| type := UNKNOWN_ERROR;
                 status_code := None;
                 message_text := s;
                 originalError := error |}
  | _ =>
      Returns {| type := UNKNOWN_ERROR;
                 status_code := None;
                 message_text := ERROR_MESSAGES.NETWORK_ERROR;
                 originalError := error |}
  end.

(** The decision table of the specification, row by row. *)
Definition decision_table (s : Z) : ErrorType :=
  if decide (s = 401) then AUTHENTICATION_ERROR
  else if decide (s = 403) then AUTHORIZATION_ERROR
  else if decide (s = 404) then NOT_FOUND_ERROR
  else if decide (s = 409) then CONFLICT_ERROR
  else if decide (s = 422) then VALIDATION_ERROR
  else if decide (s = 500) then SERVER_ERROR
  else if decide (400 <= s < 500) then VALIDATION_ERROR
  else if decide (500 <= s) then SERVER_ERROR
  else UNKNOWN_ERROR.

(** The test [classify] itself makes before it answers
    [NETWORK_ERROR]: no [response] property, an [instanceof Error],
    [error.name === "TypeError"] and [error.message.includes("fetch")].
    This is the condition of the code, not the notion of the
    specification, which is [transport_level_failure] below. *)
Definition transport_failure (error : JsValue) : Prop :=
  ∃ message, error = JsObject true "TypeError" message None
             ∧ includes "fetch" message = true.



(** An HTTP-shaped failure with status [s]. *)
Definition http_failure (error : JsValue) (s : Z) : Prop :=
  ∃ isError name message,
    error = JsObject isError name message (Some (Some {| status := s |})).

(** The [response] property is present but holds no object. *)
Definition nullish_response (error : JsValue) : Prop :=
  ∃ isError name message, error = JsObject isError name message (Some None).


(** The message [classify] reports for a value it does not recognise. *)
Definition fallback_message (error : JsValue) : string :=
  match error with
  | JsString s => s
  | JsObject true _ message _ => or_else message ERROR_MESSAGES.NETWORK_ERROR
  | _ => ERROR_MESSAGES.NETWORK_ERROR
  end.

(** The eight kinds [classify] can answer with. *)
Definition taxonomy : list ErrorType :=
  [NETWORK_ERROR; AUTHENTICATION_ERROR; AUTHORIZATION_ERROR; VALIDATION_ERROR;
   NOT_FOUND_ERROR; CONFLICT_ERROR; SERVER_ERROR; UNKNOWN_ERROR].

End ErrorClassifier.

(** ** JavaScript strings and the platform codecs

    A string value is a sequence of UTF-16 code units. The functions
    below are the platform's: [encodeURIComponent] and
    [decodeURIComponent] after ECMA-262 (Encode / Decode), [btoa] and
    [atob] after the HTML standard (forgiving-base64), [parseInt] and
    the rendering of an integral Number after ECMA-262. A call that
    throws is [None]. *)

Module JsString.

Abbreviation jsstring := (list Z).

(** The code units of an ASCII literal. *)
Definition of_string (s : string) : jsstring :=
  (λ a, Z.of_N (Ascii.N_of_ascii a)) <$> String.list_ascii_of_string s.

Definition is_lead_surrogate (c : Z) : bool := (0xD800 <=? c) && (c <=? 0xDBFF).
Definition is_trail_surrogate (c : Z) : bool := (0xDC00 <=? c) && (c <=? 0xDFFF).

(** Code units in range, and every surrogate paired. *)
Fixpoint well_formed (s : jsstring) : bool :=
  match s with
  | [] => true
  | c :: rest =>
      if is_lead_surrogate c then
        match rest with
        | d :: rest' => is_trail_surrogate d && well_formed rest'
        | [] => false
        end
      else if is_trail_surrogate c then false
      else (0 <=? c) && (c <? 65536) && well_formed rest
  end.

(** *** Percent-encoding *)

(** Upper-case hexadecimal digit of a value below 16. *)
Definition hex_digit (n : Z) : Z := if n <? 10 then 48 + n else 55 + n.

Definition hex_value (c : Z) : option Z :=
  if (48 <=? c) && (c <=? 57) then Some (c - 48)
  else if (65 <=? c) && (c <=? 70) then Some (c - 55)
  else if (97 <=? c) && (c <=? 102) then Some (c - 87)
  else None.

(** ["%XX"] *)
Definition percent (octet : Z) : jsstring :=
  [37; hex_digit (octet / 16); hex_digit (octet mod 16)].

Definition utf8_encode (cp : Z) : list Z :=
  if cp <? 0x80 then [cp]
  else if cp <? 0x800 then [0xC0 + cp / 64; 0x80 + cp mod 64]
  else if cp <? 0x10000 then
    [0xE0 + cp / 4096; 0x80 + (cp / 64) mod 64; 0x80 + cp mod 64]
  else
    [0xF0 + cp / 262144; 0x80 + (cp / 4096) mod 64;
     0x80 + (cp / 64) mod 64; 0x80 + cp mod 64].

Definition is_alphanumeric (c : Z) : bool :=
  ((48 <=? c) && (c <=? 57)) || ((65 <=? c) && (c <=? 90))
  || ((97 <=? c) && (c <=? 122)).

(** The characters [encodeURIComponent] leaves alone: the
    alphanumerics and [- _ . ! ~ * ' ( )]. *)
Definition unescaped (c : Z) : bool :=
  is_alphanumeric c
  || bool_decide (c ∈ [45; 95; 46; 33; 126; 42; 39; 40; 41]).

Definition percent_encode (cp : Z) : jsstring :=
  mjoin (percent <$> utf8_encode cp).

(** [encodeURIComponent]; an unpaired surrogate is a [URIError]. *)
Fixpoint encodeURIComponent (s : jsstring) : option jsstring :=
  match s with
  | [] => Some []
  | c :: rest =>
      if unescaped c then (c ::.) <$> encodeURIComponent rest
      else if is_lead_surrogate c then
        match rest with
        | d :: rest' =>
            if is_trail_surrogate d then
              (percent_encode ((c - 0xD800) * 0x400 + (d - 0xDC00) + 0x10000) ++.)
                <$> encodeURIComponent rest'
            else None
        | [] => None
        end
      else if is_trail_surrogate c then None
      else (percent_encode c ++.) <$> encodeURIComponent rest
  end.

(** First pass of [decodeURIComponent]: every [%] must begin an escape
    [%XX]; the result lists the literal code units ([inl]) and the
    escaped octets ([inr]). *)
Fixpoint unescape (s : jsstring) : option (list (Z + Z)) :=
  match s with
  | [] => Some []
  | c :: rest =>
      if c =? 37 then
        match rest with
        | h1 :: h2 :: rest' =>
            hi ← hex_value h1; lo ← hex_value h2;
            (inr (hi * 16 + lo) ::.) <$> unescape rest'
        | _ => None
        end
      else (inl c ::.) <$> unescape rest
  end.

Definition continuation (b : Z) : bool := (0x80 <=? b) && (b <=? 0xBF).

(** [UTF16EncodeCodePoint] *)
Definition utf16_encode (cp : Z) : jsstring :=
  if cp <? 0x10000 then [cp]
  else [0xD800 + (cp - 0x10000) / 0x400; 0xDC00 + (cp - 0x10000) mod 0x400].

(** Second pass: an octet below 0x80 is a code unit; a leading octet
    announces one, two or three continuation octets, which must follow
    as escapes and form a valid UTF-8 encoding of a code point. *)
Fixpoint utf8_assemble (items : list (Z + Z)) : option jsstring :=
  match items with
  | [] => Some []
  | inl c :: rest => (c ::.) <$> utf8_assemble rest
  | inr b :: rest =>
      if b <? 0x80 then (b ::.) <$> utf8_assemble rest
      else if b <? 0xC0 then None
      else if b <? 0xE0 then
        match rest with
        | inr b1 :: rest' =>
            let cp := (b - 0xC0) * 64 + (b1 - 0x80) in
            if continuation b1 && (0x80 <=? cp)
            then (utf16_encode cp ++.) <$> utf8_assemble rest'
            else None
        | _ => None
        end
      else if b <? 0xF0 then
        match rest with
        | inr b1 :: inr b2 :: rest' =>
            let cp := (b - 0xE0) * 4096 + (b1 - 0x80) * 64 + (b2 - 0x80) in
            if continuation b1 && continuation b2 && (0x800 <=? cp)
               && negb ((0xD800 <=? cp) && (cp <=? 0xDFFF))
            then (utf16_encode cp ++.) <$> utf8_assemble rest'
            else None
        | _ => None
        end
      else if b <? 0xF8 then
        match rest with
        | inr b1 :: inr b2 :: inr b3 :: rest' =>
            let cp := (b - 0xF0) * 262144 + (b1 - 0x80) * 4096
                      + (b2 - 0x80) * 64 + (b3 - 0x80) in
            if continuation b1 && continuation b2 && continuation b3
               && (0x10000 <=? cp) && (cp <=? 0x10FFFF)
            then (utf16_encode cp ++.) <$> utf8_assemble rest'
            else None
        | _ => None
        end
      else None
  end.

(** [decodeURIComponent]; a malformed escape or octet sequence is a
    [URIError]. *)
Definition decodeURIComponent (s : jsstring) : option jsstring :=
  unescape s ≫= utf8_assemble.

(** *** Base64 *)

(** The character of a sextet, and back. *)
Definition base64_char (n : Z) : Z :=
  if n <? 26 then 65 + n
  else if n <? 52 then 71 + n
  else if n <? 62 then n - 4
  else if n =? 62 then 43
  else 47.

Definition base64_value (c : Z) : option Z :=
  if (65 <=? c) && (c <=? 90) then Some (c - 65)
  else if (97 <=? c) && (c <=? 122) then Some (c - 71)
  else if (48 <=? c) && (c <=? 57) then Some (c + 4)
  else if c =? 43 then Some 62
  else if c =? 47 then Some 63
  else None.

Fixpoint base64_encode (bytes : list Z) : jsstring :=
  match bytes with
  | [] => []
  | [x] =>
      [base64_char (x / 4); base64_char ((x mod 4) * 16); 61; 61]
  | [x; y] =>
      [base64_char (x / 4); base64_char ((x mod 4) * 16 + y / 16);
       base64_char ((y mod 16) * 4); 61]
  | x :: y :: z :: rest =>
      [base64_char (x / 4); base64_char ((x mod 4) * 16 + y / 16);
       base64_char ((y mod 16) * 4 + z / 64); base64_char (z mod 64)]
      ++ base64_encode rest
  end.

Definition is_latin1 (c : Z) : bool := (0 <=? c) && (c <=? 255).

(** [btoa]; a code unit above 0xFF is an [InvalidCharacterError]. *)
Definition btoa (s : jsstring) : option jsstring :=
  if forallb is_latin1 s then Some (base64_encode s)
  else None.

Definition is_ascii_whitespace (c : Z) : bool :=
  bool_decide (c ∈ [9; 10; 12; 13; 32]).

(** If the length is a multiple of four, drop one or two trailing [=]. *)
Definition strip_padding (data : jsstring) : jsstring :=
  if decide (Z.of_nat (length data) mod 4 = 0) then
    match reverse data with
    | c1 :: c2 :: rest =>
        if (c1 =? 61) && (c2 =? 61) then reverse rest
        else if c1 =? 61 then reverse (c2 :: rest)
        else data
    | _ => data
    end
  else data.

(** Sextets to octets; a last group of two or three sextets gives one
    or two octets, the spare bits dropped. *)
Fixpoint base64_octets (sextets : list Z) : list Z :=
  match sextets with
  | a :: b :: c :: d :: rest =>
      [a * 4 + b / 16; (b mod 16) * 16 + c / 4; (c mod 4) * 64 + d]
      ++ base64_octets rest
  | [a; b; c] => [a * 4 + b / 16; (b mod 16) * 16 + c / 4]
  | [a; b] => [a * 4 + b / 16]
  | _ => []
  end.

(** [atob]: forgiving-base64 decode; [None] is an
    [InvalidCharacterError]. *)
Definition atob (s : jsstring) : option jsstring :=
  let data := strip_padding (filter (λ c, is_ascii_whitespace c = false) s) in
  if decide (Z.of_nat (length data) mod 4 = 1) then None
  else base64_octets <$> mapM base64_value data.

(** *** Numbers *)

(** Decimal digits of a non-negative integer, most significant first. *)
Fixpoint digits_go (fuel : nat) (n : Z) (acc : jsstring) : jsstring :=
  match fuel with
  | O => acc
  | S fuel' =>
      if n <? 10 then (48 + n) :: acc
      else digits_go fuel' (n / 10) ((48 + n mod 10) :: acc)
  end.

(** [n.toString()] for an integral Number below 10^21 in magnitude. *)
Definition number_to_string (n : Z) : jsstring :=
  if n <? 0 then 45 :: digits_go (S (Z.to_nat (Z.log2 (- n)))) (- n) []
  else digits_go (S (Z.to_nat (Z.log2 n))) n [].

Definition is_digit (c : Z) : bool := (48 <=? c) && (c <=? 57).

(** [StrWhiteSpaceChar]: white space and line terminators. *)
Definition is_str_whitespace (c : Z) : bool :=
  bool_decide (c ∈ [9; 10; 11; 12; 13; 32; 0xA0; 0x1680; 0x2028; 0x2029;
                    0x202F; 0x205F; 0x3000; 0xFEFF])
  || ((0x2000 <=? c) && (c <=? 0x200A)).

Fixpoint skip_whitespace (s : jsstring) : jsstring :=
  match s with
  | c :: rest => if is_str_whitespace c then skip_whitespace rest else s
  | [] => []
  end.

(** The longest prefix of digits of the radix, as values. *)
Fixpoint leading_digits (radix : Z) (s : jsstring) : list Z :=
  match s with
  | c :: rest =>
      match hex_value c with
      | Some v => if v <? radix then v :: leading_digits radix rest else []
      | None => []
      end
  | [] => []
  end.

Definition digits_value (radix : Z) (ds : list Z) : Z :=
  foldl (λ v d, radix * v + d) 0 ds.

(** [parseInt(s)] with no radix given; [None] is [NaN]. White space is
    skipped, a sign read, a [0x] or [0X] prefix selects radix 16, and
    the longest run of digits is the value. *)
Definition parseInt (s : jsstring) : option Z :=
  let s1 := skip_whitespace s in
  let signed := match s1 with
                | c :: rest =>
                    if c =? 45 then (-1, rest)
                    else if c =? 43 then (1, rest)
                    else (1, s1)
                | [] => (1, s1)
                end in
  let based := match signed.2 with
               | c0 :: c1 :: rest =>
                   if (c0 =? 48) && ((c1 =? 120) || (c1 =? 88)) then (16, rest)
                   else (10, signed.2)
               | _ => (10, signed.2)
               end in
  match leading_digits based.1 based.2 with
  | [] => None
  | ds => Some (signed.1 * digits_value based.1 ds)
  end.

(** [s.split(separator)[0]] for a one-character separator. *)
Fixpoint before_first (separator : Z) (s : jsstring) : jsstring :=
  match s with
  | [] => []
  | c :: rest => if c =? separator then [] else c :: before_first separator rest
  end.

(** *** The shape of a base64 text

    [base64_encode] written as its sextets followed by its padding. *)

Fixpoint base64_sextets (bytes : list Z) : list Z :=
  match bytes with
  | [] => []
  | [x] => [x / 4; (x mod 4) * 16]
  | [x; y] => [x / 4; (x mod 4) * 16 + y / 16; (y mod 16) * 4]
  | x :: y :: z :: rest =>
      [x / 4; (x mod 4) * 16 + y / 16; (y mod 16) * 4 + z / 64; z mod 64]
      ++ base64_sextets rest
  end.

Fixpoint base64_padding (bytes : list Z) : jsstring :=
  match bytes with
  | [] => []
  | [x] => [61; 61]
  | [x; y] => [61]
  | x :: y :: z :: rest => base64_padding rest
  end.

Definition is_octet (b : Z) : Prop := 0 <= b < 256.
Definition is_sextet (n : Z) : Prop := 0 <= n < 64.
Definition is_base64_char (c : Z) : Prop := is_Some (base64_value c).

(** A Unicode scalar value: a code point that is not a surrogate. *)
Definition is_scalar (cp : Z) : Prop :=
  0 <= cp <= 0x10FFFF ∧ ¬ (0xD800 <= cp <= 0xDFFF).

End JsString.

(** ** The credential transform ([TokenCrypto]) *)

Module TokenCrypto.
Import JsString.

(** [encrypt(text)], with [now] what [Date.now()] reads. *)
Definition encrypt (text : jsstring) (now : Z) : jsstring :=
  match encodeURIComponent (text ++ [124] ++ number_to_string now) ≫= btoa with
  | Some encoded => encoded
  | None => text                      (* catch { return text } *)
  end.

(** [decrypt(encryptedText)]; [None] is [null]. *)
Definition decrypt (encryptedText : jsstring) : option jsstring :=
  decoded ← atob encryptedText ≫= decodeURIComponent;
  Some (before_first 124 decoded).

End TokenCrypto.

(** ** The credential store ([TokenManager]) *)

Module TokenManager.
Import JsString.

(** Where the manager runs. *)
Record Env : Type := {
  hasWindow : bool;       (* [typeof window !== "undefined"] *)
  production : bool;      (* [NODE_ENV === "production"]: [encryptTokens]
                             (and [useSessionStorage], which only picks
                             the Storage object used throughout) *)
  storageWorks : bool     (* [false]: reaching the Storage object throws *)
}.

(** The fields of the manager, and the Storage object it writes to. *)
Record State : Type := {
  accessToken : option jsstring;
  refreshToken : option jsstring;
  isRefreshing : bool;
  refreshPromise : option nat;
  storage : gmap string jsstring
}.

(** Truthiness of a [string | null]. *)
Definition truthy (s : option jsstring) : bool :=
  match s with
  | Some (_ :: _) => true
  | _ => false
  end.

Definition with_storage (st : State) (m : gmap string jsstring) : State :=
  {| accessToken := accessToken st; refreshToken := refreshToken st;
     isRefreshing := isRefreshing st; refreshPromise := refreshPromise st;
     storage := m |}.

Definition with_tokens (st : State) (access refresh : option jsstring) : State :=
  {| accessToken := access; refreshToken := refresh;
     isRefreshing := isRefreshing st; refreshPromise := refreshPromise st;
     storage := storage st |}.

Definition with_slot (st : State) (refreshing : bool) (ticket : option nat)
    : State :=
  {| accessToken := accessToken st; refreshToken := refreshToken st;
     isRefreshing := refreshing; refreshPromise := ticket;
     storage := storage st |}.

(** [setSecureItem(key, value)]; [now] is what [Date.now()] reads
    inside [TokenCrypto.encrypt]. A throw is caught and logged. *)
Definition setSecureItem (env : Env) (key : string) (value : jsstring)
    (now : Z) (st : State) : State :=
  if negb (hasWindow env) then st
  else if negb (storageWorks env) then st
  else
    let finalValue := if production env then TokenCrypto.encrypt value now
                      else value in
    with_storage st (<[key := finalValue]> (storage st)).

Definition getSecureItem (env : Env) (key : string) (st : State)
    : option jsstring :=
  if negb (hasWindow env) then None
  else if negb (storageWorks env) then None
  else
    match storage st !! key with
    | None => None
    | Some [] => None                 (* [!storedValue] *)
    | Some storedValue =>
        if production env then TokenCrypto.decrypt storedValue
        else Some storedValue
    end.

Definition removeSecureItem (env : Env) (key : string) (st : State) : State :=
  if negb (hasWindow env) then st
  else if negb (storageWorks env) then st
  else with_storage st (delete key (storage st)).

(** The lifetime recorded for a credential, and the window of
    [isTokenExpiringSoon], in milliseconds. *)
Definition LIFETIME : Z := 55 * 60 * 1000.
Definition EXPIRING_SOON_WINDOW : Z := 5 * 60 * 1000.

(** [setTokens(accessToken, refreshToken?)] at clock reading [now]. *)
Definition setTokens (env : Env) (access : jsstring) (refresh : option jsstring)
    (now : Z) (st : State) : State :=
  let st1 := with_tokens st (Some access)
               (if truthy refresh then refresh else refreshToken st) in
  let st2 := setSecureItem env "accessToken" access now st1 in
  let st3 := match refresh with
             | Some (c :: r) => setSecureItem env "refreshToken" (c :: r) now st2
             | _ => st2
             end in
  let expiryTime := now + LIFETIME in
  setSecureItem env "tokenExpiry" (number_to_string expiryTime) now st3.

Definition getAccessToken (env : Env) (st : State) : State * option jsstring :=
  if truthy (accessToken st) then (st, accessToken st)
  else
    let access := getSecureItem env "accessToken" st in
    (with_tokens st access (getSecureItem env "refreshToken" st), access).

Definition getRefreshToken (env : Env) (st : State) : State * option jsstring :=
  if truthy (refreshToken st) then (st, refreshToken st)
  else
    let refresh := getSecureItem env "refreshToken" st in
    (with_tokens st (accessToken st) refresh, refresh).

Definition clearTokens (env : Env) (st : State) : State :=
  removeSecureItem env "tokenExpiry"
    (removeSecureItem env "refreshToken"
       (removeSecureItem env "accessToken" (with_tokens st None None))).

(** [now >= parseInt(expiryTime)]; a comparison with [NaN] is false. *)
Definition at_or_after (now : Z) (expiryTime : jsstring) : bool :=
  match parseInt expiryTime with
  | Some expiry => expiry <=? now
  | None => false
  end.

Definition isTokenExpired (env : Env) (now : Z) (st : State) : bool :=
  match getSecureItem env "tokenExpiry" st with
  | Some (c :: r) => at_or_after now (c :: r)
  | _ => true                         (* [!expiryTime] *)
  end.

Definition isTokenExpiringSoon (env : Env) (now : Z) (st : State) : bool :=
  match getSecureItem env "tokenExpiry" st with
  | Some (c :: r) =>
      let fiveMinutesFromNow := now + EXPIRING_SOON_WINDOW in
      at_or_after fiveMinutesFromNow (c :: r)
  | _ => true
  end.

(** A time value as [Date.now()] can read it (ECMA-262, 21.4.1.1);
    within this range the Number arithmetic above is exact. *)
Definition time_value (t : Z) : Prop := 0 <= t <= 8640000000000000.

(** The expiry on record, if any: what [tokenExpiry] reads as. *)
Definition recorded_expiry (env : Env) (st : State) : option Z :=
  match getSecureItem env "tokenExpiry" st with
  | Some (c :: r) => parseInt (c :: r)
  | _ => None
  end.

(** Nothing usable is stored under [tokenExpiry]. *)
Definition no_expiry_recorded (env : Env) (st : State) : Prop :=
  getSecureItem env "tokenExpiry" st = None
  ∨ getSecureItem env "tokenExpiry" st = Some [].

(** *** Renewal: [refreshAccessToken] and [performTokenRefresh]

    The calls interleave at their [await]s. Every call of
    [performTokenRefresh] makes one ticket, numbered in order; its
    promise is the ticket. *)

(** [AuthResponse] *)
Record AuthResponse : Type := {
  response_accessToken : jsstring;
  response_refreshToken : option jsstring
}.

Inductive Ticket : Type :=
| Requesting                          (* at [await ky.post(...).json()] *)
| UpdatingStore (access : jsstring) (refresh : option jsstring)
                                      (* at [await import("@/store/auth-store")] *)
| Settled (outcome : Settlement jsstring).

(** A call of [refreshAccessToken]: the ticket it awaits, if it got as
    far as one; whether it is the call that made the ticket; and how
    its own promise settled, once it has. *)
Record Call : Type := {
  ticket : option nat;
  creator : bool;
  outcome : option (Settlement jsstring)
}.

Record World : Type := {
  manager : State;
  tickets : list Ticket;
  requests : list jsstring;     (* the POSTs made, by bearer credential *)
  calls : list Call
}.

Definition NO_REFRESH_TOKEN : JsValue :=
  JsObject true "Error" "No refresh token available" None.
Definition REFRESH_FAILED : JsValue :=
  JsObject true "Error" "Token refresh failed" None.

(** [refreshAccessToken()] up to its first [await] (or its [throw]). *)
Definition refreshAccessToken (env : Env) (w : World) : World :=
  let tm := manager w in
  match isRefreshing tm, refreshPromise tm with
  | true, Some p =>
      (* return this.refreshPromise *)
      {| manager := tm; tickets := tickets w; requests := requests w;
         calls := calls w ++ [{| ticket := Some p; creator := false;
                                 outcome := None |}] |}
  | _, _ =>
      let got := getRefreshToken env tm in
      match got.2 with
      | Some (c :: r) =>
          let p := length (tickets w) in
          (* performTokenRefresh(refreshToken) up to its first await *)
          {| manager := with_slot got.1 true (Some p);
             tickets := tickets w ++ [Requesting];
             requests := requests w ++ [c :: r];
             calls := calls w ++ [{| ticket := Some p; creator := true;
                                     outcome := None |}] |}
      | _ =>
          {| manager := got.1; tickets := tickets w; requests := requests w;
             calls := calls w ++ [{| ticket := None; creator := false;
                                     outcome := Some (Rejected NO_REFRESH_TOKEN) |}] |}
      end
  end.

Definition with_ticket (w : World) (p : nat) (t : Ticket) (tm : State) : World :=
  {| manager := tm; tickets := <[p := t]> (tickets w);
     requests := requests w; calls := calls w |}.

(** The POST of ticket [p] is answered, or fails with [cause]:
    [performTokenRefresh] goes on from its first [await]. *)
Definition respond (env : Env) (p : nat) (answer : AuthResponse + JsValue)
    (now : Z) (w : World) : World :=
  match tickets w !! p with
  | Some Requesting =>
      match answer with
      | inl response =>
          let tm := setTokens env (response_accessToken response)
                      (response_refreshToken response) now (manager w) in
          if hasWindow env
          then with_ticket w p (UpdatingStore (response_accessToken response)
                                              (response_refreshToken response)) tm
          else with_ticket w p (Settled (Fulfilled (response_accessToken response))) tm
      | inr cause =>
          (* console.error(cause); throw new Error("Token refresh failed") *)
          with_ticket w p (Settled (Rejected REFRESH_FAILED)) (manager w)
      end
  | _ => w
  end.

(** The import of the auth store is over. When it went through
    ([imported]), the [setTokens] action of the store runs, which
    calls [tokenManager.setTokens] once more, at clock reading [now];
    a failure of the import or of the store is caught and logged.
    Either way [performTokenRefresh] returns the access token. *)
Definition storeUpdated (env : Env) (p : nat) (imported : bool) (now : Z)
    (w : World) : World :=
  match tickets w !! p with
  | Some (UpdatingStore access refresh) =>
      with_ticket w p (Settled (Fulfilled access))
        (if imported then setTokens env access refresh now (manager w)
         else manager w)
  | _ => w
  end.

Definition finish (w : World) (c : nat) (call : Call)
    (o : Settlement jsstring) (tm : State) : World :=
  {| manager := tm; tickets := tickets w; requests := requests w;
     calls := <[c := {| ticket := ticket call; creator := creator call;
                        outcome := Some o |}]> (calls w) |}.

(** Call [c] goes on once its ticket has settled: the creator from its
    [await this.refreshPromise], into the [try] or the [catch]; any
    other caller by taking over the outcome. *)
Definition resume (env : Env) (c : nat) (w : World) : World :=
  match calls w !! c with
  | Some call =>
      match outcome call, ticket call with
      | None, Some p =>
          match tickets w !! p with
          | Some (Settled o) =>
              if creator call then
                let tm := with_slot (manager w) false None in
                match o with
                | Fulfilled _ => finish w c call o tm
                | Rejected _ => finish w c call o (clearTokens env tm)
                end
              else finish w c call o (manager w)
          | _ => w
          end
      | _, _ => w
      end
  | None => w
  end.

Definition with_manager (w : World) (tm : State) : World :=
  {| manager := tm; tickets := tickets w; requests := requests w;
     calls := calls w |}.

(** What can happen next. *)
Inductive Event : Type :=
| CallRefresh
| Respond (p : nat) (answer : AuthResponse + JsValue) (now : Z)
| StoreUpdated (p : nat) (imported : bool) (now : Z)
| Resume (c : nat)
| SetTokens (access : jsstring) (refresh : option jsstring) (now : Z)
| ClearTokens
| GetAccessToken
| GetRefreshToken.

Definition step (env : Env) (ev : Event) (w : World) : World :=
  match ev with
  | CallRefresh => refreshAccessToken env w
  | Respond p answer now => respond env p answer now w
  | StoreUpdated p imported now => storeUpdated env p imported now w
  | Resume c => resume env c w
  | SetTokens access refresh now =>
      with_manager w (setTokens env access refresh now (manager w))
  | ClearTokens => with_manager w (clearTokens env (manager w))
  | GetAccessToken => with_manager w (getAccessToken env (manager w)).1
  | GetRefreshToken => with_manager w (getRefreshToken env (manager w)).1
  end.

Definition run (env : Env) (evs : list Event) (w : World) : World :=
  foldl (λ w ev, step env ev w) w evs.

(** A world in which no renewal was ever asked for. *)
Definition fresh (w : World) : Prop :=
  isRefreshing (manager w) = false ∧ refreshPromise (manager w) = None
  ∧ tickets w = [] ∧ requests w = [] ∧ calls w = [].

Definition reachable (env : Env) (w : World) : Prop :=
  ∃ w0 evs, fresh w0 ∧ w = run env evs w0.

(** Ticket [p] is in flight. *)
Definition in_flight (p : nat) (w : World) : Prop :=
  ∃ t, tickets w !! p = Some t ∧ ∀ o, t ≠ Settled o.

(** Call [c] is pending. *)
Definition pending (c : nat) (w : World) : Prop :=
  ∃ call, calls w !! c = Some call ∧ outcome call = None.

(** The invariant of the renewal protocol. *)
Record invariant (w : World) : Prop := {
  inv_flag : isRefreshing (manager w) = true ↔ is_Some (refreshPromise (manager w));
  inv_slot : ∀ p, refreshPromise (manager w) = Some p ↔
                  ∃ c, calls w !! c = Some {| ticket := Some p; creator := true;
                                              outcome := None |};
  inv_in_flight : ∀ p, in_flight p w → refreshPromise (manager w) = Some p;
  inv_requests : length (requests w) = length (tickets w);
  inv_ticket : ∀ c call p, calls w !! c = Some call → ticket call = Some p →
                           (p < length (tickets w))%nat;
  inv_outcome : ∀ c call o, calls w !! c = Some call → outcome call = Some o →
                 match ticket call with
                 | Some p => tickets w !! p = Some (Settled o)
                 | None => o = Rejected NO_REFRESH_TOKEN
                 end;
  inv_no_ticket : ∀ c call, calls w !! c = Some call → ticket call = None →
                            outcome call = Some (Rejected NO_REFRESH_TOKEN)
                            ∧ creator call = false;
  inv_creator : ∀ c c' p p',
      calls w !! c = Some {| ticket := Some p; creator := true; outcome := None |} →
      calls w !! c' = Some {| ticket := Some p'; creator := true; outcome := None |} →
      c = c';
  inv_rejection : ∀ p e, tickets w !! p = Some (Settled (Rejected e)) →
                         e = REFRESH_FAILED
}.

(** While call [n0], which began a renewal, is pending: any event
    but the one that resumes it. *)
Definition within_window (n0 : nat) (ev : Event) : Prop :=
  match ev with
  | Resume c => c ≠ n0
  | _ => True
  end.

(** The renewal begun by call [n0], which made ticket [p], has not
    come back to its caller: the slot holds [p], call [n0] awaits it,
    and every call made since was handed [p]; [nreq] POSTs have been
    made. *)
Definition renewal_pending (n0 p nreq : nat) (w : World) : Prop :=
  refreshPromise (manager w) = Some p
  ∧ calls w !! n0 = Some {| ticket := Some p; creator := true; outcome := None |}
  ∧ (∀ c call, (n0 ≤ c)%nat → calls w !! c = Some call → ticket call = Some p)
  ∧ length (requests w) = nreq
  ∧ length (tickets w) = S p.

(** Call [c] awaits ticket [p], which has settled with [o]: the call
    is still pending or has taken that outcome over. *)
Definition awaiting (c p : nat) (o : Settlement jsstring) (w : World) : Prop :=
  ∃ call, calls w !! c = Some call ∧ ticket call = Some p
          ∧ tickets w !! p = Some (Settled o)
          ∧ (outcome call = None ∨ outcome call = Some o).

(** The promise of call [c], which awaited ticket [p], has settled
    with [o]. *)
Definition delivered (c p : nat) (o : Settlement jsstring) (w : World) : Prop :=
  ∃ call, calls w !! c = Some call ∧ ticket call = Some p
          ∧ outcome call = Some o.

(** How the ticket of a POST settles, by what the POST is answered. *)
Definition ticket_outcome (answer : AuthResponse + JsValue) : Settlement jsstring :=
  match answer with
  | inl response => Fulfilled (response_accessToken response)
  | inr _ => Rejected REFRESH_FAILED
  end.

(** The keys the manager stores under. *)
Definition stored_keys : list string :=
  ["accessToken"; "refreshToken"; "tokenExpiry"].

(** A manager holding a refresh credential, nothing stored, no renewal
    asked for yet: the state after a sign-in kept in memory. *)
Definition signed_in : World :=
  {| manager := {| accessToken := Some (of_string "access-0");
                   refreshToken := Some (of_string "refresh-0");
                   isRefreshing := false; refreshPromise := None;
                   storage := ∅ |};
     tickets := []; requests := []; calls := [] |}.

(** A manager that holds nothing, no renewal asked for yet. *)
Definition signed_out : World :=
  {| manager := {| accessToken := None; refreshToken := None;
                   isRefreshing := false; refreshPromise := None;
                   storage := ∅ |};
     tickets := []; requests := []; calls := [] |}.

Definition browser : Env :=
  {| hasWindow := true; production := false; storageWorks := true |}.

(** [validateSecurityState()] at clock reading [now]. *)
Definition validateSecurityState (env : Env) (now : Z) (st : State)
    : State * bool :=
  let access := getAccessToken env st in
  let refresh := getRefreshToken env access.1 in
  if truthy access.2 && isTokenExpired env now refresh.1 then
    (refresh.1, false)              (* "Access token is expired" *)
  else if truthy access.2 && negb (truthy refresh.2) then
    (refresh.1, false)              (* "Missing refresh token" *)
  else (refresh.1, true).

(** The manager [new TokenManager()] makes, over a Storage object
    that holds [items]: what a reload of the page leaves. *)
Definition newInstance (items : gmap string jsstring) : State :=
  {| accessToken := None; refreshToken := None;
     isRefreshing := false; refreshPromise := None; storage := items |}.

(** The Storage object can be read and written. *)
Definition usable (env : Env) : bool := hasWindow env && storageWorks env.

End TokenManager.

(** ** The deduplication registry ([RequestDeduplicator]) *)

Module RequestDeduplicator.

Definition PENDING_TIMEOUT : Z := 30000.
Definition CLEANUP_INTERVAL : Z := 60000.

(** A value of the [pendingRequests] map. Operations are numbered in
    the order [requestFn] is invoked; the promise
    [requestFn(signal).finally(...)] and the [AbortController] made for
    the n-th invocation are both referred to by the number n. *)
Record Entry : Type := {
  promise : nat;
  controller : nat;
  timestamp : Z
}.

(** One invocation of [requestFn]: the key its [finally] handler will
    delete, and how its promise settled ([None] while it is running). *)
Record Operation : Type := {
  op_key : string;
  settled : option (Settlement JsValue)
}.

Record State : Type := {
  pendingRequests : gmap string Entry;
  operations : list Operation;      (* every invocation of a [requestFn] *)
  aborted : gset nat                (* controllers whose [abort()] ran *)
}.

Definition initial : State :=
  {| pendingRequests := ∅; operations := []; aborted := ∅ |}.

(** [deduplicate(key, requestFn)] at clock reading [now]; the result is
    the promise handed to the caller. [requestFn] is an async function:
    invoking it yields a promise and does not throw. *)
Definition deduplicate (key : string) (now : Z) (st : State) : State * nat :=
  match pendingRequests st !! key with
  | Some existingRequest => (st, promise existingRequest)
  | None =>
      let id := length (operations st) in
      ({| pendingRequests :=
            <[key := {| promise := id; controller := id; timestamp := now |}]>
              (pendingRequests st);
          operations := operations st ++ [{| op_key := key; settled := None |}];
          aborted := aborted st |},
       id)
  end.

(** The promise of operation [id] settles: its [finally] handler runs
    [pendingRequests.delete(key)], then the promise handed out takes
    the outcome. *)
Definition settle (id : nat) (outcome : Settlement JsValue) (st : State) : State :=
  match operations st !! id with
  | Some op =>
      match settled op with
      | Some _ => st
      | None =>
          {| pendingRequests := delete (op_key op) (pendingRequests st);
             operations :=
               <[id := {| op_key := op_key op; settled := Some outcome |}]>
                 (operations st);
             aborted := aborted st |}
      end
  | None => st
  end.

Definition cancelRequest (key : string) (st : State) : State * bool :=
  match pendingRequests st !! key with
  | Some request =>
      ({| pendingRequests := delete key (pendingRequests st);
          operations := operations st;
          aborted := {[controller request]} ∪ aborted st |},
       true)
  | None => (st, false)
  end.

Definition cancelAllRequests (st : State) : State :=
  {| pendingRequests := ∅;
     operations := operations st;
     aborted := map_fold (λ _ request acc, {[controller request]} ∪ acc)
                         (aborted st) (pendingRequests st) |}.

(** The body of the [for ... of pendingRequests] loop of
    [cleanupExpiredRequests], on the pair (aborted controllers,
    [expiredKeys]). *)
Definition sweep_entry (now : Z) (key : string) (request : Entry)
    (acc : gset nat * list string) : gset nat * list string :=
  if now - timestamp request >? PENDING_TIMEOUT
  then ({[controller request]} ∪ acc.1, acc.2 ++ [key])
  else acc.

Definition cleanupExpiredRequests (now : Z) (st : State) : State :=
  let swept := map_fold (sweep_entry now) (aborted st, []) (pendingRequests st) in
  {| pendingRequests := foldl (λ m key, delete key m) (pendingRequests st) swept.2;
     operations := operations st;
     aborted := swept.1 |}.

(** An entry the sweep at [now] treats as expired. *)
Definition expired_at (now : Z) (request : Entry) : Prop :=
  now - timestamp request > PENDING_TIMEOUT.

#[global] Instance expired_at_dec now request : Decision (expired_at now request).
Proof. unfold expired_at. apply _. Defined.

(** [getStatus().pendingCount]. *)
Definition pendingCount (st : State) : nat := size (pendingRequests st).

(** The operations of the registry as events of a run. *)
Inductive Event : Type :=
| Deduplicate (key : string) (now : Z)
| Settle (id : nat) (outcome : Settlement JsValue)
| CancelRequest (key : string)
| CancelAllRequests
| CleanupExpiredRequests (now : Z).

(** One event; for [Deduplicate], also the key and the promise the
    caller got. *)
Definition step (ev : Event) (st : State) : State * option (string * nat) :=
  match ev with
  | Deduplicate key now =>
      let r := deduplicate key now st in (r.1, Some (key, r.2))
  | Settle id outcome => (settle id outcome st, None)
  | CancelRequest key => ((cancelRequest key st).1, None)
  | CancelAllRequests => (cancelAllRequests st, None)
  | CleanupExpiredRequests now => (cleanupExpiredRequests now st, None)
  end.

(** A run: the final state and, in order, what the callers of
    [deduplicate] were handed. *)
Fixpoint run (evs : list Event) (st : State) : State * list (string * nat) :=
  match evs with
  | [] => (st, [])
  | ev :: evs' =>
      let r := step ev st in
      let rest := run evs' r.1 in
      (rest.1, match r.2 with Some c => c :: rest.2 | None => rest.2 end)
  end.

(** How often a [requestFn] was invoked under [key]. *)
Definition executions (key : string) (st : State) : nat :=
  length (filter (λ k, k = key) (op_key <$> operations st)).

(** While the calls for [fp] that began with operation [p] at clock
    reading [t0] are pending, an event leaves them undisturbed if it
    neither settles [p] nor cancels or sweeps the entry of [fp]. *)
Definition undisturbed (fp : string) (p : nat) (t0 : Z) (ev : Event) : Prop :=
  match ev with
  | Deduplicate _ _ => True
  | Settle id _ => id ≠ p
  | CancelRequest key => key ≠ fp
  | CancelAllRequests => False
  | CleanupExpiredRequests now => now - t0 <= PENDING_TIMEOUT
  end.

(** The calls for [fp] that began with operation [p] at [t0] are
    pending: the entry of [fp] is the one registered for [p], [p] is
    running, it is the only running operation invoked under [fp], and
    a [requestFn] ran [n] times under [fp] so far. *)
Definition cohort_pending (fp : string) (p : nat) (t0 : Z) (n : nat)
    (st : State) : Prop :=
  pendingRequests st !! fp =
    Some {| promise := p; controller := p; timestamp := t0 |}
  ∧ operations st !! p = Some {| op_key := fp; settled := None |}
  ∧ (∀ id op, operations st !! id = Some op →
              op_key op = fp → settled op = None → id = p)
  ∧ executions fp st = n.

(** Operation [id] is running: invoked and not settled. *)
Definition running (id : nat) (st : State) : Prop :=
  ∃ op, operations st !! id = Some op ∧ settled op = None.

(** The outcome a caller holding promise [p] observes, once there is one. *)
Definition outcome_of (p : nat) (st : State) : option (Settlement JsValue) :=
  op ← operations st !! p; settled op.

(** A registry some sequence of events leads to from the empty one. *)
Definition reachable (st : State) : Prop := ∃ evs, st = (run evs initial).1.

(** What holds of every registered entry in a reachable registry: its
    promise and its controller are those of one operation, invoked
    under the entry's key and still running, and [abort()] has not
    been called on the controller. *)
Definition entries_live (st : State) : Prop :=
  (∀ key request, pendingRequests st !! key = Some request →
     controller request = promise request
     ∧ operations st !! promise request = Some {| op_key := key; settled := None |}
     ∧ controller request ∉ aborted st)
  ∧ (∀ c, c ∈ aborted st → (c < length (operations st))%nat).

End RequestDeduplicator.

(** ** Bounded retry ([retryableRequest]) *)

Module Retry.
Import RequestDeduplicator.

Record RetryOptions : Type := {
  maxRetries : option Z;
  retryDelay : option Z;
  retryCondition : option (JsValue → bool);
  key : option string
}.

Definition no_options : RetryOptions :=
  {| maxRetries := None; retryDelay := None; retryCondition := None; key := None |}.

(** What a call of [retryableRequest] did: how its promise settled, how
    many times the loop body ran, the delays handed to [setTimeout] in
    order, and the registry it left. *)
Record RetryRun : Type := {
  result : Settlement JsValue;
  attempts : nat;
  delays : list Z;
  final : State
}.

(** [`${key}_attempt_${attempt}`] *)
Definition attemptKey (key : string) (attempt : Z) : string :=
  key +:+ "_attempt_" +:+ pretty attempt.

Section Loop.
(** The environment: how the promise of each operation settles, and
    what [Date.now()] reads when attempt [i] is dispatched. *)
Variable settles : nat → Settlement JsValue.
Variable clock : Z → Z.

Variables (maxRetries retryDelay : Z) (retryCondition : JsValue → bool)
          (key : string).

(** The [for] loop, from [attempt] on; [remaining] counts the values
    of [attempt] that still satisfy [attempt <= maxRetries]. *)
Fixpoint retryLoop (remaining : nat) (attempt : Z) (lastError : JsValue)
    (st : State) : RetryRun :=
  match remaining with
  | O =>
      (* the loop condition fails: throw lastError *)
      {| result := Rejected lastError; attempts := 0; delays := []; final := st |}
  | S remaining' =>
      let call := deduplicate (attemptKey key attempt) (clock attempt) st in
      let outcome := settles call.2 in
      let st' := settle call.2 outcome call.1 in
      match outcome with
      | Fulfilled value =>
          {| result := Fulfilled value; attempts := 1; delays := []; final := st' |}
      | Rejected error =>
          if (attempt =? maxRetries) || negb (retryCondition error) then
            {| result := Rejected error; attempts := 1; delays := []; final := st' |}
          else
            let rest := retryLoop remaining' (attempt + 1) error st' in
            {| result := result rest;
               attempts := S (attempts rest);
               delays := retryDelay * 2 ^ attempt :: delays rest;
               final := final rest |}
      end
  end.
End Loop.

(** The destructuring defaults of [options]; [random] is the rendering
    of [Math.random()] in the default key. *)
Definition limit_of (options : RetryOptions) : Z :=
  default 3 (maxRetries options).
Definition base_delay_of (options : RetryOptions) : Z :=
  default 1000 (retryDelay options).
Definition condition_of (options : RetryOptions) : JsValue → bool :=
  default (λ _, true) (retryCondition options).
Definition key_of (clock : Z → Z) (random : string) (options : RetryOptions)
    : string :=
  default ("retry_" +:+ pretty (clock 0) +:+ "_" +:+ random) (key options).

(** [retryableRequest(requestFn, options)]. *)
Definition retryableRequest (settles : nat → Settlement JsValue) (clock : Z → Z)
    (random : string) (options : RetryOptions) (st : State) : RetryRun :=
  retryLoop settles clock (limit_of options) (base_delay_of options)
    (condition_of options) (key_of clock random options)
    (Z.to_nat (limit_of options + 1)) 0 JsUndefined st.

(** A script for the environment: starting with operation [first], [n]
    failures, then a success. *)
Definition fail_then_succeed (first : nat) (failures : nat → JsValue)
    (n : nat) (value : JsValue) (id : nat) : Settlement JsValue :=
  if decide (id < first + n)%nat then Rejected (failures (id - first)%nat)
  else Fulfilled value.

(** Each delay is twice the one before it. *)
Definition doubling (ds : list Z) : Prop :=
  ∀ i x y, ds !! i = Some x → ds !! S i = Some y → y = 2 * x.

(** No delay is shorter than the one before it. *)
Definition nondecreasing (ds : list Z) : Prop :=
  ∀ i x y, ds !! i = Some x → ds !! S i = Some y → x <= y.

(** The time spent waiting between attempts. *)
Definition total_delay (ds : list Z) : Z := foldr Z.add 0 ds.

End Retry.

(** ** Forced sign-out ([handleUnauthorizedError], [token-manager.ts]) *)

Module SignOut.
Import TokenManager.

(** The page the code runs in: [window.location.pathname], and
    whether importing the auth store goes through, so that its
    [logout] action runs, which calls [tokenManager.clearTokens] once
    more (a failure there is caught and logged). *)
Record Page : Type := {
  currentPath : string;
  storeAvailable : bool
}.

Record Result : Type := {
  manager_after : State;
  loggedOut : bool;                  (* the store's [logout()] ran *)
  redirect : option (Z * string)     (* [setTimeout] delay, new [location.href] *)
}.

(** [currentPath.startsWith("/auth/") || currentPath === "/"] *)
Definition isAuthPage (currentPath : string) : bool :=
  String.prefix "/auth/" currentPath || bool_decide (currentPath = "/").

Definition handleUnauthorizedError (env : Env) (page : Page) (st : State)
    : Result :=
  let tm := clearTokens env st in
  if hasWindow env then
    {| manager_after := if storeAvailable page then clearTokens env tm else tm;
       loggedOut := storeAvailable page;
       redirect := if isAuthPage (currentPath page) then None
                   else Some (1000, "/auth/signin"%string) |}
  else {| manager_after := tm; loggedOut := false; redirect := None |}.

End SignOut.

(** ** The failure handler ([ErrorHandler], [error-handler.ts]) *)

Module ErrorHandler.
Import ErrorClassifier TokenManager SignOut.

(** What a custom handler can reach of what [handle] reads after it:
    the object it is handed, which is the one [handle] goes on with;
    the options, of which it is called as a method; the token manager
    and its storage; and the page. Properties keep their declared
    types. *)
Record Reached : Type := {
  error_now : StructuredError;
  silent_now : option bool;
  showToast_now : option bool;
  toastInstance_now : bool;
  manager_now : State;
  page_now : Page
}.

(** [ErrorHandlingOptions]; [toastInstance] records whether one was
    given. A custom handler is code of the caller: it leaves what it
    can reach in some state, and it returns or throws. *)
Record ErrorHandlingOptions : Type := {
  showToast : option bool;
  logError : option bool;
  customHandler : option (Reached → Reached * option JsValue);
  silent : option bool;
  toastInstance : bool
}.

(** [options = {}] *)
Definition no_options : ErrorHandlingOptions :=
  {| showToast := None; logError := None; customHandler := None;
     silent := None; toastInstance := false |}.

Inductive Level : Type := error_level | warn_level.

(** What a call of [handle] does that can be observed, in order. *)
Inductive Effect : Type :=
| Logged (level : Level) (se : StructuredError)      (* [logError] *)
| CustomHandlerFailed (handlerError : JsValue)
| Console (level : Level) (label : string)           (* a per-kind handler *)
| SignedOut (loggedOut : bool)                       (* [handleUnauthorizedError] *)
| ToastShown (message : string)                      (* [toastInstance.show] *)
| ToastLogged (message : string).                    (* [console.error("Toast message:", ...)] *)

(** [logError]: the console method used. *)
Definition log_level (t : ErrorType) : Level :=
  match t with
  | SERVER_ERROR | UNKNOWN_ERROR => error_level
  | _ => warn_level
  end.

(** [messageMap] of [showErrorToast]. *)
Definition messageMap (t : ErrorType) : string :=
  match t with
  | AUTHENTICATION_ERROR => ERROR_MESSAGES.UNAUTHORIZED
  | AUTHORIZATION_ERROR => ERROR_MESSAGES.FORBIDDEN
  | VALIDATION_ERROR => ERROR_MESSAGES.VALIDATION_ERROR
  | NOT_FOUND_ERROR => ERROR_MESSAGES.NOT_FOUND
  | CONFLICT_ERROR => "이미 존재하는 데이터입니다."
  | SERVER_ERROR => ERROR_MESSAGES.SERVER_ERROR
  | NETWORK_ERROR => ERROR_MESSAGES.NETWORK_ERROR
  | UNKNOWN_ERROR => ERROR_MESSAGES.NETWORK_ERROR
  end.

(** [messageMap[error.type] || error.message] *)
Definition toast_message (se : StructuredError) : string :=
  or_else (messageMap (type se)) (message_text se).

Definition showErrorToast (se : StructuredError) (toastInstance : bool) : Effect :=
  if toastInstance then ToastShown (toast_message se)
  else ToastLogged (toast_message se).

Record Handling : Type := {
  settled_as : Settlement StructuredError;   (* the promise [handle] returns *)
  trace : list Effect;
  manager_left : State;
  redirected : option (Z * string)
}.

(** The entry of [handlers] for a kind, run on [st]. *)
Definition run_handler (env : Env) (page : Page) (t : ErrorType) (st : State)
    : list Effect * State * option (Z * string) :=
  match t with
  | AUTHENTICATION_ERROR =>
      let r := handleUnauthorizedError env page st in
      ([SignedOut (loggedOut r)], manager_after r, redirect r)
  | AUTHORIZATION_ERROR => ([Console warn_level "Authorization failed:"], st, None)
  | VALIDATION_ERROR => ([Console warn_level "Validation error:"], st, None)
  | NOT_FOUND_ERROR => ([Console warn_level "Resource not found:"], st, None)
  | CONFLICT_ERROR => ([Console warn_level "Resource conflict:"], st, None)
  | SERVER_ERROR => ([Console error_level "Server error:"], st, None)
  | NETWORK_ERROR => ([Console error_level "Network error:"], st, None)
  | UNKNOWN_ERROR => ([Console error_level "Unknown error:"], st, None)
  end.

(** The [Error] object a failing property read throws. *)
Definition thrown (e : JsException) : JsValue :=
  match e with
  | TypeError reason => JsObject true "TypeError" reason None
  end.

(** What [handle] has in hand when it comes to the custom handler. *)
Definition reached (page : Page) (structuredError : StructuredError)
    (options : ErrorHandlingOptions) (st : State) : Reached :=
  {| error_now := structuredError; silent_now := silent options;
     showToast_now := showToast options;
     toastInstance_now := toastInstance options; manager_now := st;
     page_now := page |}.

(** [options.customHandler(structuredError)] inside its [try]: what
    is left, and the value thrown if any. *)
Definition run_customHandler (page : Page) (structuredError : StructuredError)
    (options : ErrorHandlingOptions) (st : State) : Reached * option JsValue :=
  match customHandler options with
  | Some handler => handler (reached page structuredError options st)
  | None => (reached page structuredError options st, None)
  end.

(** [ErrorHandler.handle(error, options)]. *)
Definition handle (env : Env) (page : Page) (error : JsValue)
    (options : ErrorHandlingOptions) (st : State) : Handling :=
  match classify error with
  | Throws e =>
      {| settled_as := Rejected (thrown e); trace := [];
         manager_left := st; redirected := None |}
  | Returns structuredError =>
      let logged :=
        if bool_decide (logError options = Some false) then []
        else [Logged (log_level (type structuredError)) structuredError] in
      let ran := run_customHandler page structuredError options st in
      let custom :=
        match ran.2 with
        | Some handlerError => [CustomHandlerFailed handlerError]
        | None => []
        end in
      let quiet := bool_decide (silent_now ran.1 = Some true) in
      let handled :=
        if quiet then ([], manager_now ran.1, None)
        else run_handler env (page_now ran.1) (type (error_now ran.1))
               (manager_now ran.1) in
      let toast :=
        if negb (bool_decide (showToast_now ran.1 = Some false)) && negb quiet
        then [showErrorToast (error_now ran.1) (toastInstance_now ran.1)]
        else [] in
      {| settled_as := Fulfilled (error_now ran.1);
         trace := logged ++ custom ++ handled.1.1 ++ toast;
         manager_left := handled.1.2;
         redirected := handled.2 |}
  end.

(** [handleApiError] of [error-handler.ts]: [handle] is started and
    not awaited, and the error is thrown. *)
Definition handleApiError (env : Env) (page : Page) (error : JsValue)
    (options : ErrorHandlingOptions) (st : State)
    : Handling * Completion Empty_set JsValue :=
  (handle env page error options st, Throws error).

(** An effect that shows [message] to the user. *)
Definition shows (message : string) (eff : Effect) : Prop :=
  eff = ToastShown message ∨ eff = ToastLogged message.

(** The custom handler of [options], if there is one, leaves the
    kind of the object it is handed as it is. *)
Definition keeps_kind (page : Page) (structuredError : StructuredError)
    (options : ErrorHandlingOptions) (st : State) : Prop :=
  type (error_now (run_customHandler page structuredError options st).1)
  = type structuredError.

(** It leaves the [silent] and [showToast] options as they are. *)
Definition keeps_options (page : Page) (structuredError : StructuredError)
    (options : ErrorHandlingOptions) (st : State) : Prop :=
  silent_now (run_customHandler page structuredError options st).1
    = silent options
  ∧ showToast_now (run_customHandler page structuredError options st).1
    = showToast options.

(** It leaves the token manager and the page as they are. *)
Definition keeps_manager (page : Page) (structuredError : StructuredError)
    (options : ErrorHandlingOptions) (st : State) : Prop :=
  manager_now (run_customHandler page structuredError options st).1 = st
  ∧ page_now (run_customHandler page structuredError options st).1 = page.

(** Options with nothing set but a custom handler that throws
    [handlerError] and touches nothing. *)
Definition throwing_handler (handlerError : JsValue) : ErrorHandlingOptions :=
  {| showToast := None; logError := None;
     customHandler := Some (λ r, (r, Some handlerError));
     silent := None; toastInstance := false |}.

End ErrorHandler.

(** ** Debouncing ([debounce], [token-manager.ts])

    Every call of a debounced function makes one timer and one promise;
    both are referred to by the number of the call. *)

Module Debounce.

Inductive Status : Type :=
| Armed        (* [setTimeout] done, callback not yet run *)
| Cleared      (* [clearTimeout] reached it first *)
| Fired.       (* the callback ran: [fn(...args)] was invoked *)

#[global] Instance Status_eq_dec : EqDecision Status.
Proof. solve_decision. Defined.

Record Timer : Type := {
  timer_key : string;                        (* [debounceKey] *)
  timer_delay : Z;
  status : Status;
  settled : option (Settlement JsValue)      (* the promise of the call *)
}.

Record State : Type := {
  debounceTimers : gmap string nat;
  timers : list Timer
}.

Definition initial : State := {| debounceTimers := ∅; timers := [] |}.

(** [key || `debounce_${fn.name}_${JSON.stringify(args)}`]; [args] is
    the text [JSON.stringify] gives for the arguments. *)
Definition debounceKey (key : option string) (fnName args : string) : string :=
  match key with
  | Some k => if decide (k = "") then "debounce_" +:+ fnName +:+ "_" +:+ args else k
  | None => "debounce_" +:+ fnName +:+ "_" +:+ args
  end.

Definition with_status (t : Timer) (s : Status) : Timer :=
  {| timer_key := timer_key t; timer_delay := timer_delay t;
     status := s; settled := settled t |}.

(** [clearTimeout(id)]: nothing happens unless the timer is armed. *)
Definition clearTimeout (id : nat) (ts : list Timer) : list Timer :=
  match ts !! id with
  | Some t => if decide (status t = Armed) then <[id := with_status t Cleared]> ts
              else ts
  | None => ts
  end.

(** A call of the debounced function, [debounceKey] worked out: the
    executor of the promise. The result is the number of the call. *)
Definition call (key : string) (delay : Z) (st : State) : State * nat :=
  let cleared := match debounceTimers st !! key with
                 | Some existingTimer => clearTimeout existingTimer (timers st)
                 | None => timers st
                 end in
  let timer := length (timers st) in
  ({| debounceTimers := <[key := timer]> (debounceTimers st);
      timers := cleared ++ [{| timer_key := key; timer_delay := delay;
                               status := Armed; settled := None |}] |},
   timer).

(** The callback of timer [id] runs, up to its [await]:
    [debounceTimers.delete(debounceKey)], then [fn(...args)]. *)
Definition fire (id : nat) (st : State) : State :=
  match timers st !! id with
  | Some t =>
      if decide (status t = Armed) then
        {| debounceTimers := delete (timer_key t) (debounceTimers st);
           timers := <[id := with_status t Fired]> (timers st) |}
      else st
  | None => st
  end.

(** [fn(...args)] of call [id] is over: the callback goes on to
    [resolve(result)], or into its [catch], which deletes the key once
    more and rejects. *)
Definition settle (id : nat) (outcome : Settlement JsValue) (st : State) : State :=
  match timers st !! id with
  | Some t =>
      match status t, settled t with
      | Fired, None =>
          {| debounceTimers :=
               match outcome with
               | Fulfilled _ => debounceTimers st
               | Rejected _ => delete (timer_key t) (debounceTimers st)
               end;
             timers := <[id := {| timer_key := timer_key t;
                                  timer_delay := timer_delay t;
                                  status := Fired;
                                  settled := Some outcome |}]> (timers st) |}
      | _, _ => st
      end
  | None => st
  end.

(** The part of [cleanup()] on the timers: [clearTimeout] for every
    value of the map, then [debounceTimers.clear()]. *)
Definition clearAll (st : State) : State :=
  {| debounceTimers := ∅;
     timers := map_fold (λ _ timer ts, clearTimeout timer ts)
                        (timers st) (debounceTimers st) |}.

Inductive Event : Type :=
| Call (key : string) (delay : Z)
| Fire (id : nat)
| Settle (id : nat) (outcome : Settlement JsValue)
| ClearAll.

Definition step (ev : Event) (st : State) : State :=
  match ev with
  | Call key delay => (call key delay st).1
  | Fire id => fire id st
  | Settle id outcome => settle id outcome st
  | ClearAll => clearAll st
  end.

Definition run (evs : list Event) (st : State) : State :=
  foldl (λ st ev, step ev st) st evs.

(** Timer [id] is armed under [key]. *)
Definition armed (id : nat) (key : string) (st : State) : Prop :=
  ∃ t, timers st !! id = Some t ∧ timer_key t = key ∧ status t = Armed.

(** [fn] was invoked for call [id]. *)
Definition invoked (id : nat) (st : State) : Prop :=
  ∃ t, timers st !! id = Some t ∧ status t = Fired.

(** The promise of call [id], once it has settled. *)
Definition outcome_of (id : nat) (st : State) : option (Settlement JsValue) :=
  t ← timers st !! id; settled t.

(** An event in which no [fn] rejects. *)
Definition no_rejection (ev : Event) : Prop :=
  match ev with
  | Settle _ (Rejected _) => False
  | _ => True
  end.

(** [getStatus().debounceCount] *)
Definition debounceCount (st : State) : nat := size (debounceTimers st).

(** Every timer on the map is armed under its key, and no promise
    settles before its timer has fired. *)
Definition registered_armed (st : State) : Prop :=
  (∀ key i, debounceTimers st !! key = Some i → armed i key st)
  ∧ (∀ i t, timers st !! i = Some t → status t ≠ Fired → settled t = None).

(** Every armed timer is the one registered under its key. *)
Definition armed_registered (st : State) : Prop :=
  ∀ i key, armed i key st → debounceTimers st !! key = Some i.

End Debounce.

(** ** Throttling ([throttle], [token-manager.ts]) *)

Module Throttle.

(** A value of the [throttleState] map. *)
Record Entry : Type := {
  lastExecuted : Z;
  isThrottled : bool
}.

(** A timer set by a deferred call: its key, the clock reading when it
    was set, the delay handed to [setTimeout], whether it has fired. *)
Record Timer : Type := {
  timer_key : string;
  set_at : Z;
  remainingTime : Z;
  fired : bool
}.

Record State : Type := {
  throttleState : gmap string Entry;
  timers : list Timer;
  executions : list (string * Z)     (* [fn] invoked: under which key, when *)
}.

Definition initial : State :=
  {| throttleState := ∅; timers := []; executions := [] |}.

(** What a call of the throttled function did. *)
Inductive Answer : Type :=
| Executed                  (* [fn] invoked at once *)
| Deferred (timer : nat)    (* a timer set; its callback will invoke [fn] *)
| Throttled.                (* rejected with [Error("Request throttled")] *)

Definition REQUEST_THROTTLED : JsValue :=
  JsObject true "Error" "Request throttled" None.

(** [key || `throttle_${fn.name}_${JSON.stringify(args)}`] *)
Definition throttleKey (key : option string) (fnName args : string) : string :=
  match key with
  | Some k => if decide (k = "") then "throttle_" +:+ fnName +:+ "_" +:+ args else k
  | None => "throttle_" +:+ fnName +:+ "_" +:+ args
  end.

(** A call of the function throttled with [limit], [throttleKey]
    worked out, at clock reading [now]. *)
Definition call (limit : Z) (key : string) (now : Z) (st : State)
    : State * Answer :=
  let state := default {| lastExecuted := 0; isThrottled := false |}
                       (throttleState st !! key) in
  let timeSinceLastExecution := now - lastExecuted state in
  if limit <=? timeSinceLastExecution then
    ({| throttleState := <[key := {| lastExecuted := now; isThrottled := false |}]>
                           (throttleState st);
        timers := timers st;
        executions := executions st ++ [(key, now)] |},
     Executed)
  else if negb (isThrottled state) then
    ({| throttleState := <[key := {| lastExecuted := lastExecuted state;
                                     isThrottled := true |}]>
                           (throttleState st);
        timers := timers st ++ [{| timer_key := key; set_at := now;
                                   remainingTime := limit - timeSinceLastExecution;
                                   fired := false |}];
        executions := executions st |},
     Deferred (length (timers st)))
  else (st, Throttled).

(** The callback of timer [id] runs at clock reading [now]. *)
Definition fire (id : nat) (now : Z) (st : State) : State :=
  match timers st !! id with
  | Some t =>
      if fired t then st
      else
        {| throttleState :=
             match throttleState st !! timer_key t with
             | Some _ => <[timer_key t := {| lastExecuted := now;
                                             isThrottled := false |}]>
                           (throttleState st)
             | None => throttleState st
             end;
           timers := <[id := {| timer_key := timer_key t; set_at := set_at t;
                                remainingTime := remainingTime t;
                                fired := true |}]> (timers st);
           executions := executions st ++ [(timer_key t, now)] |}
  | None => st
  end.

(** The part of [cleanup()] on the throttling state:
    [throttleState.clear()]. *)
Definition clear (st : State) : State :=
  {| throttleState := ∅; timers := timers st; executions := executions st |}.

Inductive Event : Type :=
| Call (key : string) (now : Z)
| Fire (id : nat) (now : Z).

Definition step (limit : Z) (ev : Event) (st : State) : State :=
  match ev with
  | Call key now => (call limit key now st).1
  | Fire id now => fire id now st
  end.

Definition run (limit : Z) (evs : list Event) (st : State) : State :=
  foldl (λ st ev, step limit ev st) st evs.

(** When timer [id] is due. *)
Definition due (t : Timer) : Z := set_at t + remainingTime t.

(** Event [ev] comes on time: a timer fires once, and not before it
    is due; and no call is made under a key for which a timer is due
    and has not fired yet. *)
Definition on_time (ev : Event) (st : State) : Prop :=
  match ev with
  | Call key now =>
      ∀ id t, timers st !! id = Some t → timer_key t = key →
              fired t = false → now < due t
  | Fire id now =>
      ∃ t, timers st !! id = Some t ∧ fired t = false ∧ due t <= now
  end.

(** A schedule in which every event comes on time. *)
Fixpoint punctual (limit : Z) (evs : list Event) (st : State) : Prop :=
  match evs with
  | [] => True
  | ev :: evs' => on_time ev st ∧ punctual limit evs' (step limit ev st)
  end.

(** Timer [id], set under [key], has not fired. *)
Definition waiting (id : nat) (key : string) (st : State) : Prop :=
  ∃ t, timers st !! id = Some t ∧ timer_key t = key ∧ fired t = false.

(** The clock readings at which [fn] was invoked under [key], in order. *)
Definition executed_at (key : string) (st : State) : list Z :=
  (filter (λ e, e.1 = key) (executions st)).*2.

(** Successive readings are at least [limit] apart. *)
Definition spaced (limit : Z) (ts : list Z) : Prop :=
  ∀ i x y, ts !! i = Some x → ts !! S i = Some y → limit <= y - x.

(** What a punctual schedule keeps true: the entry of a key records
    the latest execution under it; a timer that has not fired goes
    with an entry marked as throttled and is due [limit] after that
    execution; there is one such timer per key at most; and the
    executions under a key are spaced. *)
Definition schedule_invariant (limit : Z) (st : State) : Prop :=
  (∀ key x, last (executed_at key st) = Some x →
     ∃ e, throttleState st !! key = Some e ∧ lastExecuted e = x)
  ∧ (∀ id key, waiting id key st →
     ∃ e t, throttleState st !! key = Some e ∧ isThrottled e = true
            ∧ timers st !! id = Some t ∧ due t = lastExecuted e + limit)
  ∧ (∀ id id' key, waiting id key st → waiting id' key st → id = id')
  ∧ (∀ key, spaced limit (executed_at key st)).

(** [getStatus().throttleCount] *)
Definition throttleCount (st : State) : nat := size (throttleState st).

End Throttle.

(** ** [getStatus] and [cleanup] ([token-manager.ts]) *)

Module Lifecycle.

Record State : Type := {
  registry : RequestDeduplicator.State;
  debouncing : Debounce.State;
  throttling : Throttle.State
}.

Record Status : Type := {
  pendingCount : nat;
  debounceCount : nat;
  throttleCount : nat
}.

(** [RequestDeduplicator.getStatus()] *)
Definition getStatus (st : State) : Status :=
  {| pendingCount := RequestDeduplicator.pendingCount (registry st);
     debounceCount := Debounce.debounceCount (debouncing st);
     throttleCount := Throttle.throttleCount (throttling st) |}.

(** [cleanup()] *)
Definition cleanup (st : State) : State :=
  {| registry := RequestDeduplicator.cancelAllRequests (registry st);
     debouncing := Debounce.clearAll (debouncing st);
     throttling := Throttle.clear (throttling st) |}.

End Lifecycle.

(** ** The API client ([createApiClient], [apiUtils]) *)

Module ApiClient.
Import JsString TokenManager.

(** The [beforeRequest] hook up to its [await]: it asks for a
    renewal when the credential is expiring soon and a refresh
    credential is found. The result names the call of
    [refreshAccessToken] it awaits, if any. *)
Definition beforeRequest_begin (env : Env) (now : Z) (w : World)
    : World * option nat :=
  if isTokenExpiringSoon env now (manager w) then
    let got := getRefreshToken env (manager w) in
    if truthy got.2 then
      (refreshAccessToken env (with_manager w got.1), Some (length (calls w)))
    else (with_manager w got.1, None)
  else (w, None).

(** The hook from there on, whether the renewal it awaited was
    fulfilled or rejected (a rejection is logged and nothing else):
    the value of the [Authorization] header it sets, if it sets one. *)
Definition beforeRequest_end (env : Env) (w : World)
    : World * option jsstring :=
  let got := getAccessToken env (manager w) in
  (with_manager w got.1,
   match got.2 with
   | Some (c :: r) => Some (of_string "Bearer " ++ c :: r)
   | _ => None
   end).

(** [handleApiError] of the client: [handle] is awaited, then the
    error is thrown. The result is how the promise is rejected. *)
Definition handleApiError (env : Env) (page : SignOut.Page) (error : JsValue)
    (options : ErrorHandler.ErrorHandlingOptions) (st : State)
    : ErrorHandler.Handling * JsValue :=
  let handled := ErrorHandler.handle env page error options st in
  (handled,
   match ErrorHandler.settled_as handled with
   | Fulfilled _ => error
   | Rejected reason => reason
   end).

End ApiClient.

Module ApiUtils.
Import RequestDeduplicator.

(** A request body as [createRequestKey] sees it: whether the value is
    truthy, and the text [JSON.stringify] gives for it. *)
Record Data : Type := {
  data_truthy : bool;
  data_json : string
}.

(** [createRequestKey(url, method, data?)] *)
Definition createRequestKey (url method : string) (data : option Data) : string :=
  let dataHash := match data with
                  | Some d => if data_truthy d then data_json d else ""
                  | None => ""
                  end in
  method +:+ ":" +:+ url +:+ ":" +:+ dataHash.

(** The text holds a [':']. *)
Fixpoint has_colon (s : string) : bool :=
  match s with
  | EmptyString => false
  | String c rest => Ascii.eqb c (Ascii.ascii_of_nat 58) || has_colon rest
  end.

(** [options.deduplication] *)
Record Deduplication : Type := {
  enabled : option bool;
  key : option string
}.

Section Client.
(** The options handed on to ky: [searchParams], [headers], ... *)
Context {KyOptions : Type}.

Record ExtendedOptions : Type := {
  deduplication : option Deduplication;
  kyOptions : KyOptions
}.

(** A request handed to ky: [api.get(url, {...kyOptions, signal})]
    and the like. *)
Record Sent : Type := {
  sent_method : string;
  sent_url : string;
  sent_data : option Data;
  sent_options : option KyOptions
}.

Record State : Type := {
  registry : RequestDeduplicator.State;
  sent : list Sent
}.

(** The promise awaited: that of a registry operation, or that of a
    request made directly. *)
Inductive Awaited : Type :=
| Shared (promise : nat)
| Direct (request : nat).

(** The body of the five methods. [byDefault] tells the two tests
    apart: [deduplication?.enabled !== false] for [get],
    [deduplication?.enabled === true] for the others. *)
Definition dispatch (method : string) (byDefault : bool) (url : string)
    (data : option Data) (options : option ExtendedOptions) (now : Z)
    (st : State) : State * Awaited :=
  let dedup := options ≫= deduplication in
  let flag := dedup ≫= enabled in
  let request := {| sent_method := method; sent_url := url; sent_data := data;
                    sent_options := kyOptions <$> options |} in
  let on := if byDefault then negb (bool_decide (flag = Some false))
            else bool_decide (flag = Some true) in
  if on then
    let requestKey :=
      match dedup ≫= key with
      | Some k => if decide (k = "") then createRequestKey url method data else k
      | None => createRequestKey url method data
      end in
    let r := deduplicate requestKey now (registry st) in
    ({| registry := r.1;
        sent := match pendingRequests (registry st) !! requestKey with
                | Some _ => sent st
                | None => sent st ++ [request]
                end |},
     Shared r.2)
  else
    ({| registry := registry st; sent := sent st ++ [request] |},
     Direct (length (sent st))).

(** [apiUtils.get], [post], [put], [patch] and [delete]. *)
Definition get (url : string) (options : option ExtendedOptions) :=
  dispatch "GET" true url None options.
Definition post (url : string) (data : option Data)
    (options : option ExtendedOptions) :=
  dispatch "POST" false url data options.
Definition put (url : string) (data : option Data)
    (options : option ExtendedOptions) :=
  dispatch "PUT" false url data options.
Definition patch (url : string) (data : option Data)
    (options : option ExtendedOptions) :=
  dispatch "PATCH" false url data options.
Definition delete (url : string) (options : option ExtendedOptions) :=
  dispatch "DELETE" false url None options.

(** The options leave the choice of key to [createRequestKey], and
    do not switch deduplication off. *)
Definition plain (options : option ExtendedOptions) : Prop :=
  (options ≫= deduplication) ≫= enabled ≠ Some false
  ∧ ((options ≫= deduplication) ≫= key = None
     ∨ (options ≫= deduplication) ≫= key = Some ""%string).
End Client.

End ApiUtils.

(** ** Debounced search ([createDebouncedSearch], [token-manager.ts])

    The function [createDebouncedSearch] returns keeps one variable,
    [currentController]; its timers go to the debounce store of the
    module. A call, its controller, its timer and its promise are all
    referred to by the number of the call. The continuations of a
    promise run in the turn in which it settles. *)

Module DebouncedSearch.

Record State : Type := {
  currentController : option nat;
  aborted : gset nat;                (* controllers whose [abort()] ran *)
  debouncing : Debounce.State;
  searched : list nat                (* calls for which [searchFn] was invoked *)
}.

Definition initial : State :=
  {| currentController := None; aborted := ∅;
     debouncing := Debounce.initial; searched := [] |}.

Definition REQUEST_CANCELLED : JsValue :=
  JsObject true "Error" "Request cancelled" None.

(** [`search_${query}`], the key handed to [debounce]; it is never
    empty, so it is the [debounceKey]. *)
Definition searchKey (query : string) : string := "search_" +:+ query.

(** A call of the returned function, up to its [await]. *)
Definition search (delay : Z) (query : string) (st : State) : State * nat :=
  let called := Debounce.call (searchKey query) delay (debouncing st) in
  ({| currentController := Some called.2;
      aborted := match currentController st with
                 | Some controller => {[controller]} ∪ aborted st
                 | None => aborted st
                 end;
      debouncing := called.1;
      searched := searched st |},
   called.2).

(** The function handed to [debounce] is over for call [id]: the
    callback of the timer resolves or rejects, and the returned
    function goes on after its [await], through
    [currentController = null] on either path. *)
Definition resume (id : nat) (outcome : Settlement JsValue) (st : State) : State :=
  {| currentController := None;
     aborted := aborted st;
     debouncing := Debounce.settle id outcome (debouncing st);
     searched := searched st |}.

(** The callback of timer [id] runs: with the signal aborted the
    function handed to [debounce] throws, otherwise it invokes
    [searchFn]. *)
Definition fire (id : nat) (st : State) : State :=
  match Debounce.timers (debouncing st) !! id with
  | Some t =>
      if decide (Debounce.status t = Debounce.Armed) then
        if decide (id ∈ aborted st) then
          resume id (Rejected REQUEST_CANCELLED)
            {| currentController := currentController st;
               aborted := aborted st;
               debouncing := Debounce.fire id (debouncing st);
               searched := searched st |}
        else
          {| currentController := currentController st;
             aborted := aborted st;
             debouncing := Debounce.fire id (debouncing st);
             searched := searched st ++ [id] |}
      else st
  | None => st
  end.

(** The promise [searchFn] returned for call [id] settles. *)
Definition settle (id : nat) (outcome : Settlement JsValue) (st : State) : State :=
  if decide (id ∈ searched st) then
    match Debounce.outcome_of id (debouncing st) with
    | None => resume id outcome st
    | Some _ => st
    end
  else st.

Inductive Event : Type :=
| Search (query : string)
| Fire (id : nat)
| Settle (id : nat) (outcome : Settlement JsValue).

Definition step (delay : Z) (ev : Event) (st : State) : State :=
  match ev with
  | Search query => (search delay query st).1
  | Fire id => fire id st
  | Settle id outcome => settle id outcome st
  end.

Definition run (delay : Z) (evs : list Event) (st : State) : State :=
  foldl (λ st ev, step delay ev st) st evs.

(** [searchFn] was invoked only for calls that were made. *)
Definition searched_made (st : State) : Prop :=
  ∀ id, id ∈ searched st → (id < length (Debounce.timers (debouncing st)))%nat.

(** Call [id] is cancelled: its signal is aborted, [searchFn] was not
    invoked for it, and its promise is unsettled or rejected as
    cancelled. *)
Definition cancelled (id : nat) (st : State) : Prop :=
  id ∈ aborted st ∧ (id ∉ searched st)
  ∧ ∃ t, Debounce.timers (debouncing st) !! id = Some t
         ∧ (Debounce.settled t = None
            ∨ Debounce.settled t = Some (Rejected REQUEST_CANCELLED)).

End DebouncedSearch.

(* ===================================================================== *)
(** * Part II: properties                                                 *)
(* ===================================================================== *)

(** ** The failure classifier *)

Section Classifier.
Import ErrorClassifier.

Lemma getErrorTypeByStatus_table (s : Z) :
  getErrorTypeByStatus s = decision_table s.
Proof.
  unfold getErrorTypeByStatus, decision_table,
    HTTP_STATUS.UNAUTHORIZED, HTTP_STATUS.FORBIDDEN, HTTP_STATUS.NOT_FOUND,
    HTTP_STATUS.CONFLICT, HTTP_STATUS.UNPROCESSABLE_ENTITY,
    HTTP_STATUS.INTERNAL_SERVER_ERROR.
  repeat case_decide;
    repeat match goal with
           | |- context [?a =? ?b] => destruct (Z.eqb_spec a b)
           | |- context [?a <=? ?b] => destruct (Z.leb_spec a b)
           | |- context [?a <? ?b] => destruct (Z.ltb_spec a b)
           end; simpl; try reflexivity; lia.
Qed.

Lemma classify_http (isError : bool) (name message : string) (r : Response) :
  classify (JsObject isError name message (Some (Some r))) =
  Returns {| type := decision_table (status r);
             status_code := Some (status r);
             message_text := message;
             originalError := JsObject isError name message (Some (Some r)) |}.
Proof. cbv [classify]. by rewrite getErrorTypeByStatus_table. Qed.

Lemma classify_other (error : JsValue) :
  (∀ s, ¬ http_failure error s) →
  ¬ transport_failure error →
  ¬ nullish_response error →
  classify error = Returns {| type := UNKNOWN_ERROR;
                              status_code := None;
                              message_text := fallback_message error;
                              originalError := error |}.
Proof.
  intros Hhttp Htr Hnull.
  destruct error as [| | b | n | s | isError name message [[[st]|]|]]; try reflexivity.
  - exfalso. apply (Hhttp st). by exists isError, name, message.
  - exfalso. apply Hnull. by exists isError, name, message.
  - destruct isError; [|reflexivity]. simpl.
    destruct (bool_decide (name = "TypeError")) eqn:Hn; [|reflexivity].
    destruct (includes "fetch" message) eqn:Hm; [|reflexivity].
    exfalso. apply Htr. apply bool_decide_eq_true in Hn. subst name.
    by exists message.
Qed.






(** The rows of the table at the statuses it names. *)
Lemma decision_table_rows :
  decision_table 401 = AUTHENTICATION_ERROR
  ∧ decision_table 403 = AUTHORIZATION_ERROR
  ∧ decision_table 404 = NOT_FOUND_ERROR
  ∧ decision_table 409 = CONFLICT_ERROR
  ∧ decision_table 422 = VALIDATION_ERROR
  ∧ decision_table 500 = SERVER_ERROR
  ∧ decision_table 400 = VALIDATION_ERROR
  ∧ decision_table 503 = SERVER_ERROR
  ∧ decision_table 302 = UNKNOWN_ERROR.
Proof. repeat split. Qed.

Lemma taxonomy_complete (t : ErrorType) : t ∈ taxonomy.
Proof. unfold taxonomy. destruct t; set_solver. Qed.

Lemma classify_returns (error : JsValue) :
  ¬ nullish_response error → ∃ se, classify error = Returns se.
Proof.
  intros Hnull.
  destruct error as [| | b | n | s | isError name message [[r|]|]];
    try (eexists; reflexivity).
  - exfalso. apply Hnull. by exists isError, name, message.
  - destruct isError; simpl; [|eauto].
    destruct (bool_decide _ && includes _ _); eauto.
Qed.

(** C3, as the code has it. On every input whose [response] property,
    when present, holds a response -- an HTTP-shaped error of any
    status, any [Error] instance, a string or any other value --
    [classify] returns exactly one Structured Failure, of a kind from
    the taxonomy, carrying the input as [originalError], and does not
    raise. For a shape it does not recognise the kind is
    [UNKNOWN_ERROR] and the message is the string itself for a string,
    the message of an [Error] instance when that is not empty, and the
    fixed default message for everything else. *)
Theorem classify_total_on_wellformed (error : JsValue) :
  ¬ nullish_response error →
  (∃ se, classify error = Returns se
         ∧ (∀ se', classify error = Returns se' → se' = se)
         ∧ type se ∈ taxonomy
         ∧ originalError se = error)
  ∧ ((∀ s, ¬ http_failure error s) → ¬ transport_failure error →
     ∃ se, classify error = Returns se
           ∧ type se = UNKNOWN_ERROR
           ∧ message_text se = fallback_message error)
  ∧ (∀ s, classify (JsString s) =
          Returns {| type := UNKNOWN_ERROR; status_code := None;
                     message_text := s; originalError := JsString s |})
  ∧ (∀ name message, message ≠ "" →
       ¬ transport_failure (JsObject true name message None) →
       ∃ se, classify (JsObject true name message None) = Returns se
             ∧ type se = UNKNOWN_ERROR ∧ message_text se = message).
Proof.
  intros Hnull. split; [|split; [|split]].
  - destruct (classify_returns error Hnull) as [se Hse].
    exists se. split; [done|]. split; [|split].
    + intros se' Hse'. congruence.
    + apply taxonomy_complete.
    + destruct error as [| | b | n | s | isError name message [[r|]|]];
        simpl in Hse; try (injection Hse as <-; reflexivity).
      * discriminate.
      * destruct isError; simpl in Hse.
        -- destruct (bool_decide _ && includes _ _);
             injection Hse as <-; reflexivity.
        -- injection Hse as <-; reflexivity.
  - intros H1 H2. rewrite (classify_other error H1 H2 Hnull). eauto.
  - reflexivity.
  - intros name message Hm Htr.
    rewrite classify_other.
    + eexists. split; [reflexivity|]. split; [reflexivity|].
      simpl. unfold or_else. by case_decide.
    + intros s (? & ? & ? & ?). discriminate.
    + done.
    + intros (? & ? & ? & ?). discriminate.
Qed.

Lemma classify_total_on_wellformed_witness :
  ¬ nullish_response (JsObject true "Error" "boom" None)
  ∧ ∃ se, classify (JsObject true "Error" "boom" None) = Returns se
          ∧ type se = UNKNOWN_ERROR ∧ message_text se = "boom".
Proof.
  assert (Hn : ¬ nullish_response (JsObject true "Error" "boom" None)).
  { intros (? & ? & ? & ?). discriminate. }
  split; [exact Hn|].
  destruct (classify_total_on_wellformed _ Hn) as (_ & H & _).
  apply H.
  - intros s (? & ? & ? & ?). discriminate.
  - intros (? & ? & ?). discriminate.
Defined.

(** C3 as stated fails where it says the original message is kept.
    A thrown plain object with a message, [{ message: "boom" }], is an
    unrecognised shape, and the failure returned for it carries the
    default text, not "boom"; and for [new Error("")] the empty
    message is replaced by the default text as well. *)
Lemma classify_replaces_message :
  (∃ se, classify (JsObject false "" "boom" None) = Returns se
         ∧ type se = UNKNOWN_ERROR
         ∧ message_text se = ERROR_MESSAGES.NETWORK_ERROR
         ∧ message_text se ≠ "boom")
  ∧ (∃ se, classify (JsObject true "Error" "" None) = Returns se
           ∧ type se = UNKNOWN_ERROR
           ∧ message_text se = ERROR_MESSAGES.NETWORK_ERROR
           ∧ message_text se ≠ "").
Proof.
  split; (eexists; split; [reflexivity|]; repeat split; discriminate).
Qed.

(** An object whose [response] property is [null] or [undefined]
    passes the ["response" in error] test, and reading
    [response.status] raises: on such a value [classify] does not
    return. *)
Example classify_raises_on_nullish_response :
  ∃ e, classify (JsObject true "Error" "Network Error" (Some None)) = Throws e.
Proof. eexists. reflexivity. Qed.

End Classifier.
(** ** The platform codecs *)

Section ListInduction.
Context {A : Type} (P : list A → Prop).

(** Induction in steps of three, as base64 reads its input. *)
Lemma list_ind3 :
  P [] → (∀ x, P [x]) → (∀ x y, P [x; y]) →
  (∀ x y z l, P l → P (x :: y :: z :: l)) → ∀ l, P l.
Proof.
  intros H0 H1 H2 H3.
  assert (H : ∀ n l, (length l ≤ n)%nat → P l).
  { induction n as [|n IH]; intros l Hl.
    - destruct l; [done|simpl in Hl; lia].
    - destruct l as [|x [|y [|z l]]]; try done.
      apply H3, IH. simpl in Hl. lia. }
  intros l. by apply (H (length l)).
Qed.

(** Induction in steps of one or two, as a surrogate pair is read. *)
Lemma list_ind2 :
  P [] → (∀ x l, P l → P (x :: l)) →
  ∀ l, P l.
Proof. intros H0 H1 l. induction l; auto. Qed.
End ListInduction.

Section Base64.
Import JsString.

Lemma base64_value_char (n : Z) :
  is_sextet n → base64_value (base64_char n) = Some n.
Proof.
  unfold is_sextet, base64_value, base64_char. intros Hn.
  repeat match goal with
         | |- context [?a <? ?b] => destruct (Z.ltb_spec a b)
         | |- context [?a <=? ?b] => destruct (Z.leb_spec a b)
         | |- context [?a =? ?b] => destruct (Z.eqb_spec a b)
         end; simpl; try (f_equal; lia); lia.
Qed.

Lemma base64_char_not_pad (c : Z) : is_base64_char c → c ≠ 61.
Proof.
  intros [v Hv] ->. vm_compute in Hv. discriminate.
Qed.

Lemma base64_char_not_whitespace (c : Z) :
  is_base64_char c ∨ c = 61 → is_ascii_whitespace c = false.
Proof.
  intros H. unfold is_ascii_whitespace. apply bool_decide_eq_false.
  intros Hin. destruct H as [[v Hv]| ->].
  - repeat (apply elem_of_cons in Hin as [->|Hin]; [vm_compute in Hv; discriminate|]).
    by apply elem_of_nil in Hin.
  - repeat (apply elem_of_cons in Hin as [?|Hin]; [discriminate|]).
    by apply elem_of_nil in Hin.
Qed.

Lemma base64_sextets_range (bytes : list Z) :
  Forall is_octet bytes → Forall is_sextet (base64_sextets bytes).
Proof.
  unfold is_octet, is_sextet.
  induction bytes as [|x|x y|x y z l IH] using list_ind3; intros Hb.
  - constructor.
  - apply Forall_cons in Hb as [Hx _]. cbn [base64_sextets].
    repeat (apply Forall_cons; split); [..|apply Forall_nil];
      Z.div_mod_to_equations; lia.
  - apply Forall_cons in Hb as [Hx Hb]. apply Forall_cons in Hb as [Hy _].
    cbn [base64_sextets].
    repeat (apply Forall_cons; split); [..|apply Forall_nil];
      Z.div_mod_to_equations; lia.
  - apply Forall_cons in Hb as [Hx Hb]. apply Forall_cons in Hb as [Hy Hb].
    apply Forall_cons in Hb as [Hz Hb].
    cbn [base64_sextets app].
    repeat (apply Forall_cons; split); [..|by apply IH];
      Z.div_mod_to_equations; lia.
Qed.

Lemma base64_encode_shape (bytes : list Z) :
  base64_encode bytes =
  (base64_char <$> base64_sextets bytes) ++ base64_padding bytes.
Proof.
  induction bytes as [|x|x y|x y z l IH] using list_ind3; try reflexivity.
  cbn [base64_encode base64_sextets base64_padding]. rewrite IH.
  by rewrite fmap_app, <- app_assoc.
Qed.

Lemma base64_shape_length (bytes : list Z) :
  Z.of_nat (length (base64_sextets bytes) + length (base64_padding bytes)) mod 4 = 0
  ∧ Z.of_nat (length (base64_sextets bytes)) mod 4 ≠ 1
  ∧ base64_padding bytes ∈ [[]; [61]; [61; 61]].
Proof.
  induction bytes as [|x|x y|x y z l (IH1 & IH2 & IH3)] using list_ind3;
    try (split; [done|split; [done|set_solver]]).
  cbn [base64_sextets base64_padding]. rewrite length_app. simpl length.
  split; [|split; [|done]].
  - replace (Z.of_nat (4 + length (base64_sextets l) + length (base64_padding l)))
      with (Z.of_nat (length (base64_sextets l) + length (base64_padding l)) + 1 * 4)
      by lia.
    by rewrite Z.mod_add.
  - replace (Z.of_nat (4 + length (base64_sextets l)))
      with (Z.of_nat (length (base64_sextets l)) + 1 * 4) by lia.
    by rewrite Z.mod_add.
Qed.

Lemma strip_padding_shape (body pad : jsstring) :
  Forall is_base64_char body →
  pad ∈ [[]; [61]; [61; 61]] →
  Z.of_nat (length (body ++ pad)) mod 4 = 0 →
  strip_padding (body ++ pad) = body.
Proof.
  intros Hbody Hpad Hlen. unfold strip_padding.
  rewrite decide_True by done. rewrite reverse_app.
  assert (Hrev : Forall is_base64_char (reverse body)).
  { by apply Forall_reverse. }
  apply elem_of_cons in Hpad as [->|Hpad];
    [|apply elem_of_cons in Hpad as [->|Hpad];
      [|apply list_elem_of_singleton in Hpad as ->]].
  - rewrite app_nil_r. simpl.
    destruct (reverse body) as [|c1 [|c2 r]] eqn:Hr; try done.
    apply Forall_cons in Hrev as [Hc1 _].
    apply base64_char_not_pad in Hc1.
    destruct (Z.eqb_spec c1 61); [done|]. done.
  - change (reverse [61]) with [61]. cbn [app].
    destruct (reverse body) as [|c2 r] eqn:Hr.
    + apply (f_equal reverse) in Hr. rewrite reverse_involutive in Hr.
      subst body. done.
    + apply Forall_cons in Hrev as [Hc2 _].
      apply base64_char_not_pad in Hc2.
      destruct (Z.eqb_spec c2 61); [done|]. simpl.
      by rewrite <- Hr, reverse_involutive.
  - change (reverse [61; 61]) with [61; 61]. cbn [app]. simpl.
    apply reverse_involutive.
Qed.

Lemma base64_octets_sextets (bytes : list Z) :
  Forall is_octet bytes → base64_octets (base64_sextets bytes) = bytes.
Proof.
  unfold is_octet.
  induction bytes as [|x|x y|x y z l IH] using list_ind3; intros Hb;
    repeat match goal with
           | H : Forall _ (_ :: _) |- _ => apply Forall_cons in H as [? H]
           end; cbn [base64_sextets base64_octets app]; try done.
  - f_equal. Z.div_mod_to_equations; lia.
  - f_equal; [|f_equal]; Z.div_mod_to_equations; lia.
  - rewrite IH by done.
    f_equal; [|f_equal; [|f_equal]]; Z.div_mod_to_equations; lia.
Qed.

Lemma mapM_base64_value_char (sextets : list Z) :
  Forall is_sextet sextets →
  mapM base64_value (base64_char <$> sextets) = Some sextets.
Proof.
  intros H. apply mapM_Some. apply Forall2_fmap_l.
  apply Forall_Forall2_diag. eapply Forall_impl; [exact H|].
  intros n Hn. by apply base64_value_char.
Qed.

Lemma filter_all {A} (P : A → Prop) `{∀ x, Decision (P x)} (l : list A) :
  Forall P l → filter P l = l.
Proof.
  induction 1 as [|x l Hx Hl IH]; [done|].
  rewrite filter_cons, decide_True by done. by rewrite IH.
Qed.

(** [atob] undoes [btoa]. *)
Lemma atob_btoa (s encoded : jsstring) :
  btoa s = Some encoded → atob encoded = Some s.
Proof.
  unfold btoa. destruct (forallb _ s) eqn:Hall; [|done]. intros [= <-].
  assert (Hoct : Forall is_octet s).
  { apply Forall_forall. intros c Hc.
    rewrite forallb_forall in Hall. apply list_elem_of_In, Hall in Hc.
    unfold is_octet, is_latin1 in *. lia. }
  pose proof (base64_sextets_range s Hoct) as Hsx.
  destruct (base64_shape_length s) as (Hlen & Hnot1 & Hpad).
  assert (Hbody : Forall is_base64_char (base64_char <$> base64_sextets s)).
  { apply Forall_fmap. eapply Forall_impl; [exact Hsx|].
    intros n Hn. simpl. unfold is_base64_char. rewrite base64_value_char; eauto. }
  assert (Hp61 : Forall (λ c, c = 61) (base64_padding s)).
  { pose proof Hpad as Hpad'.
    repeat (apply elem_of_cons in Hpad' as [->|Hpad']);
      [repeat constructor..|by apply elem_of_nil in Hpad']. }
  unfold atob. rewrite base64_encode_shape.
  rewrite filter_all.
  2:{ apply Forall_app. split.
      - eapply Forall_impl; [exact Hbody|].
        intros c Hc. apply base64_char_not_whitespace. by left.
      - eapply Forall_impl; [exact Hp61|].
        intros c Hc. apply base64_char_not_whitespace. by right. }
  rewrite strip_padding_shape; [|done|done|by rewrite length_app, length_fmap].
  rewrite length_fmap. rewrite decide_False by done.
  rewrite mapM_base64_value_char by done. simpl.
  by rewrite base64_octets_sextets.
Qed.

End Base64.

Section PercentEncoding.
Import JsString.

(** Decide the comparisons in the goal one at a time, dropping the
    cases arithmetic excludes. *)
Ltac compare :=
  repeat (match goal with
          | |- context [?a <? ?b] => destruct (Z.ltb_spec a b)
          | |- context [?a <=? ?b] => destruct (Z.leb_spec a b)
          | |- context [?a =? ?b] => destruct (Z.eqb_spec a b)
          end;
          try (exfalso; Z.div_mod_to_equations; lia);
          cbn [andb orb negb]).

Lemma hex_value_digit (n : Z) :
  0 <= n < 16 → hex_value (hex_digit n) = Some n.
Proof.
  intros Hn. unfold hex_value, hex_digit. compare; f_equal; lia.
Qed.

Lemma hex_digit_ascii (n : Z) :
  0 <= n < 16 → is_latin1 (hex_digit n) = true.
Proof. intros Hn. unfold is_latin1, hex_digit. compare; done. Qed.

Lemma unescape_percent (b : Z) (t : jsstring) :
  is_octet b → unescape (percent b ++ t) = (inr b ::.) <$> unescape t.
Proof.
  intros Hb. unfold is_octet in Hb. unfold percent. cbn [app unescape].
  change (37 =? 37) with true. cbv iota.
  rewrite !hex_value_digit by (Z.div_mod_to_equations; lia). simpl.
  replace (b / 16 * 16 + b mod 16) with b by (Z.div_mod_to_equations; lia).
  done.
Qed.

Lemma unescape_percents (bs : list Z) (t : jsstring) :
  Forall is_octet bs →
  unescape (mjoin (percent <$> bs) ++ t) = ((inr <$> bs) ++.) <$> unescape t.
Proof.
  induction 1 as [|b bs Hb Hbs IH].
  - simpl. by destruct (unescape t).
  - rewrite !fmap_cons.
    change (mjoin (percent b :: (percent <$> bs)))
      with (percent b ++ mjoin (percent <$> bs)).
    rewrite <- app_assoc, unescape_percent by done. rewrite IH.
    by destruct (unescape t).
Qed.

Lemma unescaped_ascii (c : Z) :
  unescaped c = true → c ≠ 37 ∧ 0 <= c < 128
                       ∧ is_lead_surrogate c = false ∧ is_trail_surrogate c = false.
Proof.
  unfold unescaped, is_alphanumeric, is_lead_surrogate, is_trail_surrogate.
  intros [H|H]%orb_true_iff.
  - revert H. compare; intros; try done; repeat split; lia.
  - apply bool_decide_eq_true in H.
    repeat (apply elem_of_cons in H as [->|H]; [by vm_compute|]).
    by apply elem_of_nil in H.
Qed.

Lemma percents_latin1 (bs : list Z) :
  Forall is_octet bs → forallb is_latin1 (mjoin (percent <$> bs)) = true.
Proof.
  induction 1 as [|b bs Hb Hbs IH]; [done|].
  unfold is_octet in Hb. simpl.
  rewrite !hex_digit_ascii by (Z.div_mod_to_equations; lia). done.
Qed.

Lemma utf8_encode_octets (cp : Z) :
  0 <= cp <= 0x10FFFF → Forall is_octet (utf8_encode cp).
Proof.
  intros Hcp. unfold utf8_encode, is_octet.
  compare; repeat (apply Forall_cons; split); try apply Forall_nil;
    Z.div_mod_to_equations; lia.
Qed.

Lemma utf8_assemble_encode (cp : Z) (items : list (Z + Z)) :
  is_scalar cp →
  utf8_assemble ((inr <$> utf8_encode cp) ++ items) =
  (utf16_encode cp ++.) <$> utf8_assemble items.
Proof.
  intros [Hcp Hsur]. unfold utf8_encode.
  destruct (Z.ltb_spec cp 0x80); [|destruct (Z.ltb_spec cp 0x800);
                                    [|destruct (Z.ltb_spec cp 0x10000)]];
    cbn [fmap list_fmap app utf8_assemble]; unfold continuation; compare.
  all: try match goal with
           | |- app (utf16_encode ?E) <$> _ = _ =>
               replace E with cp by (Z.div_mod_to_equations; lia)
           end; try done.
  unfold utf16_encode. compare. done.
Qed.

End PercentEncoding.

Section UriRoundTrip.
Import JsString.

Lemma utf16_encode_pair (c d : Z) :
  is_lead_surrogate c = true → is_trail_surrogate d = true →
  utf16_encode ((c - 0xD800) * 0x400 + (d - 0xDC00) + 0x10000) = [c; d]
  ∧ is_scalar ((c - 0xD800) * 0x400 + (d - 0xDC00) + 0x10000).
Proof.
  unfold is_lead_surrogate, is_trail_surrogate, utf16_encode, is_scalar.
  intros Hc Hd.
  destruct (Z.ltb_spec ((c - 55296) * 1024 + (d - 56320) + 65536) 65536); [lia|].
  split; [|lia]. f_equal; [|f_equal]; Z.div_mod_to_equations; lia.
Qed.

Lemma utf16_encode_bmp (c : Z) :
  0 <= c < 65536 → utf16_encode c = [c].
Proof.
  intros Hc. unfold utf16_encode.
  destruct (Z.ltb_spec c 65536); [done|lia].
Qed.

Lemma percent_encode_round_trip (cp : Z) (e : jsstring) (items : list (Z + Z))
    (s : jsstring) :
  is_scalar cp →
  forallb is_latin1 e = true → unescape e = Some items →
  utf8_assemble items = Some s →
  forallb is_latin1 (percent_encode cp ++ e) = true
  ∧ unescape (percent_encode cp ++ e) = Some ((inr <$> utf8_encode cp) ++ items)
  ∧ utf8_assemble ((inr <$> utf8_encode cp) ++ items) = Some (utf16_encode cp ++ s).
Proof.
  intros Hcp He Hitems Hs.
  pose proof (utf8_encode_octets cp (proj1 Hcp)) as Hoct.
  unfold percent_encode. split; [|split].
  - rewrite forallb_app, He, percents_latin1 by done. done.
  - rewrite unescape_percents, Hitems by done. done.
  - rewrite utf8_assemble_encode, Hs by done. done.
Qed.

(** What [encodeURIComponent] produces for a well-formed string is
    Latin-1 text that [decodeURIComponent] reads back. *)
Lemma encodeURIComponent_round_trip (s : jsstring) :
  well_formed s = true →
  ∃ e, encodeURIComponent s = Some e
       ∧ forallb is_latin1 e = true
       ∧ decodeURIComponent e = Some s.
Proof.
  assert (H : ∀ n s, (length s ≤ n)%nat → well_formed s = true →
              ∃ e items, encodeURIComponent s = Some e
                         ∧ forallb is_latin1 e = true
                         ∧ unescape e = Some items
                         ∧ utf8_assemble items = Some s).
  { clear s. induction n as [|n IH]; intros s Hlen Hwf.
    { destruct s; [|simpl in Hlen; lia]. by exists [], []. }
    destruct s as [|c rest]; [by exists [], []|].
    cbn [encodeURIComponent well_formed] in *.
    destruct (unescaped c) eqn:Hu.
    - (* left as it is *)
      apply unescaped_ascii in Hu as (Hne & Hrange & Hl & Ht).
      rewrite Hl, Ht in Hwf.
      apply andb_true_iff in Hwf as [_ Hwf].
      destruct (IH rest ltac:(simpl in Hlen; lia) Hwf)
        as (e & items & He & Hlat & Hun & Has).
      exists (c :: e), (inl c :: items). rewrite He.
      split; [done|split; [|split]].
      + cbn [forallb]. rewrite Hlat. unfold is_latin1.
        destruct (Z.leb_spec 0 c), (Z.leb_spec c 255); first [lia|done].
      + cbn [unescape]. destruct (Z.eqb_spec c 37); [done|]. by rewrite Hun.
      + cbn [utf8_assemble]. by rewrite Has.
    - destruct (is_lead_surrogate c) eqn:Hl.
      + (* a surrogate pair *)
        destruct rest as [|d rest]; [done|].
        apply andb_true_iff in Hwf as [Hd Hwf]. rewrite Hd.
        destruct (IH rest ltac:(simpl in Hlen; lia) Hwf)
          as (e & items & He & Hlat & Hun & Has).
        destruct (utf16_encode_pair c d Hl Hd) as [H16 Hsc].
        destruct (percent_encode_round_trip _ e items rest Hsc Hlat Hun Has)
          as (H1 & H2 & H3).
        rewrite H16 in H3.
        eexists _, _. rewrite He. cbn [fmap option_fmap option_map]. eauto.
      + (* a code unit of its own *)
        destruct (is_trail_surrogate c) eqn:Ht; [done|].
        apply andb_true_iff in Hwf as [Hc Hwf].
        assert (0 <= c < 65536) as Hrange by lia.
        assert (is_scalar c) as Hsc.
        { unfold is_scalar, is_lead_surrogate, is_trail_surrogate in *. lia. }
        destruct (IH rest ltac:(simpl in Hlen; lia) Hwf)
          as (e & items & He & Hlat & Hun & Has).
        destruct (percent_encode_round_trip _ e items rest Hsc Hlat Hun Has)
          as (H1 & H2 & H3).
        rewrite utf16_encode_bmp in H3 by done.
        eexists _, _. rewrite He. cbn [fmap option_fmap option_map]. eauto. }
  intros Hwf.
  destruct (H (length s) s ltac:(done) Hwf) as (e & items & He & Hlat & Hun & Has).
  exists e. unfold decodeURIComponent. rewrite Hun. simpl. eauto.
Qed.

(** Text below the surrogate range is well formed. *)
Lemma well_formed_plain (s : jsstring) :
  Forall (λ c, 0 <= c < 0xD800) s → well_formed s = true.
Proof.
  induction 1 as [|c s Hc Hs IH]; [done|].
  cbn [well_formed]. unfold is_lead_surrogate, is_trail_surrogate.
  destruct (Z.leb_spec 0xD800 c); [lia|].
  destruct (Z.leb_spec 0xDC00 c); [lia|]. cbn [andb].
  rewrite IH.
  destruct (Z.leb_spec 0 c), (Z.ltb_spec c 65536); first [lia|done].
Qed.

Lemma well_formed_app (s t : jsstring) :
  well_formed s = true → well_formed t = true → well_formed (s ++ t) = true.
Proof.
  intros Hs Ht.
  assert (H : ∀ n s, (length s ≤ n)%nat → well_formed s = true →
                     well_formed (s ++ t) = true).
  { clear s Hs. induction n as [|n IH]; intros s Hlen Hs.
    { destruct s; [done|simpl in Hlen; lia]. }
    destruct s as [|c rest]; [done|].
    cbn [app well_formed] in *.
    destruct (is_lead_surrogate c).
    - destruct rest as [|d rest]; [done|]. cbn [app].
      apply andb_true_iff in Hs as [Hd Hs]. rewrite Hd. cbn [andb].
      apply IH; [simpl in Hlen; lia|done].
    - destruct (is_trail_surrogate c); [done|].
      apply andb_true_iff in Hs as [Hc Hs]. rewrite Hc. cbn [andb].
      apply IH; [simpl in Hlen; lia|done]. }
  by apply (H (length s)).
Qed.

Lemma before_first_app (separator : Z) (s t : jsstring) :
  before_first separator (s ++ separator :: t) = before_first separator s.
Proof.
  induction s as [|c s IH]; simpl.
  - by rewrite Z.eqb_refl.
  - destruct (c =? separator); [done|]. by rewrite IH.
Qed.

Lemma before_first_absent (separator : Z) (s : jsstring) :
  separator ∉ s → before_first separator s = s.
Proof.
  induction s as [|c s IH]; [done|]. intros Hnin. simpl.
  destruct (Z.eqb_spec c separator) as [->|Hne].
  - exfalso. apply Hnin. by left.
  - rewrite IH; [done|]. intros Hin. apply Hnin. by right.
Qed.

End UriRoundTrip.

Section Numbers.
Import JsString.

(** The number a string of decimal digit characters denotes. *)
Let char_value (s : jsstring) : Z := digits_value 10 ((λ c, c - 48) <$> s).

Lemma digits_value_app (radix : Z) (u v : list Z) :
  digits_value radix (u ++ v) =
  digits_value radix u * radix ^ Z.of_nat (length v) + digits_value radix v.
Proof.
  unfold digits_value. revert u.
  induction v as [|d v IH] using rev_ind; intros u.
  - rewrite app_nil_r. simpl. lia.
  - rewrite app_assoc, (foldl_app _ (u ++ v)), (foldl_app _ v). cbn [foldl].
    rewrite IH.
    rewrite length_app. cbn [length].
    replace (Z.of_nat (length v + 1)) with (Z.succ (Z.of_nat (length v))) by lia.
    rewrite Z.pow_succ_r by lia. lia.
Qed.

Lemma digits_go_spec (fuel : nat) : ∀ (n : Z) (acc : jsstring),
  0 <= n < 2 ^ Z.of_nat fuel →
  Forall (λ c, 48 <= c <= 57) acc →
  Forall (λ c, 48 <= c <= 57) (digits_go fuel n acc)
  ∧ char_value (digits_go fuel n acc) =
    n * 10 ^ Z.of_nat (length acc) + char_value acc.
Proof.
  unfold char_value.
  induction fuel as [|fuel IH]; intros n acc Hn Hacc.
  - simpl in *. split; [done|]. assert (n = 0) as -> by lia. lia.
  - cbn [digits_go]. destruct (Z.ltb_spec n 10) as [Hsmall|Hbig].
    + split; [apply Forall_cons; split; [lia|done]|].
      change ((48 + n) :: acc) with ([48 + n] ++ acc).
      rewrite fmap_app, digits_value_app, length_fmap.
      change (digits_value 10 ((λ c, c - 48) <$> [48 + n]))
        with (10 * 0 + (48 + n - 48)). lia.
    + assert (0 <= n / 10 < 2 ^ Z.of_nat fuel) as Hdiv.
      { replace (Z.of_nat (S fuel)) with (Z.succ (Z.of_nat fuel)) in Hn by lia.
        rewrite Z.pow_succ_r in Hn by lia.
        Z.div_mod_to_equations. lia. }
      assert (Forall (λ c, 48 <= c <= 57) ((48 + n mod 10) :: acc)) as Hacc'.
      { apply Forall_cons. split; [Z.div_mod_to_equations; lia|done]. }
      destruct (IH (n / 10) _ Hdiv Hacc') as [Hall Hval].
      split; [done|]. rewrite Hval.
      change ((48 + n mod 10) :: acc) with ([48 + n mod 10] ++ acc).
      rewrite fmap_app, digits_value_app, !length_app, length_fmap.
      change (digits_value 10 ((λ c, c - 48) <$> [48 + n mod 10]))
        with (10 * 0 + (48 + n mod 10 - 48)).
      cbn [length].
      replace (Z.of_nat (1 + length acc)) with (Z.succ (Z.of_nat (length acc))) by lia.
      rewrite Z.pow_succ_r by lia.
      generalize (digits_value 10 ((λ c, c - 48) <$> acc)).
      generalize (10 ^ Z.of_nat (length acc)). intros P V.
      Z.div_mod_to_equations. nia.
Qed.

Lemma digits_go_nonempty (fuel : nat) (n : Z) :
  digits_go (S fuel) n [] ≠ [].
Proof.
  cbn [digits_go]. destruct (n <? 10); [done|].
  generalize (n / 10). generalize (48 + n mod 10).
  induction fuel as [|fuel IH]; intros d m; [done|].
  cbn [digits_go]. destruct (m <? 10); [done|].
  assert (∀ f k acc, acc ≠ [] → digits_go f k acc ≠ []) as Hgo.
  { clear. induction f as [|f IH]; intros k acc Hacc; [done|].
    cbn [digits_go]. destruct (k <? 10); [done|]. by apply IH. }
  by apply Hgo.
Qed.

Lemma leading_digits_decimal (s : jsstring) :
  Forall (λ c, 48 <= c <= 57) s →
  leading_digits 10 s = (λ c, c - 48) <$> s.
Proof.
  induction 1 as [|c s Hc Hs IH]; [done|].
  cbn [leading_digits]. unfold hex_value.
  destruct (Z.leb_spec 48 c), (Z.leb_spec c 57); try lia. cbn [andb].
  destruct (Z.ltb_spec (c - 48) 10); [|lia]. by rewrite IH.
Qed.

(** The digits of a non-negative number: digit characters, at least
    one, denoting that number. *)
Lemma natural_digits (n : Z) :
  0 <= n →
  Forall (λ c, 48 <= c <= 57) (digits_go (S (Z.to_nat (Z.log2 n))) n [])
  ∧ digits_go (S (Z.to_nat (Z.log2 n))) n [] ≠ []
  ∧ char_value (digits_go (S (Z.to_nat (Z.log2 n))) n []) = n.
Proof.
  intros Hn.
  assert (0 <= n < 2 ^ Z.of_nat (S (Z.to_nat (Z.log2 n)))) as Hfuel.
  { split; [done|].
    pose proof (Z.log2_nonneg n).
    replace (Z.of_nat (S (Z.to_nat (Z.log2 n)))) with (Z.succ (Z.log2 n)) by lia.
    destruct (decide (n = 0)) as [->|]; [done|].
    apply Z.log2_spec. lia. }
  destruct (digits_go_spec _ n [] Hfuel (Forall_nil_2 _)) as [Hall Hval].
  split; [done|]. split; [apply digits_go_nonempty|].
  rewrite Hval. change (char_value []) with 0. cbn [length].
  change (Z.of_nat 0) with 0. rewrite Z.pow_0_r. lia.
Qed.

Lemma parseInt_digits (sign : Z) (prefix ds : jsstring) :
  Forall (λ c, 48 <= c <= 57) ds → ds ≠ [] →
  skip_whitespace (prefix ++ ds) = prefix ++ ds →
  (prefix = [] ∧ sign = 1) ∨ (prefix = [45] ∧ sign = -1) →
  parseInt (prefix ++ ds) = Some (sign * char_value ds).
Proof.
  intros Hds Hne Hskip Hsign. unfold parseInt. rewrite Hskip.
  assert (Hbase :
    match ds with
    | c0 :: c1 :: rest =>
        if (c0 =? 48) && ((c1 =? 120) || (c1 =? 88)) then (16, rest)
        else (10, ds)
    | _ => (10, ds)
    end = (10, ds)).
  { destruct ds as [|c [|d rest]]; try done.
    apply Forall_cons in Hds as [Hc Hds]. apply Forall_cons in Hds as [Hd _].
    destruct (Z.eqb_spec d 120); [lia|]. destruct (Z.eqb_spec d 88); [lia|].
    by rewrite andb_false_r. }
  assert (Hfinish :
    match leading_digits 10 ds with
    | [] => None
    | d :: ds' => Some (sign * digits_value 10 (d :: ds'))
    end = Some (sign * char_value ds)).
  { rewrite leading_digits_decimal by done.
    destruct ds as [|c' rest']; [done|]. done. }
  destruct Hsign as [[-> ->]|[-> ->]]; cbn [app].
  - destruct ds as [|c rest] eqn:Hd; [done|].
    assert (48 <= c <= 57) as Hc by (by apply Forall_cons in Hds as [? _]).
    destruct (Z.eqb_spec c 45); [lia|]. destruct (Z.eqb_spec c 43); [lia|].
    cbn [fst snd]. rewrite Hbase. cbn [fst snd]. exact Hfinish.
  - change (45 =? 45) with true. cbv iota. cbn [fst snd].
    rewrite Hbase. cbn [fst snd]. exact Hfinish.
Qed.

Lemma digit_not_whitespace (c : Z) (rest : jsstring) :
  45 <= c <= 57 → skip_whitespace (c :: rest) = c :: rest.
Proof.
  intros Hc. cbn [skip_whitespace].
  assert (is_str_whitespace c = false) as ->; [|done].
  unfold is_str_whitespace. apply orb_false_iff. split.
  - apply bool_decide_eq_false. intros Hin.
    repeat (apply elem_of_cons in Hin as [->|Hin]; [lia|]).
    by apply elem_of_nil in Hin.
  - destruct (Z.leb_spec 0x2000 c); [lia|done].
Qed.

(** [parseInt] reads back the rendering of an integer. *)
Lemma parseInt_number_to_string (n : Z) :
  parseInt (number_to_string n) = Some n.
Proof.
  unfold number_to_string. destruct (Z.ltb_spec n 0) as [Hneg|Hpos].
  - destruct (natural_digits (- n) ltac:(lia)) as (Hall & Hne & Hval).
    change (45 :: ?ds) with ([45] ++ ds).
    rewrite (parseInt_digits (-1)); [rewrite Hval; f_equal; lia|done|done| |by right].
    by apply digit_not_whitespace.
  - destruct (natural_digits n Hpos) as (Hall & Hne & Hval).
    change (digits_go ?f n []) with ([] ++ digits_go f n []).
    rewrite (parseInt_digits 1); [rewrite Hval; f_equal; lia|done|done| |by left].
    cbn [app]. destruct (digits_go _ n []) as [|c rest]; [done|].
    apply Forall_cons in Hall as [Hc _]. apply digit_not_whitespace. lia.
Qed.

Lemma number_to_string_plain (n : Z) :
  Forall (λ c, 0 <= c < 0xD800) (number_to_string n)
  ∧ (124 ∉ number_to_string n)
  ∧ number_to_string n ≠ [].
Proof.
  assert (Hd : ∀ ds : jsstring, Forall (λ c, 48 <= c <= 57) ds →
               Forall (λ c, 0 <= c < 0xD800) ds ∧ 124 ∉ ds).
  { intros ds Hds. split.
    - eapply Forall_impl; [exact Hds|]. simpl. lia.
    - intros Hin. rewrite Forall_forall in Hds. apply Hds in Hin. lia. }
  unfold number_to_string. destruct (Z.ltb_spec n 0) as [Hneg|Hpos].
  - destruct (natural_digits (- n) ltac:(lia)) as (Hall & Hne & _).
    destruct (Hd _ Hall) as [H1 H2]. split; [|split; [|done]].
    + apply Forall_cons. split; [lia|done].
    + intros [?|?]%elem_of_cons; [lia|done].
  - destruct (natural_digits n Hpos) as (Hall & Hne & _).
    destruct (Hd _ Hall) as [H1 H2]. done.
Qed.

End Numbers.
(** ** The credential transform *)

Section Crypto.
Import JsString TokenCrypto.

Lemma before_first_split (separator : Z) (s : jsstring) :
  separator ∈ s →
  ∃ rest, s = before_first separator s ++ separator :: rest
          ∧ (separator ∉ before_first separator s).
Proof.
  induction s as [|c s IH]; intros Hin; [by apply elem_of_nil in Hin|].
  simpl. destruct (Z.eqb_spec c separator) as [->|Hne].
  - exists s. split; [done|]. apply not_elem_of_nil.
  - apply elem_of_cons in Hin as [->|Hin]; [done|].
    destruct (IH Hin) as (rest & Hs & Hnin).
    exists rest. split; [cbn [app]; by f_equal|].
    intros [?|?]%elem_of_cons; [congruence|done].
Qed.

(** On a well-formed text nothing in [encrypt] throws, and [decrypt]
    recovers the text, the separator and the time stamp. *)
Lemma decrypt_encrypt_payload (text : jsstring) (now : Z) :
  well_formed text = true →
  atob (encrypt text now) ≫= decodeURIComponent =
  Some (text ++ [124] ++ number_to_string now).
Proof.
  intros Hwf.
  destruct (number_to_string_plain now) as (Hplain & _ & _).
  assert (well_formed (text ++ [124] ++ number_to_string now) = true) as Hall.
  { apply well_formed_app; [done|]. apply well_formed_plain.
    apply Forall_cons. split; [lia|done]. }
  destruct (encodeURIComponent_round_trip _ Hall) as (e & He & Hlat & Hdec).
  unfold encrypt. rewrite He. cbn [mbind option_bind].
  unfold btoa at 1. rewrite Hlat.
  rewrite (atob_btoa e (base64_encode e)); [done|].
  unfold btoa. by rewrite Hlat.
Qed.

Lemma decrypt_encrypt (text : jsstring) (now : Z) :
  well_formed text = true →
  decrypt (encrypt text now) = Some (before_first 124 text).
Proof.
  intros Hwf. unfold decrypt. rewrite decrypt_encrypt_payload by done.
  cbn [mbind option_bind app]. by rewrite before_first_app.
Qed.

(** C10, as the code has it. For every well-formed string (code units
    in range, no unpaired surrogate) and every clock reading,
    decrypting the encryption gives the part of the string before its
    first ['|']: the string itself when it contains no ['|'], and a
    proper prefix, so not the string, when it does. *)
Theorem decrypt_encrypt_round_trip (text : jsstring) (now : Z) :
  well_formed text = true →
  decrypt (encrypt text now) = Some (before_first 124 text)
  ∧ (124 ∉ text → decrypt (encrypt text now) = Some text)
  ∧ (124 ∈ text →
     ∃ rest, text = before_first 124 text ++ 124 :: rest
             ∧ (124 ∉ before_first 124 text)
             ∧ decrypt (encrypt text now) ≠ Some text).
Proof.
  intros Hwf. pose proof (decrypt_encrypt text now Hwf) as Hdec.
  split; [done|]. split.
  - intros Hnin. by rewrite Hdec, before_first_absent.
  - intros Hin. destruct (before_first_split 124 text Hin) as (rest & Hs & Hnin).
    exists rest. split; [done|]. split; [done|].
    rewrite Hdec. intros [= Heq]. apply Hnin. by rewrite Heq.
Qed.

Lemma decrypt_encrypt_round_trip_witness :
  well_formed (of_string "refresh-token.abc") = true
  ∧ decrypt (encrypt (of_string "refresh-token.abc") 1700000000000)
    = Some (of_string "refresh-token.abc").
Proof.
  assert (H : well_formed (of_string "refresh-token.abc") = true) by reflexivity.
  split; [exact H|].
  destruct (decrypt_encrypt_round_trip _ 1700000000000 H) as (_ & Hr & _).
  apply Hr. vm_compute. intros Hin.
  repeat (apply elem_of_cons in Hin as [Hin|Hin]; [discriminate|]).
  by apply elem_of_nil in Hin.
Defined.

(** C10 as stated fails on a string that is not well formed: for the
    lone surrogate U+D800, which contains no ['|'],
    [encodeURIComponent] throws, [encrypt] hands the text back as it
    is, and [atob] rejects it, so [decrypt] answers [null]. *)
Lemma decrypt_encrypt_lone_surrogate :
  (124 ∉ [0xD800])
  ∧ encrypt [0xD800] 1700000000000 = [0xD800]
  ∧ decrypt (encrypt [0xD800] 1700000000000) = None.
Proof.
  split; [|split; reflexivity].
  intros Hin. apply list_elem_of_singleton in Hin. discriminate.
Qed.

End Crypto.
(** ** The credential store: expiry bookkeeping *)

Section Expiry.
Import JsString TokenManager.

Implicit Types (env : Env) (st : State).

(** Where the Storage object can be used, an item written is the item
    read back, provided it is a non-empty, well-formed text without
    ['|'] (in production it goes through [TokenCrypto]). *)
Lemma getSecureItem_setSecureItem env key (value : jsstring) now st :
  hasWindow env = true → storageWorks env = true →
  value ≠ [] → well_formed value = true → 124 ∉ value →
  getSecureItem env key (setSecureItem env key value now st) = Some value.
Proof.
  intros Hw Hs Hne Hwf Hbar.
  unfold getSecureItem, setSecureItem. rewrite Hw, Hs. cbn [negb storage with_storage].
  rewrite lookup_insert_eq.
  destruct (production env).
  - pose proof (decrypt_encrypt value now Hwf) as Hrt.
    rewrite before_first_absent in Hrt by done.
    destruct (TokenCrypto.encrypt value now) as [|c r] eqn:Henc; [|done].
    vm_compute in Hrt. congruence.
  - destruct value; done.
Qed.

Lemma setTokens_records_expiry env access refresh now st :
  hasWindow env = true → storageWorks env = true →
  getSecureItem env "tokenExpiry" (setTokens env access refresh now st)
  = Some (number_to_string (now + LIFETIME)).
Proof.
  intros Hw Hs. unfold setTokens. cbv zeta.
  destruct (number_to_string_plain (now + LIFETIME)) as (Hplain & Hbar & Hne).
  apply getSecureItem_setSecureItem; try done.
  by apply well_formed_plain.
Qed.

Lemma at_or_after_number (t e : Z) :
  at_or_after t (number_to_string e) = (e <=? t).
Proof. unfold at_or_after. by rewrite parseInt_number_to_string. Qed.

Lemma isTokenExpired_spec env t st :
  isTokenExpired env t st = true ↔
  no_expiry_recorded env st ∨ ∃ e, recorded_expiry env st = Some e ∧ t >= e.
Proof.
  unfold isTokenExpired, no_expiry_recorded, recorded_expiry, at_or_after.
  destruct (getSecureItem env "tokenExpiry" st) as [[|c r]|]; [tauto| |tauto].
  destruct (parseInt (c :: r)) as [e|].
  - rewrite Z.leb_le. split.
    + intros He. right. exists e. split; [done|lia].
    + intros [[?|?]|(e' & [= <-] & He)]; [done|done|lia].
  - split; [done|]. intros [[?|?]|(e' & ? & _)]; done.
Qed.

Lemma isTokenExpiringSoon_spec env t st :
  isTokenExpiringSoon env t st = true ↔
  no_expiry_recorded env st
  ∨ ∃ e, recorded_expiry env st = Some e ∧ t + EXPIRING_SOON_WINDOW >= e.
Proof.
  unfold isTokenExpiringSoon, no_expiry_recorded, recorded_expiry, at_or_after.
  destruct (getSecureItem env "tokenExpiry" st) as [[|c r]|]; [tauto| |tauto].
  cbv zeta. destruct (parseInt (c :: r)) as [e|].
  - rewrite Z.leb_le. split.
    + intros He. right. exists e. split; [done|lia].
    + intros [[?|?]|(e' & [= <-] & He)]; [done|done|lia].
  - split; [done|]. intros [[?|?]|(e' & ? & _)]; done.
Qed.

(** C8. After [setTokens] at clock reading [t0], where the Storage
    object can be used, the expiry on record is [t0] plus the fixed
    lifetime (55 minutes); at clock reading [t], [isTokenExpired]
    answers true exactly when [t >= expiry] and [isTokenExpiringSoon]
    exactly when [t + window >= expiry], the window being 5 minutes.
    In any state, [isTokenExpired] answers true exactly when no expiry
    is on record or [t] has reached the one on record, and
    [isTokenExpiringSoon] likewise with [t + window]. *)
Theorem expiry_checks env access refresh t0 t st :
  time_value t0 → time_value t →
  (hasWindow env = true → storageWorks env = true →
     recorded_expiry env (setTokens env access refresh t0 st) = Some (t0 + LIFETIME)
     ∧ (isTokenExpired env t (setTokens env access refresh t0 st) = true
        ↔ t >= t0 + LIFETIME)
     ∧ (isTokenExpiringSoon env t (setTokens env access refresh t0 st) = true
        ↔ t + EXPIRING_SOON_WINDOW >= t0 + LIFETIME))
  ∧ (isTokenExpired env t st = true ↔
     no_expiry_recorded env st ∨ ∃ e, recorded_expiry env st = Some e ∧ t >= e)
  ∧ (isTokenExpiringSoon env t st = true ↔
     no_expiry_recorded env st
     ∨ ∃ e, recorded_expiry env st = Some e ∧ t + EXPIRING_SOON_WINDOW >= e)
  ∧ LIFETIME = 3300000 ∧ EXPIRING_SOON_WINDOW = 300000.
Proof.
  intros _ _.
  split; [|split; [apply isTokenExpired_spec|split; [apply isTokenExpiringSoon_spec|done]]].
  intros Hw Hs.
  pose proof (setTokens_records_expiry env access refresh t0 st Hw Hs) as Hrec.
  destruct (number_to_string_plain (t0 + LIFETIME)) as (_ & _ & Hne).
  unfold recorded_expiry, isTokenExpired, isTokenExpiringSoon. rewrite Hrec.
  destruct (number_to_string (t0 + LIFETIME)) as [|c r] eqn:Hs'; [done|].
  rewrite <- Hs'. cbv zeta. rewrite !at_or_after_number, parseInt_number_to_string.
  rewrite !Z.leb_le. split; [done|]. split; lia.
Qed.

Lemma expiry_checks_witness :
  time_value 1700000000000 ∧ time_value 1700003000000
  ∧ isTokenExpired {| hasWindow := true; production := true; storageWorks := true |}
      1700003000000
      (setTokens {| hasWindow := true; production := true; storageWorks := true |}
         (of_string "access") (Some (of_string "refresh")) 1700000000000
         {| accessToken := None; refreshToken := None; isRefreshing := false;
            refreshPromise := None; storage := ∅ |}) = false
  ∧ isTokenExpiringSoon {| hasWindow := true; production := true; storageWorks := true |}
      1700003000000
      (setTokens {| hasWindow := true; production := true; storageWorks := true |}
         (of_string "access") (Some (of_string "refresh")) 1700000000000
         {| accessToken := None; refreshToken := None; isRefreshing := false;
            refreshPromise := None; storage := ∅ |}) = true.
Proof.
  assert (H0 : time_value 1700000000000) by (unfold time_value; lia).
  assert (H1 : time_value 1700003000000) by (unfold time_value; lia).
  split; [exact H0|]. split; [exact H1|].
  destruct (expiry_checks
              {| hasWindow := true; production := true; storageWorks := true |}
              (of_string "access") (Some (of_string "refresh"))
              1700000000000 1700003000000
              {| accessToken := None; refreshToken := None; isRefreshing := false;
                 refreshPromise := None; storage := ∅ |} H0 H1) as (Hset & _).
  destruct (Hset eq_refl eq_refl) as (_ & Hexp & Hsoon).
  split.
  - apply not_true_is_false. intros He. apply Hexp in He.
    unfold LIFETIME in He. lia.
  - apply Hsoon. unfold EXPIRING_SOON_WINDOW, LIFETIME. lia.
Defined.

End Expiry.
(** ** The credential store: single-flight renewal *)

Section ManagerSlot.
Import JsString TokenManager.

Implicit Types (env : Env) (st : State).

(** The single-flight slot of a manager. *)
Let slot st : bool * option nat := (isRefreshing st, refreshPromise st).

Lemma slot_setSecureItem env key value now st :
  slot (setSecureItem env key value now st) = slot st.
Proof.
  unfold setSecureItem. destruct (hasWindow env), (storageWorks env); done.
Qed.

Lemma slot_removeSecureItem env key st :
  slot (removeSecureItem env key st) = slot st.
Proof.
  unfold removeSecureItem. destruct (hasWindow env), (storageWorks env); done.
Qed.

Lemma slot_setTokens env access refresh now st :
  isRefreshing (setTokens env access refresh now st) = isRefreshing st
  ∧ refreshPromise (setTokens env access refresh now st) = refreshPromise st.
Proof.
  assert (slot (setTokens env access refresh now st) = slot st) as H.
  { unfold setTokens. cbv zeta. rewrite slot_setSecureItem.
    destruct refresh as [[|c r]|]; rewrite ?slot_setSecureItem; done. }
  by injection H.
Qed.

Lemma slot_clearTokens env st :
  isRefreshing (clearTokens env st) = isRefreshing st
  ∧ refreshPromise (clearTokens env st) = refreshPromise st.
Proof.
  assert (slot (clearTokens env st) = slot st) as H.
  { unfold clearTokens. by rewrite !slot_removeSecureItem. }
  by injection H.
Qed.

Lemma slot_getAccessToken env st :
  isRefreshing (getAccessToken env st).1 = isRefreshing st
  ∧ refreshPromise (getAccessToken env st).1 = refreshPromise st.
Proof. unfold getAccessToken. by destruct (truthy (accessToken st)). Qed.

Lemma slot_getRefreshToken env st :
  isRefreshing (getRefreshToken env st).1 = isRefreshing st
  ∧ refreshPromise (getRefreshToken env st).1 = refreshPromise st.
Proof. unfold getRefreshToken. by destruct (truthy (refreshToken st)). Qed.

End ManagerSlot.

Section Renewal.
Import JsString TokenManager.

Implicit Types (env : Env) (st : State) (w : World).

Lemma fresh_invariant w : fresh w → invariant w.
Proof.
  destruct w as [tm ts rs cs]. intros (Hflag & Hslot & Ht & Hr & Hc).
  simpl in *. subst ts rs cs.
  split; unfold in_flight; simpl; rewrite ?Hflag, ?Hslot.
  - split; [done|]. by intros [? ?].
  - intros p. split; [done|]. by intros [c H].
  - by intros p (t & H & _).
  - done.
  - by intros c call p H.
  - by intros c call o H.
  - by intros c call H.
  - by intros c c' p p' H.
  - by intros p e H.
Qed.

(** An event that touches the manager's tokens and storage only. *)
Lemma invariant_manager w tm :
  isRefreshing tm = isRefreshing (manager w) →
  refreshPromise tm = refreshPromise (manager w) →
  invariant w → invariant (with_manager w tm).
Proof.
  intros Hf Hp [I1 I2 I3 I4 I5 I6 I7 I8 I9].
  split; unfold with_manager, in_flight in *; cbn [manager tickets requests calls];
    rewrite ?Hf, ?Hp; done.
Qed.

Lemma lookup_snoc_Some {A} (l : list A) (x y : A) (i : nat) :
  (l ++ [x]) !! i = Some y →
  l !! i = Some y ∨ (i = length l ∧ y = x).
Proof.
  intros H. destruct (decide (i < length l)%nat).
  - left. by rewrite lookup_app_l in H.
  - right. rewrite lookup_app_r in H by lia.
    apply list_lookup_singleton_Some in H as [? <-]. split; [lia|done].
Qed.

Lemma slot_empty w :
  invariant w →
  (isRefreshing (manager w) = true ∧ ∃ p, refreshPromise (manager w) = Some p)
  ∨ refreshPromise (manager w) = None.
Proof.
  intros I. destruct (refreshPromise (manager w)) as [p|] eqn:Hp; [|by right].
  left. split; [|eauto]. apply (inv_flag w I). rewrite Hp. eauto.
Qed.

Lemma invariant_refreshAccessToken env w :
  invariant w → invariant (refreshAccessToken env w).
Proof.
  intros I. pose proof I as [I1 I2 I3 I4 I5 I6 I7 I8 I9].
  unfold refreshAccessToken. cbv zeta.
  destruct (slot_empty w I) as [[Hflag [p Hp]]|Hnone].
  - (* a ticket is in the slot: the caller is handed it *)
    rewrite Hflag, Hp.
    split; cbn [manager tickets requests calls]; try done.
    + intros q. rewrite I2. split.
      * intros [c Hc]. exists c. by rewrite lookup_app_l by by eapply lookup_lt_Some.
      * intros [c Hc]. apply lookup_snoc_Some in Hc as [Hc|[_ [=]]]. eauto.
    + intros c call q Hc Hq. apply lookup_snoc_Some in Hc as [Hc|[_ ->]];
        [by eapply I5|].
      injection Hq as <-. apply I2 in Hp as [c' Hc']. by eapply I5.
    + intros c call o Hc Ho. apply lookup_snoc_Some in Hc as [Hc|[_ ->]];
        [by apply (I6 c)|done].
    + intros c call Hc Hn. apply lookup_snoc_Some in Hc as [Hc|[_ ->]];
        [by apply (I7 c)|done].
    + intros c c' q q' Hc Hc'.
      apply lookup_snoc_Some in Hc as [Hc|[_ [=]]].
      apply lookup_snoc_Some in Hc' as [Hc'|[_ [=]]]. by eapply I8.
  - (* the slot is empty *)
    assert (Hflag : isRefreshing (manager w) ≠ true).
    { intros H. apply I1 in H as [? H]. congruence. }
    assert (Hno_creator : ∀ c q, calls w !! c ≠
              Some {| ticket := Some q; creator := true; outcome := None |}).
    { intros c q Hc. assert (refreshPromise (manager w) = Some q) by (apply I2; eauto).
      congruence. }
    destruct (slot_getRefreshToken env (manager w)) as [Hgf Hgp].
    rewrite Hnone.
    replace (match isRefreshing (manager w) with true | _ => _ end)
      with (match (getRefreshToken env (manager w)).2 with
      | Some (c :: r) =>
          {| manager := with_slot (getRefreshToken env (manager w)).1 true
                          (Some (length (tickets w)));
             tickets := tickets w ++ [Requesting];
             requests := requests w ++ [c :: r];
             calls := calls w ++ [{| ticket := Some (length (tickets w));
                                     creator := true; outcome := None |}] |}
      | _ =>
          {| manager := (getRefreshToken env (manager w)).1;
             tickets := tickets w; requests := requests w;
             calls := calls w ++ [{| ticket := None; creator := false;
                                     outcome := Some (Rejected NO_REFRESH_TOKEN) |}] |}
      end) by by destruct (isRefreshing (manager w)).
    destruct (getRefreshToken env (manager w)).2 as [[|t0 tr]|] eqn:Hgot.
    1,3: (split; cbn [manager tickets requests calls]; rewrite ?Hgf, ?Hgp; try done;
          [ intros q; rewrite I2; split;
            [ intros [c Hc]; exists c; by rewrite lookup_app_l by by eapply lookup_lt_Some
            | intros [c Hc]; apply lookup_snoc_Some in Hc as [Hc|[_ [=]]]; eauto ]
          | intros c call q Hc Hq; apply lookup_snoc_Some in Hc as [Hc|[_ ->]];
            [by eapply I5|done]
          | intros c call o Hc Ho; apply lookup_snoc_Some in Hc as [Hc|[_ ->]];
            [by apply (I6 c)|by injection Ho as <-]
          | intros c call Hc Hn; apply lookup_snoc_Some in Hc as [Hc|[_ ->]];
            [by apply (I7 c)|done]
          | intros c c' q q' Hc Hc';
            apply lookup_snoc_Some in Hc as [Hc|[_ [=]]];
            apply lookup_snoc_Some in Hc' as [Hc'|[_ [=]]]; by eapply I8 ]).
    (* a refresh credential is there: a new ticket *)
    split; cbn [manager tickets requests calls with_slot isRefreshing refreshPromise].
    + split; [eauto|done].
    + intros q. split.
      * intros [= <-]. exists (length (calls w)).
        by rewrite lookup_app_r, Nat.sub_diag by done.
      * intros [c Hc]. apply lookup_snoc_Some in Hc as [Hc|[_ [= ->]]]; [|done].
        by destruct (Hno_creator c q).
    + intros q (t & Ht & Hrun). apply lookup_snoc_Some in Ht as [Ht|[-> _]]; [|done].
      assert (refreshPromise (manager w) = Some q) by (apply I3; exists t; eauto).
      congruence.
    + rewrite !length_app. simpl. lia.
    + intros c call q Hc Hq. rewrite length_app. simpl.
      apply lookup_snoc_Some in Hc as [Hc|[_ ->]].
      * specialize (I5 _ _ _ Hc Hq). lia.
      * injection Hq as <-. lia.
    + intros c call o Hc Ho. apply lookup_snoc_Some in Hc as [Hc|[_ ->]]; [|done].
      specialize (I6 _ _ _ Hc Ho). destruct (ticket call) as [q|]; [|done].
      by rewrite lookup_app_l by by eapply lookup_lt_Some.
    + intros c call Hc Hn. apply lookup_snoc_Some in Hc as [Hc|[_ ->]];
        [by apply (I7 c)|done].
    + intros c c' q q' Hc Hc'.
      apply lookup_snoc_Some in Hc as [Hc|[-> _]]; [by destruct (Hno_creator c q)|].
      apply lookup_snoc_Some in Hc' as [Hc'|[-> _]]; [by destruct (Hno_creator c' q')|].
      done.
    + intros q e Hq. apply lookup_snoc_Some in Hq as [Hq|[_ [=]]]. by eapply I9.
Qed.


(** A ticket in flight moves on (to its next [await] or to its end);
    the manager may change, its slot does not. *)
Lemma invariant_ticket_step w p t t' tm :
  tickets w !! p = Some t → (∀ o, t ≠ Settled o) →
  (∀ e, t' = Settled (Rejected e) → e = REFRESH_FAILED) →
  isRefreshing tm = isRefreshing (manager w) →
  refreshPromise tm = refreshPromise (manager w) →
  invariant w → invariant (with_ticket w p t' tm).
Proof.
  intros Ht Hrun Hrej Hf Hp [I1 I2 I3 I4 I5 I6 I7 I8 I9].
  assert (Hlt : (p < length (tickets w))%nat) by by eapply lookup_lt_Some.
  split; unfold with_ticket; cbn [manager tickets requests calls];
    rewrite ?Hf, ?Hp, ?length_insert; try done.
  - intros q (t0 & Hq & Hrun0). simpl in Hq.
    destruct (decide (p = q)) as [<-|Hne].
    + apply I3. exists t. eauto.
    + rewrite list_lookup_insert_ne in Hq by done. apply I3. exists t0. eauto.
  - intros c call o Hc Ho. specialize (I6 c call o Hc Ho).
    destruct (ticket call) as [q|]; [|done].
    destruct (decide (p = q)) as [<-|Hne].
    + rewrite Ht in I6. injection I6 as ->. by destruct (Hrun o).
    + by rewrite list_lookup_insert_ne.
  - intros q e Hq. destruct (decide (p = q)) as [<-|Hne].
    + rewrite list_lookup_insert_eq in Hq by done. injection Hq as Hq. eauto.
    + rewrite list_lookup_insert_ne in Hq by done. by eapply I9.
Qed.

Lemma invariant_respond env p answer now w :
  invariant w → invariant (respond env p answer now w).
Proof.
  intros I. unfold respond.
  destruct (tickets w !! p) as [[| |]|] eqn:Ht; try done.
  destruct answer as [response|cause].
  - destruct (slot_setTokens env (response_accessToken response)
                (response_refreshToken response) now (manager w)) as [Hf Hp].
    destruct (hasWindow env);
      by eapply invariant_ticket_step.
  - eapply invariant_ticket_step; try done. by intros e [= <-].
Qed.

Lemma invariant_storeUpdated env p imported now w :
  invariant w → invariant (storeUpdated env p imported now w).
Proof.
  intros I. unfold storeUpdated.
  destruct (tickets w !! p) as [[|access refresh|]|] eqn:Ht; try done.
  destruct (slot_setTokens env access refresh now (manager w)) as [Hf Hp].
  destruct imported; by eapply invariant_ticket_step.
Qed.

(** The creator goes on from its [await]: the slot is emptied. *)
Lemma invariant_finish_creator w c p o tm :
  calls w !! c = Some {| ticket := Some p; creator := true; outcome := None |} →
  tickets w !! p = Some (Settled o) →
  isRefreshing tm = false → refreshPromise tm = None →
  invariant w →
  invariant (finish w c {| ticket := Some p; creator := true; outcome := None |} o tm).
Proof.
  intros Hc Ht Hf Hp [I1 I2 I3 I4 I5 I6 I7 I8 I9].
  assert (Hlt : (c < length (calls w))%nat) by by eapply lookup_lt_Some.
  assert (Hslot : refreshPromise (manager w) = Some p) by (apply I2; eauto).
  split; unfold finish; cbn [manager tickets requests calls ticket creator];
    rewrite ?Hf, ?Hp; try done.
  - intros q. split; [done|]. intros [c' Hc'].
    destruct (decide (c = c')) as [<-|Hne].
    + rewrite list_lookup_insert_eq in Hc' by done. done.
    + rewrite list_lookup_insert_ne in Hc' by done.
      by destruct (Hne (I8 _ _ _ _ Hc Hc')).
  - intros q Hq. pose proof Hq as (t & Hq' & Hrun). simpl in Hq'.
    assert (in_flight q w) as Hq0 by (exists t; eauto). apply I3 in Hq0.
    assert (q = p) as -> by congruence.
    rewrite Ht in Hq'. injection Hq' as <-. by destruct (Hrun o).
  - intros c' call q Hc' Hq. destruct (decide (c = c')) as [<-|Hne].
    + rewrite list_lookup_insert_eq in Hc' by done. injection Hc' as <-.
      injection Hq as <-. by eapply lookup_lt_Some.
    + rewrite list_lookup_insert_ne in Hc' by done. by eapply I5.
  - intros c' call o' Hc' Ho'. destruct (decide (c = c')) as [<-|Hne].
    + rewrite list_lookup_insert_eq in Hc' by done. injection Hc' as <-.
      injection Ho' as <-. done.
    + rewrite list_lookup_insert_ne in Hc' by done. by apply (I6 c').
  - intros c' call Hc' Hn. destruct (decide (c = c')) as [<-|Hne].
    + rewrite list_lookup_insert_eq in Hc' by done. by injection Hc' as <-.
    + rewrite list_lookup_insert_ne in Hc' by done. by apply (I7 c').
  - intros c1 c2 q1 q2 H1 H2.
    destruct (decide (c = c1)) as [<-|Hne1].
    { rewrite list_lookup_insert_eq in H1 by done. done. }
    destruct (decide (c = c2)) as [<-|Hne2].
    { rewrite list_lookup_insert_eq in H2 by done. done. }
    rewrite list_lookup_insert_ne in H1, H2 by done. by eapply I8.
Qed.

(** Any other caller takes over the outcome of the ticket. *)
Lemma invariant_finish_follower w c call p o :
  calls w !! c = Some call → creator call = false → ticket call = Some p →
  outcome call = None →
  tickets w !! p = Some (Settled o) →
  invariant w → invariant (finish w c call o (manager w)).
Proof.
  intros Hc Hcr Htk Hout Ht [I1 I2 I3 I4 I5 I6 I7 I8 I9].
  assert (Hlt : (c < length (calls w))%nat) by by eapply lookup_lt_Some.
  split; unfold finish; cbn [manager tickets requests calls]; try done.
  - intros q. rewrite I2. split.
    + intros [c' Hc']. exists c'.
      destruct (decide (c = c')) as [<-|Hne].
      * rewrite Hc in Hc'. injection Hc' as ->. done.
      * by rewrite list_lookup_insert_ne.
    + intros [c' Hc']. exists c'.
      destruct (decide (c = c')) as [<-|Hne].
      * rewrite list_lookup_insert_eq in Hc' by done. done.
      * by rewrite list_lookup_insert_ne in Hc'.
  - intros c' call' q Hc' Hq. destruct (decide (c = c')) as [<-|Hne].
    + rewrite list_lookup_insert_eq in Hc' by done. injection Hc' as <-.
      simpl in Hq. rewrite Htk in Hq. injection Hq as <-. by eapply lookup_lt_Some.
    + rewrite list_lookup_insert_ne in Hc' by done. by eapply I5.
  - intros c' call' o' Hc' Ho'. destruct (decide (c = c')) as [<-|Hne].
    + rewrite list_lookup_insert_eq in Hc' by done. injection Hc' as <-.
      simpl in *. rewrite Htk. by injection Ho' as <-.
    + rewrite list_lookup_insert_ne in Hc' by done. by apply (I6 c').
  - intros c' call' Hc' Hn. destruct (decide (c = c')) as [<-|Hne].
    + rewrite list_lookup_insert_eq in Hc' by done. injection Hc' as <-.
      simpl in Hn. congruence.
    + rewrite list_lookup_insert_ne in Hc' by done. by apply (I7 c').
  - intros c1 c2 q1 q2 H1 H2.
    destruct (decide (c = c1)) as [<-|Hne1].
    { rewrite list_lookup_insert_eq in H1 by done. done. }
    destruct (decide (c = c2)) as [<-|Hne2].
    { rewrite list_lookup_insert_eq in H2 by done. done. }
    rewrite list_lookup_insert_ne in H1, H2 by done. by eapply I8.
Qed.

Lemma invariant_resume env c w :
  invariant w → invariant (resume env c w).
Proof.
  intros I. unfold resume.
  destruct (calls w !! c) as [[tk cr out]|] eqn:Hc; [|done].
  cbn [outcome ticket creator].
  destruct out as [o'|]; [done|]. destruct tk as [p|]; [|done].
  destruct (tickets w !! p) as [[| |o]|] eqn:Ht; try done.
  destruct cr.
  - destruct o as [tok|e].
    + by apply invariant_finish_creator.
    + destruct (slot_clearTokens env (with_slot (manager w) false None)) as [Hf Hp].
      by apply invariant_finish_creator.
  - by eapply invariant_finish_follower.
Qed.

Lemma invariant_step env ev w :
  invariant w → invariant (step env ev w).
Proof.
  intros I.
  destruct ev as [|p answer now|p imported now|c|access refresh now| | |]; simpl.
  - by apply invariant_refreshAccessToken.
  - by apply invariant_respond.
  - by apply invariant_storeUpdated.
  - by apply invariant_resume.
  - destruct (slot_setTokens env access refresh now (manager w)).
    by apply invariant_manager.
  - destruct (slot_clearTokens env (manager w)). by apply invariant_manager.
  - destruct (slot_getAccessToken env (manager w)). by apply invariant_manager.
  - destruct (slot_getRefreshToken env (manager w)). by apply invariant_manager.
Qed.

Lemma invariant_run env evs w :
  invariant w → invariant (run env evs w).
Proof.
  unfold run. revert w. induction evs as [|ev evs IH]; intros w I; [done|].
  simpl. by apply IH, invariant_step.
Qed.

Lemma reachable_invariant env w : reachable env w → invariant w.
Proof.
  intros (w0 & evs & Hfresh & ->). by apply invariant_run, fresh_invariant.
Qed.

Lemma renewal_pending_same_calls n0 p nreq w w' :
  renewal_pending n0 p nreq w →
  refreshPromise (manager w') = refreshPromise (manager w) →
  calls w' = calls w →
  length (requests w') = length (requests w) →
  length (tickets w') = length (tickets w) →
  renewal_pending n0 p nreq w'.
Proof.
  intros (Hslot & Hn0 & Hall & Hreq & Hlen) Hp Hc Hr Ht.
  unfold renewal_pending. rewrite Hp, Hc, Hr, Ht. done.
Qed.

Lemma renewal_window_step env n0 p nreq ev w :
  invariant w → renewal_pending n0 p nreq w → within_window n0 ev →
  renewal_pending n0 p nreq (step env ev w).
Proof.
  intros I Hpend Hev. pose proof Hpend as (Hslot & Hn0 & Hall & Hreq & Hlen).
  pose proof I as [I1 I2 I3 I4 I5 I6 I7 I8 I9].
  assert (Hflag : isRefreshing (manager w) = true).
  { apply I1. rewrite Hslot. eauto. }
  assert (Hlt : (n0 < length (calls w))%nat) by by eapply lookup_lt_Some.
  destruct ev as [|q answer now|q imported now|c|access refresh now| | |];
    simpl in Hev |- *.
  - (* one more caller: the slot is taken, so it is handed the ticket *)
    unfold refreshAccessToken. cbv zeta. rewrite Hflag, Hslot.
    unfold renewal_pending. cbn [manager tickets requests calls].
    split; [done|]. split; [by rewrite lookup_app_l|]. split; [|done].
    intros c call Hge Hc.
    apply lookup_snoc_Some in Hc as [Hc|[_ ->]]; [by eapply Hall|done].
  - (* the POST is answered *)
    unfold respond.
    destruct (tickets w !! q) as [[| |]|] eqn:Ht; try done.
    destruct answer as [response|cause].
    + destruct (slot_setTokens env (response_accessToken response)
                  (response_refreshToken response) now (manager w)) as [_ Hp].
      destruct (hasWindow env);
        (eapply renewal_pending_same_calls; [exact Hpend|..]);
        unfold with_ticket; cbn [manager tickets requests calls];
        rewrite ?length_insert; done.
    + eapply renewal_pending_same_calls; [exact Hpend|..];
        unfold with_ticket; cbn [manager tickets requests calls];
        rewrite ?length_insert; done.
  - unfold storeUpdated.
    destruct (tickets w !! q) as [[|access refresh|]|] eqn:Ht; try done.
    destruct (slot_setTokens env access refresh now (manager w)) as [_ Hp].
    destruct imported;
      (eapply renewal_pending_same_calls; [exact Hpend|..]);
      unfold with_ticket; cbn [manager tickets requests calls];
      rewrite ?length_insert; done.
  - (* some other caller goes on *)
    unfold resume.
    destruct (calls w !! c) as [[tk cr out]|] eqn:Hc; [|done].
    cbn [outcome ticket creator].
    destruct out as [o'|]; [done|]. destruct tk as [q|]; [|done].
    destruct (tickets w !! q) as [[| |o]|] eqn:Ht; try done.
    destruct cr.
    { (* it cannot be a creator: that is call [n0] *)
      by destruct (Hev (I8 _ _ _ _ Hc Hn0)). }
    unfold renewal_pending, finish. cbn [manager tickets requests calls ticket creator].
    split; [done|]. split; [by rewrite list_lookup_insert_ne|].
    split; [|done].
    intros c' call Hge Hc'. destruct (decide (c = c')) as [<-|Hne].
    + rewrite list_lookup_insert_eq in Hc' by by eapply lookup_lt_Some.
      injection Hc' as <-. by apply (Hall c _ Hge Hc).
    + rewrite list_lookup_insert_ne in Hc' by done. by eapply Hall.
  - destruct (slot_setTokens env access refresh now (manager w)) as [_ Hp].
    by eapply renewal_pending_same_calls.
  - destruct (slot_clearTokens env (manager w)) as [_ Hp].
    by eapply renewal_pending_same_calls.
  - destruct (slot_getAccessToken env (manager w)) as [_ Hp].
    by eapply renewal_pending_same_calls.
  - destruct (slot_getRefreshToken env (manager w)) as [_ Hp].
    by eapply renewal_pending_same_calls.
Qed.

Lemma renewal_window_run env n0 p nreq evs w :
  invariant w → renewal_pending n0 p nreq w → Forall (within_window n0) evs →
  renewal_pending n0 p nreq (run env evs w).
Proof.
  unfold run. revert w. induction evs as [|ev evs IH]; intros w I Hpend Hevs; [done|].
  apply Forall_cons in Hevs as [Hev Hevs]. simpl.
  apply IH; [by apply invariant_step|by apply renewal_window_step|done].
Qed.

(** The first call of a renewal: the slot is empty and the call does
    not end at once, so it made a ticket and one POST. *)
Lemma renewal_begins env w :
  invariant w → refreshPromise (manager w) = None →
  pending (length (calls w)) (refreshAccessToken env w) →
  renewal_pending (length (calls w)) (length (tickets w))
    (S (length (requests w))) (refreshAccessToken env w).
Proof.
  intros I Hnone (call & Hcall & Hout). revert Hcall.
  unfold refreshAccessToken. cbv zeta. rewrite Hnone.
  replace (match isRefreshing (manager w) with true | _ => _ end)
    with (match (getRefreshToken env (manager w)).2 with
    | Some (c :: r) =>
        {| manager := with_slot (getRefreshToken env (manager w)).1 true
                        (Some (length (tickets w)));
           tickets := tickets w ++ [Requesting];
           requests := requests w ++ [c :: r];
           calls := calls w ++ [{| ticket := Some (length (tickets w));
                                   creator := true; outcome := None |}] |}
    | _ =>
        {| manager := (getRefreshToken env (manager w)).1;
           tickets := tickets w; requests := requests w;
           calls := calls w ++ [{| ticket := None; creator := false;
                                   outcome := Some (Rejected NO_REFRESH_TOKEN) |}] |}
    end) by by destruct (isRefreshing (manager w)).
  destruct (getRefreshToken env (manager w)).2 as [[|t0 tr]|];
    cbn [calls]; rewrite lookup_app_r, Nat.sub_diag by done; intros [= <-];
    try done.
  unfold renewal_pending. cbn [manager tickets requests calls with_slot refreshPromise].
  split; [done|]. split; [by rewrite lookup_app_r, Nat.sub_diag by done|].
  split; [|rewrite !length_app; simpl; lia].
  intros c call Hge Hc. apply lookup_snoc_Some in Hc as [Hc|[_ ->]]; [|done].
  apply lookup_lt_Some in Hc. lia.
Qed.

(** Once made, the ticket and the role of a call stay what they are. *)
Lemma call_ticket_step env ev w c call :
  calls w !! c = Some call →
  ∃ call', calls (step env ev w) !! c = Some call'
           ∧ ticket call' = ticket call ∧ creator call' = creator call.
Proof.
  intros Hc. assert (Hlt : (c < length (calls w))%nat) by by eapply lookup_lt_Some.
  destruct ev as [|q answer now|q imported now|c0|access refresh now| | |];
    simpl; eauto.
  - unfold refreshAccessToken. cbv zeta.
    destruct (isRefreshing (manager w)), (refreshPromise (manager w));
      try destruct (getRefreshToken env (manager w)).2 as [[|? ?]|];
      cbn [calls]; rewrite lookup_app_l by done; eauto.
  - unfold respond. destruct (tickets w !! q) as [[| |]|]; eauto.
    destruct answer; [destruct (hasWindow env)|]; eauto.
  - unfold storeUpdated. destruct (tickets w !! q) as [[| |]|]; eauto.
  - unfold resume.
    destruct (calls w !! c0) as [[tk cr out]|] eqn:Hc0; eauto.
    cbn [outcome ticket creator].
    destruct out; eauto. destruct tk as [q|]; eauto.
    destruct (tickets w !! q) as [[| |o]|]; eauto.
    assert (∀ tm, ∃ call',
              calls (finish w c0 {| ticket := Some q; creator := cr; outcome := None |}
                       o tm) !! c = Some call'
              ∧ ticket call' = ticket call ∧ creator call' = creator call) as Hfin.
    { intros tm. unfold finish. cbn [calls ticket creator].
      destruct (decide (c0 = c)) as [->|Hne].
      - rewrite list_lookup_insert_eq by done.
        eexists. split; [done|]. rewrite Hc in Hc0. by injection Hc0 as ->.
      - rewrite list_lookup_insert_ne by done. eauto. }
    destruct cr; [destruct o|]; apply Hfin.
Qed.

Lemma call_ticket_run env evs w c call :
  calls w !! c = Some call →
  ∃ call', calls (run env evs w) !! c = Some call'
           ∧ ticket call' = ticket call ∧ creator call' = creator call.
Proof.
  unfold run. revert w call. induction evs as [|ev evs IH]; intros w call Hc; [eauto|].
  destruct (call_ticket_step env ev w c call Hc) as (call1 & Hc1 & Ht1 & Hr1).
  destruct (IH _ _ Hc1) as (call' & Hc' & Ht' & Hr').
  exists call'. simpl. split; [done|]. split; congruence.
Qed.

Lemma signed_in_reachable evs : reachable browser (run browser evs signed_in).
Proof. exists signed_in, evs. split; [|done]. by repeat split. Qed.

(** A ticket that has settled stays as it is. *)
Lemma ticket_settled_step env ev w p o :
  tickets w !! p = Some (Settled o) →
  tickets (step env ev w) !! p = Some (Settled o).
Proof.
  intros Hp. assert (Hlt : (p < length (tickets w))%nat) by by eapply lookup_lt_Some.
  destruct ev as [|q answer now|q imported now|c0|access refresh now| | |];
    simpl; try done.
  - unfold refreshAccessToken. cbv zeta.
    destruct (isRefreshing (manager w)), (refreshPromise (manager w));
      try destruct (getRefreshToken env (manager w)).2 as [[|? ?]|];
      cbn [tickets]; rewrite ?lookup_app_l by done; done.
  - unfold respond. destruct (tickets w !! q) as [[| |]|] eqn:Hq; try done.
    assert (q ≠ p) by congruence.
    destruct answer; [destruct (hasWindow env)|];
      unfold with_ticket; cbn [tickets]; by rewrite list_lookup_insert_ne.
  - unfold storeUpdated. destruct (tickets w !! q) as [[| |]|] eqn:Hq; try done.
    assert (q ≠ p) by congruence.
    unfold with_ticket; cbn [tickets]; by rewrite list_lookup_insert_ne.
  - unfold resume. destruct (calls w !! c0) as [[tk cr out]|]; [|done].
    cbn [outcome ticket creator]. destruct out; [done|].
    destruct tk as [q|]; [|done].
    destruct (tickets w !! q) as [[| |o']|]; try done.
    destruct cr; [destruct o'|]; done.
Qed.

(** The promise of a call settles in one way only: when the call is
    resumed, with the outcome of its ticket. *)
Lemma call_outcome_step env ev w c call call' :
  calls w !! c = Some call → calls (step env ev w) !! c = Some call' →
  outcome call' = outcome call
  ∨ (ev = Resume c ∧ outcome call = None
     ∧ ∃ p o, ticket call = Some p ∧ tickets w !! p = Some (Settled o)
              ∧ outcome call' = Some o).
Proof.
  intros Hc. assert (Hlt : (c < length (calls w))%nat) by by eapply lookup_lt_Some.
  destruct ev as [|q answer now|q imported now|c0|access refresh now| | |];
    simpl; try (intros Hc'; left; congruence).
  - unfold refreshAccessToken. cbv zeta.
    destruct (isRefreshing (manager w)), (refreshPromise (manager w));
      try destruct (getRefreshToken env (manager w)).2 as [[|? ?]|];
      cbn [calls]; rewrite lookup_app_l by done; intros Hc'; left; congruence.
  - unfold respond. destruct (tickets w !! q) as [[| |]|];
      try (intros Hc'; left; congruence).
    destruct answer; [destruct (hasWindow env)|]; intros Hc'; left;
      cbn [with_ticket calls] in Hc'; congruence.
  - unfold storeUpdated. destruct (tickets w !! q) as [[| |]|];
      intros Hc'; left; cbn [with_ticket calls] in Hc'; congruence.
  - unfold resume.
    destruct (calls w !! c0) as [[tk cr out]|] eqn:Hc0;
      [|intros Hc'; left; congruence].
    cbn [outcome ticket creator].
    destruct out; [intros Hc'; left; congruence|].
    destruct tk as [q|]; [|intros Hc'; left; congruence].
    destruct (tickets w !! q) as [[| |o]|] eqn:Hq;
      try (intros Hc'; left; congruence).
    assert (∀ tm, calls (finish w c0 {| ticket := Some q; creator := cr;
                                        outcome := None |} o tm) !! c = Some call' →
              outcome call' = outcome call
              ∨ (Resume c0 = Resume c ∧ outcome call = None
                 ∧ ∃ p o0, ticket call = Some p
                           ∧ tickets w !! p = Some (Settled o0)
                           ∧ outcome call' = Some o0)) as Hfin.
    { intros tm. unfold finish. cbn [calls ticket creator].
      destruct (decide (c0 = c)) as [->|Hne].
      - rewrite list_lookup_insert_eq by done. intros [= <-].
        rewrite Hc in Hc0. injection Hc0 as ->. right.
        split; [done|]. split; [done|]. by exists q, o.
      - rewrite list_lookup_insert_ne by done. intros Hc'. left. congruence. }
    destruct cr; [destruct o|]; apply Hfin.
Qed.

Lemma awaiting_step env ev w c p o :
  awaiting c p o w → awaiting c p o (step env ev w).
Proof.
  intros (call & Hc & Htk & Ht & Hout).
  destruct (call_ticket_step env ev w c call Hc) as (call' & Hc' & Htk' & _).
  exists call'. split; [done|]. split; [congruence|].
  split; [by apply ticket_settled_step|].
  destruct (call_outcome_step env ev w c call call' Hc Hc')
    as [Heq|(_ & _ & q & o' & Hq & Ht' & Ho')].
  - by rewrite Heq.
  - right. rewrite Ho'. congruence.
Qed.

Lemma delivered_step env ev w c p o :
  delivered c p o w → delivered c p o (step env ev w).
Proof.
  intros (call & Hc & Htk & Hout).
  destruct (call_ticket_step env ev w c call Hc) as (call' & Hc' & Htk' & _).
  exists call'. split; [done|]. split; [congruence|].
  destruct (call_outcome_step env ev w c call call' Hc Hc')
    as [Heq|(_ & Hnone & _)]; congruence.
Qed.

Lemma delivered_run env evs : ∀ w c p o,
  delivered c p o w → delivered c p o (run env evs w).
Proof.
  unfold run. induction evs as [|ev evs IH]; intros w c p o H; [done|].
  simpl. by apply IH, delivered_step.
Qed.

(** A call that is resumed once its ticket has settled takes the
    outcome of the ticket. *)
Lemma resume_delivers env w c p o :
  awaiting c p o w → delivered c p o (resume env c w).
Proof.
  intros ([tk cr out] & Hc & Htk & Ht & Hout). cbn [ticket outcome] in *.
  subst tk. unfold resume. rewrite Hc. cbn [outcome ticket creator].
  destruct Hout as [->| ->].
  - rewrite Ht.
    assert (∀ tm, delivered c p o
              (finish w c {| ticket := Some p; creator := cr; outcome := None |}
                 o tm)) as Hfin.
    { intros tm. eexists. unfold finish. cbn [calls ticket creator].
      rewrite list_lookup_insert_eq by by eapply lookup_lt_Some. done. }
    destruct cr; [destruct o|]; apply Hfin.
  - by eexists.
Qed.

(** Delivery: every call that awaits a settled ticket has taken the
    outcome of the ticket once it has been resumed, whatever else
    happens before and after. *)
Lemma delivery_run env later : ∀ w c p o,
  awaiting c p o w → Resume c ∈ later → delivered c p o (run env later w).
Proof.
  induction later as [|ev later IH]; intros w c p o Haw Hin.
  - by apply elem_of_nil in Hin.
  - apply elem_of_cons in Hin as [<-|Hin].
    + change (delivered c p o (run env later (resume env c w))).
      by apply delivered_run, resume_delivers.
    + change (delivered c p o (run env later (step env ev w))).
      apply IH; [by apply awaiting_step|done].
Qed.

(** A call found with a settled ticket awaits it. *)
Lemma invariant_awaiting w c call p o :
  invariant w → calls w !! c = Some call → ticket call = Some p →
  tickets w !! p = Some (Settled o) → awaiting c p o w.
Proof.
  intros I Hc Htk Ht. exists call. split; [done|]. split; [done|]. split; [done|].
  destruct (outcome call) as [o'|] eqn:Ho; [|by left].
  pose proof (inv_outcome _ I _ _ _ Hc Ho) as Hout. rewrite Htk in Hout.
  right. congruence.
Qed.

(** The ticket of a POST settles once the POST is answered and, in a
    window, the import of the store is over. *)
Lemma ticket_settles env w p answer now imported now' :
  tickets w !! p = Some Requesting →
  tickets (run env [Respond p answer now; StoreUpdated p imported now'] w) !! p
  = Some (Settled (ticket_outcome answer)).
Proof.
  intros Hp. assert (Hlt : (p < length (tickets w))%nat) by by eapply lookup_lt_Some.
  cbn [run foldl step]. unfold respond. rewrite Hp.
  destruct answer as [response|cause]; [destruct (hasWindow env)|];
    unfold storeUpdated, with_ticket; cbn [tickets manager];
    rewrite list_lookup_insert_eq by done; cbn [tickets];
    rewrite ?list_lookup_insert_eq by (by rewrite ?length_insert); done.
Qed.

(** C1. In every world the renewal protocol can reach: at most one
    ticket is in flight at any instant, and it is the one in the slot;
    every ticket stands for exactly one POST to the renewal endpoint;
    a call made while a ticket is in the slot is handed that ticket
    and makes no POST; every call that has settled carries the outcome
    of its ticket, so two calls of one ticket carry the same outcome.
    And for concurrent calls -- a call made while the slot is empty,
    which does not end at once, followed by anything at all short of
    that call being resumed, further calls included -- exactly one
    ticket and one POST are added, every one of these calls awaits
    that ticket, and whenever one of them settles later on, it is with
    the outcome of that ticket. The outcome is delivered: the ticket
    of a POST settles once the POST is answered (and, in a window,
    the import of the store is over), fulfilled with the access
    credential of the answer or rejected; and every call that awaits
    a settled ticket, each of the concurrent calls among them, has
    settled with the outcome of that ticket once it has been resumed,
    whatever else happens before and after. *)
Theorem renewal_single_flight env w :
  reachable env w →
  (∀ p q, in_flight p w → in_flight q w → p = q)
  ∧ (∀ p, in_flight p w → refreshPromise (manager w) = Some p)
  ∧ length (requests w) = length (tickets w)
  ∧ (∀ p, refreshPromise (manager w) = Some p →
       calls (refreshAccessToken env w)
         = calls w ++ [{| ticket := Some p; creator := false; outcome := None |}]
       ∧ requests (refreshAccessToken env w) = requests w
       ∧ tickets (refreshAccessToken env w) = tickets w)
  ∧ (∀ c c' call call' p o o',
       calls w !! c = Some call → calls w !! c' = Some call' →
       ticket call = Some p → ticket call' = Some p →
       outcome call = Some o → outcome call' = Some o' →
       tickets w !! p = Some (Settled o) ∧ o = o')
  ∧ (∀ evs, refreshPromise (manager w) = None →
       pending (length (calls w)) (refreshAccessToken env w) →
       Forall (within_window (length (calls w))) evs →
       length (requests (run env evs (refreshAccessToken env w)))
         = S (length (requests w))
       ∧ length (tickets (run env evs (refreshAccessToken env w)))
         = S (length (tickets w))
       ∧ (∀ c call, (length (calls w) ≤ c)%nat →
            calls (run env evs (refreshAccessToken env w)) !! c = Some call →
            ticket call = Some (length (tickets w)))
       ∧ (∀ later c call o, (length (calls w) ≤ c)%nat →
            (c < length (calls (run env evs (refreshAccessToken env w))))%nat →
            calls (run env later (run env evs (refreshAccessToken env w))) !! c
              = Some call →
            outcome call = Some o →
            tickets (run env later (run env evs (refreshAccessToken env w)))
              !! length (tickets w) = Some (Settled o))
       ∧ (∀ later c o, (length (calls w) ≤ c)%nat →
            (c < length (calls (run env evs (refreshAccessToken env w))))%nat →
            tickets (run env evs (refreshAccessToken env w)) !! length (tickets w)
              = Some (Settled o) →
            Resume c ∈ later →
            delivered c (length (tickets w)) o
              (run env later (run env evs (refreshAccessToken env w))))
       ∧ (∀ answer now imported now' later c, (length (calls w) ≤ c)%nat →
            (c < length (calls (run env evs (refreshAccessToken env w))))%nat →
            tickets (run env evs (refreshAccessToken env w)) !! length (tickets w)
              = Some Requesting →
            Resume c ∈ later →
            delivered c (length (tickets w)) (ticket_outcome answer)
              (run env later
                 (run env [Respond (length (tickets w)) answer now;
                           StoreUpdated (length (tickets w)) imported now']
                    (run env evs (refreshAccessToken env w))))))
  ∧ (∀ p answer now imported now', tickets w !! p = Some Requesting →
       tickets (run env [Respond p answer now; StoreUpdated p imported now'] w) !! p
       = Some (Settled (ticket_outcome answer)))
  ∧ (∀ c call p o later,
       calls w !! c = Some call → ticket call = Some p →
       tickets w !! p = Some (Settled o) → Resume c ∈ later →
       delivered c p o (run env later w)).
Proof.
  intros Hreach. pose proof (reachable_invariant env w Hreach) as I.
  pose proof I as [I1 I2 I3 I4 I5 I6 I7 I8 I9].
  split; [|split; [done|split; [done|split; [|split; [|split; [|split]]]]]].
  - intros p q Hp Hq. apply I3 in Hp, Hq. congruence.
  - intros p Hp.
    assert (Hflag : isRefreshing (manager w) = true).
    { apply I1. rewrite Hp. eauto. }
    unfold refreshAccessToken. cbv zeta. by rewrite Hflag, Hp.
  - intros c c' call call' p o o' Hc Hc' Ht Ht' Ho Ho'.
    pose proof (I6 _ _ _ Hc Ho) as H1. pose proof (I6 _ _ _ Hc' Ho') as H2.
    rewrite Ht in H1. rewrite Ht' in H2. split; [done|]. congruence.
  - intros evs Hnone Hpend Hevs.
    pose proof (renewal_begins env w I Hnone Hpend) as Hbegin.
    pose proof (invariant_refreshAccessToken env w I) as I'.
    pose proof (renewal_window_run env _ _ _ evs _ I' Hbegin Hevs)
      as (Hslot & Hn0 & Hall & Hreq & Hlen).
    pose proof (invariant_run env evs _ I') as Iw.
    split; [done|]. split; [done|]. split; [done|]. split; [|split].
    + intros later c call o Hge Hlt Hc Ho.
      apply lookup_lt_is_Some in Hlt as [call0 Hcall0].
      pose proof (Hall c call0 Hge Hcall0) as Htk.
      destruct (call_ticket_run env later _ c call0 Hcall0) as (call' & Hc' & Ht' & _).
      assert (call' = call) as -> by congruence.
      pose proof (invariant_run env later _ Iw) as Il.
      pose proof (inv_outcome _ Il _ _ _ Hc Ho) as Hout.
      rewrite Ht', Htk in Hout. done.
    + intros later c o Hge Hlt Ht Hin.
      apply lookup_lt_is_Some in Hlt as [call0 Hcall0].
      pose proof (Hall c call0 Hge Hcall0) as Htk.
      apply delivery_run; [|done]. by eapply invariant_awaiting.
    + intros answer now imported now' later c Hge Hlt Ht Hin.
      apply lookup_lt_is_Some in Hlt as [call0 Hcall0].
      pose proof (Hall c call0 Hge Hcall0) as Htk.
      destruct (call_ticket_run env
                  [Respond (length (tickets w)) answer now;
                   StoreUpdated (length (tickets w)) imported now']
                  _ c call0 Hcall0) as (call' & Hc' & Ht' & _).
      apply delivery_run; [|done].
      apply (invariant_awaiting _ c call' (length (tickets w))).
      * by apply invariant_run.
      * done.
      * congruence.
      * by apply ticket_settles.
  - intros p answer now imported now' Hp. by apply ticket_settles.
  - intros c call p o later Hc Htk Ht Hin.
    apply delivery_run; [|done]. by eapply invariant_awaiting.
Qed.

Lemma renewal_single_flight_witness :
  reachable browser signed_in
  ∧ length (requests (run browser [CallRefresh; CallRefresh]
                        (refreshAccessToken browser signed_in))) = 1%nat
  ∧ delivered 2 0 (Fulfilled (of_string "access-1"))
      (run browser [Resume 1; Resume 0; Resume 2]
         (run browser
            [Respond 0 (inl {| response_accessToken := of_string "access-1";
                               response_refreshToken := None |}) 5;
             StoreUpdated 0 true 6]
            (run browser [CallRefresh; CallRefresh]
               (refreshAccessToken browser signed_in)))).
Proof.
  assert (H : reachable browser signed_in) by apply (signed_in_reachable []).
  split; [exact H|].
  destruct (renewal_single_flight browser signed_in H)
    as (_ & _ & _ & _ & _ & Hcohort & _).
  destruct (Hcohort [CallRefresh; CallRefresh])
    as (Hreq & _ & _ & _ & _ & Hdelivered).
  - reflexivity.
  - eexists. split; reflexivity.
  - repeat constructor.
  - split; [exact Hreq|].
    apply (Hdelivered (inl {| response_accessToken := of_string "access-1";
                              response_refreshToken := None |})
             5 true 6 [Resume 1; Resume 0; Resume 2] 2%nat).
    + cbn. lia.
    + vm_compute. lia.
    + reflexivity.
    + rewrite !elem_of_cons. auto.
Defined.

(** With the slot empty, [refreshAccessToken] turns on the refresh
    credential alone. *)
Lemma refreshAccessToken_empty_slot env w :
  refreshPromise (manager w) = None →
  refreshAccessToken env w =
  match (getRefreshToken env (manager w)).2 with
  | Some (c :: r) =>
      {| manager := with_slot (getRefreshToken env (manager w)).1 true
                      (Some (length (tickets w)));
         tickets := tickets w ++ [Requesting];
         requests := requests w ++ [c :: r];
         calls := calls w ++ [{| ticket := Some (length (tickets w));
                                 creator := true; outcome := None |}] |}
  | _ =>
      {| manager := (getRefreshToken env (manager w)).1;
         tickets := tickets w; requests := requests w;
         calls := calls w ++ [{| ticket := None; creator := false;
                                 outcome := Some (Rejected NO_REFRESH_TOKEN) |}] |}
  end.
Proof.
  intros Hnone. unfold refreshAccessToken. cbv zeta. rewrite Hnone.
  by destruct (isRefreshing (manager w)).
Qed.

(** C5, as the code has it. A call made while no renewal is in the
    slot and no refresh credential can be found is rejected with the
    error "No refresh token available", and no POST is made. Any other
    rejection a caller gets is that of its ticket, and a ticket is
    rejected with one error only, "Token refresh failed": it is what
    [performTokenRefresh] throws whatever made the POST fail, and it
    does not carry that cause. All callers of one ticket get the same
    rejection, and they do get it: once the POST of a ticket has
    failed, every call that awaits the ticket has been rejected with
    "Token refresh failed" once it has been resumed, whatever else
    happens before and after. *)
Theorem renewal_rejections env w :
  reachable env w →
  (refreshPromise (manager w) = None →
   truthy (getRefreshToken env (manager w)).2 = false →
   calls (refreshAccessToken env w) !! length (calls w)
     = Some {| ticket := None; creator := false;
               outcome := Some (Rejected NO_REFRESH_TOKEN) |}
   ∧ requests (refreshAccessToken env w) = requests w
   ∧ tickets (refreshAccessToken env w) = tickets w)
  ∧ (∀ c call e, calls w !! c = Some call → outcome call = Some (Rejected e) →
       (ticket call = None ∧ e = NO_REFRESH_TOKEN)
       ∨ (∃ p, ticket call = Some p ∧ e = REFRESH_FAILED
               ∧ tickets w !! p = Some (Settled (Rejected REFRESH_FAILED))))
  ∧ (∀ p cause now, tickets w !! p = Some Requesting →
       tickets (respond env p (inr cause) now w) !! p
         = Some (Settled (Rejected REFRESH_FAILED)))
  ∧ (∀ c c' call call' p e o',
       calls w !! c = Some call → calls w !! c' = Some call' →
       ticket call = Some p → ticket call' = Some p →
       outcome call = Some (Rejected e) → outcome call' = Some o' →
       o' = Rejected e)
  ∧ (∀ p cause now c call later,
       tickets w !! p = Some Requesting →
       calls w !! c = Some call → ticket call = Some p →
       Resume c ∈ later →
       delivered c p (Rejected REFRESH_FAILED)
         (run env later (respond env p (inr cause) now w)))
  ∧ (∀ c call p e later,
       calls w !! c = Some call → ticket call = Some p →
       tickets w !! p = Some (Settled (Rejected e)) → Resume c ∈ later →
       delivered c p (Rejected REFRESH_FAILED) (run env later w)).
Proof.
  intros Hreach. pose proof (reachable_invariant env w Hreach) as I.
  pose proof I as [I1 I2 I3 I4 I5 I6 I7 I8 I9].
  split; [|split; [|split; [|split; [|split]]]].
  - intros Hnone Hfalsy. rewrite refreshAccessToken_empty_slot by done.
    destruct (getRefreshToken env (manager w)).2 as [[|t0 tr]|]; try done;
      cbn [calls requests tickets]; by rewrite lookup_app_r, Nat.sub_diag by done.
  - intros c call e Hc Ho. pose proof (I6 _ _ _ Hc Ho) as Hout.
    destruct (ticket call) as [p|] eqn:Ht.
    + right. exists p. pose proof (I9 _ _ Hout) as ->. done.
    + left. split; [done|]. by injection Hout.
  - intros p cause now Hp. unfold respond. rewrite Hp.
    unfold with_ticket. cbn [tickets].
    rewrite list_lookup_insert_eq by by eapply lookup_lt_Some. done.
  - intros c c' call call' p e o' Hc Hc' Ht Ht' Ho Ho'.
    pose proof (I6 _ _ _ Hc Ho) as H1. pose proof (I6 _ _ _ Hc' Ho') as H2.
    rewrite Ht in H1. rewrite Ht' in H2. congruence.
  - intros p cause now c call later Hp Hc Htk Hin.
    apply delivery_run; [|done].
    apply (invariant_awaiting _ c call p).
    + by apply invariant_respond.
    + unfold respond. by rewrite Hp.
    + done.
    + unfold respond. rewrite Hp. unfold with_ticket. cbn [tickets].
      by rewrite list_lookup_insert_eq by by eapply lookup_lt_Some.
  - intros c call p e later Hc Htk Ht Hin.
    pose proof (I9 _ _ Ht) as ->.
    apply delivery_run; [|done]. by eapply invariant_awaiting.
Qed.

Lemma renewal_rejections_witness :
  reachable browser (run browser [CallRefresh; CallRefresh] signed_in)
  ∧ delivered 1 0 (Rejected REFRESH_FAILED)
      (run browser [Resume 0; Resume 1]
         (respond browser 0
            (inr (JsObject true "TimeoutError" "Request timed out" None)) 0
            (run browser [CallRefresh; CallRefresh] signed_in))).
Proof.
  assert (H : reachable browser (run browser [CallRefresh; CallRefresh] signed_in))
    by apply signed_in_reachable.
  split; [exact H|].
  destruct (renewal_rejections browser _ H) as (_ & _ & _ & _ & Hdelivered & _).
  eapply (Hdelivered 0%nat (JsObject true "TimeoutError" "Request timed out" None)
            0 1%nat).
  - reflexivity.
  - reflexivity.
  - reflexivity.
  - rewrite !elem_of_cons. auto.
Defined.

(** C5 as stated fails where it says the rejection wraps the cause: a
    renewal whose POST times out and one whose POST is answered 401
    are rejected with the same value, the error "Token refresh
    failed", in which nothing of the cause is left. *)
Lemma renewal_rejection_drops_cause :
  calls (run browser
           [CallRefresh;
            Respond 0 (inr (JsObject true "TimeoutError" "Request timed out" None)) 0;
            Resume 0] signed_in) !! 0%nat
  = Some {| ticket := Some 0%nat; creator := true;
            outcome := Some (Rejected (JsObject true "Error" "Token refresh failed" None)) |}
  ∧ calls (run browser
             [CallRefresh;
              Respond 0 (inr (JsObject true "HTTPError" "Unauthorized"
                                (Some (Some {| status := 401 |})))) 0;
              Resume 0] signed_in) !! 0%nat
    = Some {| ticket := Some 0%nat; creator := true;
              outcome := Some (Rejected (JsObject true "Error" "Token refresh failed" None)) |}
  ∧ JsObject true "TimeoutError" "Request timed out" None
    ≠ JsObject true "HTTPError" "Unauthorized" (Some (Some {| status := 401 |})).
Proof. split; [reflexivity|]. split; [reflexivity|]. discriminate. Qed.

Lemma lookup_cleared (m : gmap string (list Z)) key :
  key ∈ stored_keys →
  delete "tokenExpiry" (delete "refreshToken" (delete "accessToken" m)) !! key = None.
Proof.
  unfold stored_keys. intros Hkey.
  apply elem_of_cons in Hkey as [->|Hkey];
    [by rewrite !lookup_delete_ne, lookup_delete_eq by done|].
  apply elem_of_cons in Hkey as [->|Hkey];
    [by rewrite lookup_delete_ne, lookup_delete_eq by done|].
  apply list_elem_of_singleton in Hkey as ->. by rewrite lookup_delete_eq.
Qed.

Lemma clearTokens_clears env st :
  accessToken (clearTokens env st) = None
  ∧ refreshToken (clearTokens env st) = None
  ∧ (∀ key, key ∈ stored_keys → getSecureItem env key (clearTokens env st) = None)
  ∧ (hasWindow env = true → storageWorks env = true →
     ∀ key, key ∈ stored_keys → storage (clearTokens env st) !! key = None).
Proof.
  unfold clearTokens, removeSecureItem, getSecureItem.
  destruct (hasWindow env), (storageWorks env); cbn [negb];
    cbn [accessToken refreshToken storage with_storage with_tokens];
    (split; [done|]); (split; [done|]); (split; [|try done]).
  - intros key Hkey. by rewrite lookup_cleared.
  - intros _ _ key Hkey. by apply lookup_cleared.
  - done.
  - done.
  - done.
Qed.

Lemma rejected_without_credential env w :
  refreshPromise (manager w) = None →
  truthy (getRefreshToken env (manager w)).2 = false →
  calls (refreshAccessToken env w) !! length (calls w)
    = Some {| ticket := None; creator := false;
              outcome := Some (Rejected NO_REFRESH_TOKEN) |}
  ∧ tickets (refreshAccessToken env w) = tickets w
  ∧ accessToken (manager (refreshAccessToken env w)) = accessToken (manager w)
  ∧ storage (manager (refreshAccessToken env w)) = storage (manager w).
Proof.
  intros Hnone Hfalsy. rewrite refreshAccessToken_empty_slot by done.
  assert (Hm : accessToken (getRefreshToken env (manager w)).1 = accessToken (manager w)
               ∧ storage (getRefreshToken env (manager w)).1 = storage (manager w)).
  { unfold getRefreshToken. by destruct (truthy (refreshToken (manager w))). }
  destruct (getRefreshToken env (manager w)).2 as [[|t0 tr]|]; try done;
    cbn [calls requests tickets manager];
    by rewrite lookup_app_r, Nat.sub_diag by done.
Qed.

(** C6, as the code has it. When the call that made a ticket goes on
    after the ticket has settled, the slot is emptied (the promise and
    the in-progress flag) and the call settles with the ticket's
    outcome, fulfilled or rejected. If the ticket was rejected the
    credential pair is cleared, in memory and in storage, and the
    rejection is what the caller gets; if it was fulfilled the
    credentials stay. A call of [refreshAccessToken] made after that
    is not handed the settled ticket: where a refresh credential is
    found it makes a new ticket and a new POST, and otherwise it is
    rejected for want of one. Such a call, rejected with no renewal in
    the slot and no refresh credential to be found, makes no ticket
    and clears nothing: the access credential and the storage stay as
    they were. *)
Theorem renewal_settles_and_clears env w c p o :
  calls w !! c = Some {| ticket := Some p; creator := true; outcome := None |} →
  tickets w !! p = Some (Settled o) →
  isRefreshing (manager (resume env c w)) = false
  ∧ refreshPromise (manager (resume env c w)) = None
  ∧ calls (resume env c w) !! c
    = Some {| ticket := Some p; creator := true; outcome := Some o |}
  ∧ (∀ e, o = Rejected e →
       accessToken (manager (resume env c w)) = None
       ∧ refreshToken (manager (resume env c w)) = None
       ∧ (∀ key, key ∈ stored_keys →
                 getSecureItem env key (manager (resume env c w)) = None)
       ∧ (hasWindow env = true → storageWorks env = true →
          ∀ key, key ∈ stored_keys →
                 storage (manager (resume env c w)) !! key = None))
  ∧ (∀ token, o = Fulfilled token →
       manager (resume env c w) = with_slot (manager w) false None)
  ∧ (∃ call,
       calls (refreshAccessToken env (resume env c w)) !! length (calls w) = Some call
       ∧ ticket call ≠ Some p
       ∧ ((∃ credential,
             (getRefreshToken env (manager (resume env c w))).2 = Some credential
             ∧ credential ≠ []
             ∧ call = {| ticket := Some (length (tickets w)); creator := true;
                         outcome := None |}
             ∧ tickets (refreshAccessToken env (resume env c w))
               = tickets w ++ [Requesting]
             ∧ requests (refreshAccessToken env (resume env c w))
               = requests w ++ [credential])
          ∨ (truthy (getRefreshToken env (manager (resume env c w))).2 = false
             ∧ call = {| ticket := None; creator := false;
                         outcome := Some (Rejected NO_REFRESH_TOKEN) |}
             ∧ requests (refreshAccessToken env (resume env c w)) = requests w)))
  ∧ (∀ w', refreshPromise (manager w') = None →
       truthy (getRefreshToken env (manager w')).2 = false →
       calls (refreshAccessToken env w') !! length (calls w')
         = Some {| ticket := None; creator := false;
                   outcome := Some (Rejected NO_REFRESH_TOKEN) |}
       ∧ tickets (refreshAccessToken env w') = tickets w'
       ∧ accessToken (manager (refreshAccessToken env w')) = accessToken (manager w')
       ∧ storage (manager (refreshAccessToken env w')) = storage (manager w')).
Proof.
  intros Hc Hp.
  assert (Hlt : (c < length (calls w))%nat) by by eapply lookup_lt_Some.
  assert (Hplt : (p < length (tickets w))%nat) by by eapply lookup_lt_Some.
  set (tm := match o with
             | Fulfilled _ => with_slot (manager w) false None
             | Rejected _ => clearTokens env (with_slot (manager w) false None)
             end).
  assert (Hres : resume env c w =
                 finish w c {| ticket := Some p; creator := true; outcome := None |}
                   o tm).
  { unfold resume. rewrite Hc. cbn [outcome ticket creator]. rewrite Hp.
    subst tm. by destruct o. }
  assert (Hslot : isRefreshing tm = false ∧ refreshPromise tm = None).
  { subst tm. destruct o; [done|].
    destruct (slot_clearTokens env (with_slot (manager w) false None)) as [-> ->].
    done. }
  destruct Hslot as [Hf Hn].
  rewrite Hres. unfold finish at 1 2 3 4 5 6 7 8.
  cbn [manager calls ticket creator].
  split; [done|]. split; [done|].
  split; [by rewrite list_lookup_insert_eq|].
  split.
  { intros e ->. subst tm. apply clearTokens_clears. }
  split.
  { intros token ->. done. }
  split; [|apply rejected_without_credential].
  rewrite refreshAccessToken_empty_slot by done.
  unfold finish. cbn [manager tickets requests calls ticket creator].
  destruct (getRefreshToken env tm).2 as [[|t0 tr]|] eqn:Hgot;
    cbn [calls tickets requests];
    rewrite <- (length_insert (calls w) c
                  {| ticket := Some p; creator := true; outcome := Some o |});
    rewrite lookup_app_r, Nat.sub_diag by done;
    (eexists; split; [reflexivity|]); cbn [ticket].
  - split; [done|]. right. done.
  - split; [intros [= Heq]; lia|]. left. exists (t0 :: tr). done.
  - split; [done|]. right. done.
Qed.

Lemma renewal_settles_and_clears_witness :
  calls (run browser
           [CallRefresh;
            Respond 0 (inr (JsObject true "TimeoutError" "Request timed out" None)) 0]
           signed_in) !! 0%nat
  = Some {| ticket := Some 0%nat; creator := true; outcome := None |}
  ∧ refreshPromise (manager (resume browser 0
      (run browser
         [CallRefresh;
          Respond 0 (inr (JsObject true "TimeoutError" "Request timed out" None)) 0]
         signed_in))) = None
  ∧ accessToken (manager (resume browser 0
      (run browser
         [CallRefresh;
          Respond 0 (inr (JsObject true "TimeoutError" "Request timed out" None)) 0]
         signed_in))) = None.
Proof.
  assert (H1 : calls (run browser
           [CallRefresh;
            Respond 0 (inr (JsObject true "TimeoutError" "Request timed out" None)) 0]
           signed_in) !! 0%nat
         = Some {| ticket := Some 0%nat; creator := true; outcome := None |})
    by reflexivity.
  assert (H2 : tickets (run browser
           [CallRefresh;
            Respond 0 (inr (JsObject true "TimeoutError" "Request timed out" None)) 0]
           signed_in) !! 0%nat
         = Some (Settled (Rejected REFRESH_FAILED))) by reflexivity.
  split; [exact H1|].
  destruct (renewal_settles_and_clears browser _ 0%nat 0%nat _ H1 H2)
    as (_ & Hslot & _ & Hclear & _).
  split; [exact Hslot|].
  destruct (Hclear _ eq_refl) as (Ha & _). exact Ha.
Defined.

(** C6 as stated fails for the attempt that fails before a ticket is
    made. A manager that was given an access credential and no refresh
    credential rejects [refreshAccessToken] with "No refresh token
    available", and after that the access credential is still there,
    in memory and in storage. *)
Lemma renewal_without_credential_clears_nothing :
  calls (run browser [SetTokens (of_string "access-0") None 1700000000000;
                      CallRefresh] signed_out) !! 0%nat
  = Some {| ticket := None; creator := false;
            outcome := Some (Rejected NO_REFRESH_TOKEN) |}
  ∧ accessToken (manager (run browser
      [SetTokens (of_string "access-0") None 1700000000000; CallRefresh]
      signed_out)) = Some (of_string "access-0")
  ∧ storage (manager (run browser
      [SetTokens (of_string "access-0") None 1700000000000; CallRefresh]
      signed_out)) !! "accessToken" = Some (of_string "access-0").
Proof. split; [|split]; by vm_compute. Qed.

End Renewal.
(** ** The deduplication registry *)

Section Registry.
Import RequestDeduplicator.

Implicit Types (st : State) (key : string) (request : Entry).

Lemma lookup_foldl_delete {A} (keys : list string) (m : gmap string A) key :
  foldl (λ m k, delete k m) m keys !! key =
  if decide (key ∈ keys) then None else m !! key.
Proof.
  revert m. induction keys as [|k keys IH]; intros m; cbn [foldl].
  - destruct (decide (key ∈ [])) as [H|H]; [by apply elem_of_nil in H|done].
  - rewrite IH.
    destruct (decide (key ∈ keys)) as [Hin|Hnin];
      destruct (decide (key ∈ k :: keys)) as [H2|H2]; try done.
    + exfalso. apply H2. by right.
    + apply elem_of_cons in H2 as [->|?]; [apply lookup_delete_eq|done].
    + rewrite lookup_delete_ne; [done|]. intros ->. apply H2. by left.
Qed.

(** What the loop of the sweep has collected once it is through the
    whole map. *)
Lemma sweep_fold_spec now (ab0 : gset nat) (m : gmap string Entry) :
  let swept := map_fold (sweep_entry now) (ab0, []) m in
  (∀ key, key ∈ swept.2 ↔ ∃ request, m !! key = Some request ∧ expired_at now request)
  ∧ (∀ c, c ∈ swept.1 ↔
          c ∈ ab0 ∨ ∃ key request, m !! key = Some request
                                   ∧ expired_at now request ∧ controller request = c).
Proof.
  simpl.
  apply (map_fold_weak_ind (λ acc m,
    (∀ key, key ∈ acc.2 ↔ ∃ request, m !! key = Some request ∧ expired_at now request)
    ∧ (∀ c, c ∈ acc.1 ↔
            c ∈ ab0 ∨ ∃ key request, m !! key = Some request
                                     ∧ expired_at now request ∧ controller request = c)));
    clear m.
  - split.
    + intros key. simpl. split; [by intros ?%elem_of_nil|].
      intros (? & H & _). by rewrite lookup_empty in H.
    + intros c. simpl. split; [by left|].
      intros [?|(? & ? & H & _)]; [done|]. by rewrite lookup_empty in H.
  - intros i x m [ab keys] Hi [IHk IHc]. simpl in IHk, IHc.
    unfold sweep_entry. simpl.
    destruct (Z.gtb_spec (now - timestamp x) PENDING_TIMEOUT) as [Hexp|Hyoung]; simpl.
    + split.
      * intros key. rewrite elem_of_app, list_elem_of_singleton, IHk.
        split.
        -- intros [(request & Hr & He)| ->].
           ++ exists request. split; [|done].
              rewrite lookup_insert_ne; [done|]. intros ->. congruence.
           ++ exists x. rewrite lookup_insert_eq. split; [done|]. unfold expired_at. lia.
        -- intros (request & Hr & He).
           destruct (decide (i = key)) as [->|Hne]; [by right|].
           left. rewrite lookup_insert_ne in Hr by done. eauto.
      * intros c. rewrite elem_of_union, elem_of_singleton, IHc.
        split.
        -- intros [->|[?|(key & request & Hr & He & Hc)]].
           ++ right. exists i, x. rewrite lookup_insert_eq.
              repeat split. unfold expired_at. lia.
           ++ by left.
           ++ right. exists key, request. split; [|done].
              rewrite lookup_insert_ne; [done|]. intros ->. congruence.
        -- intros [?|(key & request & Hr & He & Hc)]; [by right; left|].
           destruct (decide (i = key)) as [->|Hne].
           ++ rewrite lookup_insert_eq in Hr. injection Hr as ->. by left.
           ++ rewrite lookup_insert_ne in Hr by done. right; right. eauto.
    + split.
      * intros key. rewrite IHk. split.
        -- intros (request & Hr & He). exists request. split; [|done].
           rewrite lookup_insert_ne; [done|]. intros ->. congruence.
        -- intros (request & Hr & He).
           destruct (decide (i = key)) as [->|Hne].
           ++ rewrite lookup_insert_eq in Hr. injection Hr as ->.
              unfold expired_at in He. lia.
           ++ rewrite lookup_insert_ne in Hr by done. eauto.
      * intros c. rewrite IHc. split.
        -- intros [?|(key & request & Hr & He & Hc)]; [by left|].
           right. exists key, request. split; [|done].
           rewrite lookup_insert_ne; [done|]. intros ->. congruence.
        -- intros [?|(key & request & Hr & He & Hc)]; [by left|].
           destruct (decide (i = key)) as [->|Hne].
           ++ rewrite lookup_insert_eq in Hr. injection Hr as ->.
              unfold expired_at in He. lia.
           ++ rewrite lookup_insert_ne in Hr by done. right. eauto.
Qed.

Lemma cleanup_pending now st :
  pendingRequests (cleanupExpiredRequests now st) =
  filter (λ kv, ¬ expired_at now kv.2) (pendingRequests st).
Proof.
  apply map_eq. intros key. unfold cleanupExpiredRequests. simpl.
  rewrite lookup_foldl_delete.
  destruct (sweep_fold_spec now (aborted st) (pendingRequests st)) as [Hk _].
  simpl in Hk.
  destruct (pendingRequests st !! key) as [request|] eqn:Hlk.
  - destruct (decide (expired_at now request)) as [He|Hy].
    + rewrite decide_True by (apply Hk; eauto).
      symmetry. apply map_lookup_filter_None. right. intros x Hx. simpl.
      assert (x = request) as -> by congruence. tauto.
    + rewrite decide_False.
      * symmetry. apply map_lookup_filter_Some. done.
      * intros (r & Hr & He)%Hk. assert (r = request) as -> by congruence. done.
  - rewrite decide_False.
    + symmetry. apply map_lookup_filter_None. by left.
    + intros (r & Hr & He)%Hk. congruence.
Qed.

(** C9. One run of the sweep at clock reading [now], on any registry:
    every entry older than the pending-timeout (30 s) has its
    controller aborted and is removed, so it is no longer pending;
    every other entry stays as it was; no controller other than those
    of the removed entries is aborted by the sweep; the pending count
    is the number of entries that stayed. The sweep is scheduled with
    an interval of 60 s. *)
Theorem cleanupExpiredRequests_sweeps_exactly_expired now st :
  (∀ key request, pendingRequests st !! key = Some request →
     now - timestamp request > 30000 →
     controller request ∈ aborted (cleanupExpiredRequests now st)
     ∧ pendingRequests (cleanupExpiredRequests now st) !! key = None)
  ∧ (∀ key request, pendingRequests st !! key = Some request →
     now - timestamp request <= 30000 →
     pendingRequests (cleanupExpiredRequests now st) !! key = Some request)
  ∧ (∀ key, pendingRequests st !! key = None →
     pendingRequests (cleanupExpiredRequests now st) !! key = None)
  ∧ (∀ c, c ∈ aborted (cleanupExpiredRequests now st) ↔
          c ∈ aborted st
          ∨ ∃ key request, pendingRequests st !! key = Some request
                           ∧ now - timestamp request > 30000
                           ∧ controller request = c)
  ∧ pendingCount (cleanupExpiredRequests now st) =
    size (filter (λ kv, ¬ expired_at now kv.2) (pendingRequests st))
  ∧ operations (cleanupExpiredRequests now st) = operations st
  ∧ PENDING_TIMEOUT = 30000 ∧ CLEANUP_INTERVAL = 60000.
Proof.
  destruct (sweep_fold_spec now (aborted st) (pendingRequests st)) as [Hk Hc].
  simpl in Hk, Hc.
  split; [|split; [|split; [|split; [|split; [|split; [|split]]]]]]; try reflexivity.
  - intros key request Hr He. split.
    + unfold cleanupExpiredRequests. simpl. apply Hc. right.
      exists key, request. by repeat split.
    + rewrite cleanup_pending. apply map_lookup_filter_None. right.
      intros x Hx. simpl. assert (x = request) as -> by congruence.
      unfold expired_at, PENDING_TIMEOUT. tauto.
  - intros key request Hr Hy. rewrite cleanup_pending.
    apply map_lookup_filter_Some. split; [done|]. simpl.
    unfold expired_at, PENDING_TIMEOUT. lia.
  - intros key Hr. rewrite cleanup_pending. apply map_lookup_filter_None. by left.
  - intros c. unfold cleanupExpiredRequests. simpl. apply Hc.
  - unfold pendingCount. by rewrite cleanup_pending.
Qed.

(** The scenario of the specification: an entry registered at 0 is
    swept at 30001 and no longer counted, one registered at 5000 stays. *)
Example sweep_scenario :
  let st := (deduplicate "GET:/b:" 5000 (deduplicate "GET:/a:" 0 initial).1).1 in
  pendingCount st = 2%nat
  ∧ pendingCount (cleanupExpiredRequests 30001 st) = 1%nat
  ∧ pendingRequests (cleanupExpiredRequests 30001 st) !! "GET:/a:" = None
  ∧ aborted (cleanupExpiredRequests 30001 st) = {[0%nat]}.
Proof. vm_compute. repeat split. Qed.

End Registry.

Section Deduplication.
Import RequestDeduplicator.

Implicit Types (st : State) (key fp : string) (request : Entry).

Lemma deduplicate_existing key now st request :
  pendingRequests st !! key = Some request →
  deduplicate key now st = (st, promise request).
Proof. intros H. unfold deduplicate. by rewrite H. Qed.

Lemma executions_app key st op ops :
  operations st = ops ++ [op] →
  executions key st =
  (length (filter (λ k, k = key) (op_key <$> ops))
   + if decide (op_key op = key) then 1 else 0)%nat.
Proof.
  intros H. unfold executions. rewrite H.
  rewrite fmap_app, filter_app, length_app. f_equal.
  simpl. rewrite filter_cons, filter_nil. by case_decide.
Qed.

Lemma op_keys_insert (ops : list Operation) id op op' :
  ops !! id = Some op → op_key op' = op_key op →
  op_key <$> <[id := op']> ops = op_key <$> ops.
Proof.
  intros Hid Hk. rewrite list_fmap_insert, Hk.
  apply list_insert_id. by rewrite list_lookup_fmap, Hid.
Qed.

Lemma executions_settle key id outcome st :
  executions key (settle id outcome st) = executions key st.
Proof.
  unfold settle, executions.
  destruct (operations st !! id) as [op|] eqn:Hid; [|done].
  destruct (settled op); [done|]. simpl.
  by rewrite (op_keys_insert _ _ op).
Qed.

Lemma cohort_step fp p t0 n st ev :
  cohort_pending fp p t0 n st → undisturbed fp p t0 ev →
  cohort_pending fp p t0 n (step ev st).1
  ∧ (∀ q, (step ev st).2 = Some (fp, q) → q = p).
Proof.
  intros (Hentry & Hop & Honly & Hn) Hev.
  assert (Hlt : (p < length (operations st))%nat) by by eapply lookup_lt_Some.
  destruct ev as [key now | id outcome | key | | now]; simpl in *.
  - (* another call of [deduplicate] *)
    unfold deduplicate.
    destruct (pendingRequests st !! key) as [existing|] eqn:Hk; simpl.
    + split; [done|]. intros q [= -> <-].
      rewrite Hentry in Hk. by injection Hk as <-.
    + assert (key ≠ fp) as Hne by (intros ->; congruence).
      split; [|intros q [= ? _]; done].
      repeat split; simpl.
      * by rewrite lookup_insert_ne.
      * by rewrite lookup_app_l.
      * intros id op Hid Hkey Hrun.
        destruct (decide (id < length (operations st))%nat).
        -- rewrite lookup_app_l in Hid by done. eauto.
        -- rewrite lookup_app_r in Hid by lia.
           apply list_lookup_singleton_Some in Hid as [_ <-]. done.
      * erewrite executions_app; [|reflexivity]. simpl.
        rewrite decide_False by done. unfold executions in Hn. lia.
  - (* some other operation settles *)
    split; [|done]. unfold settle.
    destruct (operations st !! id) as [op|] eqn:Hid; [|done].
    destruct (settled op) eqn:Hs; [done|].
    assert (op_key op ≠ fp) as Hne.
    { intros Hkey. apply Hev. eauto. }
    repeat split; simpl.
    * by rewrite lookup_delete_ne.
    * by rewrite list_lookup_insert_ne.
    * intros id' op' Hid' Hkey Hrun.
      destruct (decide (id = id')) as [<-|Hneq].
      -- rewrite list_lookup_insert_eq in Hid' by by eapply lookup_lt_Some.
         injection Hid' as <-. done.
      -- rewrite list_lookup_insert_ne in Hid' by done. eauto.
    * unfold executions. simpl. by rewrite (op_keys_insert _ _ op).
  - (* another key is cancelled *)
    split; [|done]. unfold cancelRequest.
    destruct (pendingRequests st !! key); [|done]. simpl.
    repeat split; simpl; try done.
    by rewrite lookup_delete_ne.
  - done.
  - (* a sweep that comes before the entry is 30 s old *)
    split; [|done]. repeat split; try done.
    rewrite cleanup_pending. apply map_lookup_filter_Some. split; [done|].
    simpl. unfold expired_at. simpl. lia.
Qed.

Lemma cohort_run fp p t0 n evs st :
  cohort_pending fp p t0 n st → Forall (undisturbed fp p t0) evs →
  cohort_pending fp p t0 n (run evs st).1
  ∧ (∀ q, (fp, q) ∈ (run evs st).2 → q = p).
Proof.
  revert st. induction evs as [|ev evs IH]; intros st Hinv Hevs; simpl.
  - split; [done|]. by intros q ?%elem_of_nil.
  - apply Forall_cons in Hevs as [Hev Hevs].
    destruct (cohort_step _ _ _ _ _ _ Hinv Hev) as [Hinv' Hq].
    destruct (IH _ Hinv' Hevs) as [Hfin Hqs].
    split; [done|]. intros q Hin.
    destruct (step ev st).2 as [c|] eqn:Hc; [|by apply Hqs].
    apply elem_of_cons in Hin as [<-|Hin]; [by apply Hq|by apply Hqs].
Qed.

Lemma cohort_start fp t0 st :
  pendingRequests st !! fp = None →
  (∀ id op, operations st !! id = Some op → op_key op = fp → settled op ≠ None) →
  cohort_pending fp (length (operations st)) t0 (S (executions fp st))
    (deduplicate fp t0 st).1
  ∧ (deduplicate fp t0 st).2 = length (operations st).
Proof.
  intros Hnone Hdone. unfold deduplicate. rewrite Hnone. simpl.
  split; [|done]. repeat split; simpl.
  - by rewrite lookup_insert_eq.
  - rewrite lookup_app_r by done. by rewrite Nat.sub_diag.
  - intros id op Hid Hkey Hrun.
    destruct (decide (id < length (operations st))%nat).
    + rewrite lookup_app_l in Hid by done. by destruct (Hdone _ _ Hid Hkey).
    + rewrite lookup_app_r in Hid by lia.
      apply list_lookup_singleton_Some in Hid as [? _]. lia.
  - erewrite executions_app; [|reflexivity]. simpl.
    rewrite decide_True by done. unfold executions. lia.
Qed.

(** C2, as the code has it. Take a call of [deduplicate] for [fp] that
    finds no entry for [fp] while no operation invoked under [fp] is
    still running, and let any events follow that do not settle the
    operation it started and do not cancel or sweep the entry of [fp]
    -- among them any number of further calls for [fp]. Then
    [requestFn] ran exactly once under [fp], every caller for [fp] was
    handed the promise registered by the first, and the registry holds
    that one entry for [fp]; when the operation settles, fulfilled or
    rejected, the entry is removed and the promise all of them hold
    carries that outcome. Keys of the registry are never duplicated. *)
Theorem deduplicate_single_flight fp t0 evs st :
  pendingRequests st !! fp = None →
  (∀ id op, operations st !! id = Some op → op_key op = fp → settled op ≠ None) →
  Forall (undisturbed fp (length (operations st)) t0) evs →
  let p := length (operations st) in
  let r := run (Deduplicate fp t0 :: evs) st in
  executions fp r.1 = S (executions fp st)
  ∧ (∀ q, (fp, q) ∈ r.2 → q = p)
  ∧ (fp, p) ∈ r.2
  ∧ pendingRequests r.1 !! fp =
      Some {| promise := p; controller := p; timestamp := t0 |}
  ∧ running p r.1
  ∧ NoDup (map_to_list (pendingRequests r.1)).*1
  ∧ (∀ outcome,
       pendingRequests (settle p outcome r.1) !! fp = None
       ∧ outcome_of p (settle p outcome r.1) = Some outcome
       ∧ executions fp (settle p outcome r.1) = S (executions fp st)).
Proof.
  intros Hnone Hdone Hevs p r.
  destruct (cohort_start fp t0 st Hnone Hdone) as [Hinv Hp].
  destruct (cohort_run _ _ _ _ evs _ Hinv Hevs) as [Hfin Hqs].
  subst r. cbn [run step]. simpl. fold p in Hp, Hfin, Hqs, Hinv |- *.
  rewrite Hp.
  destruct Hfin as (Hentry & Hop & Honly & Hn).
  split; [done|]. split.
  { intros q [[= ->]|Hin]%elem_of_cons; [done|]. by apply Hqs. }
  split; [by left|]. split; [done|]. split.
  { eexists. split; [exact Hop|done]. }
  split; [apply NoDup_fst_map_to_list|].
  intros outcome. unfold settle. rewrite Hop. simpl.
  split; [by rewrite lookup_delete_eq|]. split.
  - unfold outcome_of. simpl.
    rewrite list_lookup_insert_eq by by eapply lookup_lt_Some. done.
  - unfold executions in *. simpl.
    by rewrite (op_keys_insert _ _ _ _ Hop).
Qed.

Lemma deduplicate_single_flight_witness :
  pendingRequests initial !! "GET:/users:" = None
  ∧ executions "GET:/users:"
      (run [Deduplicate "GET:/users:" 0; Deduplicate "GET:/users:" 5;
            Deduplicate "GET:/posts:" 7; Deduplicate "GET:/users:" 9]
           initial).1 = 1%nat
  ∧ (∀ q, ("GET:/users:", q) ∈
            (run [Deduplicate "GET:/users:" 0; Deduplicate "GET:/users:" 5;
                  Deduplicate "GET:/posts:" 7; Deduplicate "GET:/users:" 9]
                 initial).2 → q = 0%nat).
Proof.
  assert (H1 : pendingRequests initial !! "GET:/users:" = None) by reflexivity.
  assert (H2 : ∀ id op, operations initial !! id = Some op →
                        op_key op = "GET:/users:" → settled op ≠ None).
  { intros id op H. simpl in H. by rewrite lookup_nil in H. }
  assert (H3 : Forall (undisturbed "GET:/users:" (length (operations initial)) 0)
                 [Deduplicate "GET:/users:" 5; Deduplicate "GET:/posts:" 7;
                  Deduplicate "GET:/users:" 9]).
  { repeat constructor. }
  destruct (deduplicate_single_flight _ _ _ _ H1 H2 H3) as (Ha & Hb & _).
  split; [exact H1|]. split; [exact Ha|exact Hb].
Defined.

(** C2 as stated fails: [cancelRequest] empties the slot of [fp]
    although the cancelled operation has not settled, so a second call
    issued before the first settles runs [requestFn] again and is
    handed a different promise. *)
Lemma deduplicate_reruns_after_cancel :
  (run [Deduplicate "GET:/users:" 0; CancelRequest "GET:/users:";
        Deduplicate "GET:/users:" 1] initial).2
  = [("GET:/users:", 0%nat); ("GET:/users:", 1%nat)]
  ∧ executions "GET:/users:"
      (run [Deduplicate "GET:/users:" 0; CancelRequest "GET:/users:";
            Deduplicate "GET:/users:" 1] initial).1 = 2%nat
  ∧ outcome_of 0
      (run [Deduplicate "GET:/users:" 0; CancelRequest "GET:/users:";
            Deduplicate "GET:/users:" 1] initial).1 = None.
Proof. vm_compute. repeat split. Qed.

(** The [finally] handler deletes by key whatever entry is there. Once
    a cancelled operation settles it removes the entry of the call that
    replaced it, and a third call, issued while the second is in
    flight and was never cancelled, runs [requestFn] once more. *)
Example stale_finally_deletes_newer_entry :
  let r := run [Deduplicate "GET:/users:" 0; CancelRequest "GET:/users:";
                Deduplicate "GET:/users:" 1;
                Settle 0 (Rejected (JsObject true "AbortError" "aborted" None));
                Deduplicate "GET:/users:" 2] initial in
  r.2 = [("GET:/users:", 0%nat); ("GET:/users:", 1%nat); ("GET:/users:", 2%nat)]
  ∧ executions "GET:/users:" r.1 = 3%nat
  ∧ outcome_of 1 r.1 = None ∧ outcome_of 2 r.1 = None
  ∧ aborted r.1 = {[0%nat]}.
Proof. vm_compute. repeat split. Qed.

End Deduplication.
(** ** Bounded retry *)

Section RetryLoop.
Import RequestDeduplicator Retry.

Variables (clock : Z → Z) (maxRetries retryDelay : Z)
          (retryCondition : JsValue → bool) (key : string).
Variables (st0 : State) (failures : nat → JsValue) (N : nat) (value : JsValue).

Let first := length (operations st0).
Let settles := fail_then_succeed first failures N value.

Hypothesis transient : ∀ i, retryCondition (failures i) = true.
Hypothesis fresh_keys :
  ∀ i : nat, pendingRequests st0 !! attemptKey key (Z.of_nat i) = None.

(** One attempt on a registry that does not know the attempt's key:
    [requestFn] is invoked once more, and after the outcome is in the
    registry's map is what it was. *)
Lemma attempt_runs_operation (a : nat) st :
  length (operations st) = (first + a)%nat →
  pendingRequests st = pendingRequests st0 →
  let call := deduplicate (attemptKey key (Z.of_nat a)) (clock (Z.of_nat a)) st in
  call.2 = (first + a)%nat
  ∧ length (operations (settle call.2 (settles call.2) call.1)) = (first + S a)%nat
  ∧ pendingRequests (settle call.2 (settles call.2) call.1) = pendingRequests st0.
Proof.
  intros Hlen Hmap. unfold deduplicate.
  rewrite Hmap, fresh_keys. simpl. rewrite Hlen.
  split; [done|]. unfold settle. simpl.
  rewrite lookup_app_r by lia. rewrite Hlen, Nat.sub_diag. simpl.
  split.
  - rewrite length_insert, length_app. simpl. lia.
  - rewrite delete_insert_eq. apply delete_id, fresh_keys.
Qed.

Lemma retryLoop_spec (remaining : nat) : ∀ (a : nat) lastError st,
  Z.of_nat (a + remaining) = maxRetries + 1 →
  (1 ≤ remaining)%nat →
  length (operations st) = (first + a)%nat →
  pendingRequests st = pendingRequests st0 →
  let r := retryLoop settles clock maxRetries retryDelay retryCondition key
             remaining (Z.of_nat a) lastError st in
  let k := ((N - a) `min` (remaining - 1))%nat in
  attempts r = S k
  ∧ delays r = (λ i : nat, retryDelay * 2 ^ Z.of_nat i) <$> seq a k
  ∧ result r = (if decide (N - a < remaining)%nat then Fulfilled value
                else Rejected (failures (a + remaining - 1)%nat))
  ∧ length (operations (final r)) = (first + a + S k)%nat
  ∧ pendingRequests (final r) = pendingRequests st0.
Proof.
  induction remaining as [|remaining IH]; intros a lastError st Hsum Hpos Hlen Hmap;
    [lia|].
  destruct (attempt_runs_operation a st Hlen Hmap) as (Hid & Hlen' & Hmap').
  cbn [retryLoop]. cbv zeta in Hid, Hlen', Hmap' |- *.
  set (call := deduplicate _ _ st) in *.
  rewrite Hid in *.
  destruct (decide (a < N)%nat) as [Hfail|Hok].
  - (* attempt [a] fails *)
    assert (Hout : settles (first + a) = Rejected (failures a)).
    { unfold settles, fail_then_succeed. rewrite decide_True by lia.
      do 2 f_equal. lia. }
    rewrite Hout in *. rewrite transient. cbn [negb]. rewrite orb_false_r.
    destruct (Z.eqb_spec (Z.of_nat a) maxRetries) as [Hlast|Hmore].
    + (* and it was the last one allowed *)
      assert (remaining = 0%nat) as -> by lia.
      cbn [attempts delays result final].
      replace ((N - a) `min` (1 - 1))%nat with 0%nat by lia.
      rewrite decide_False by lia.
      replace (a + 1 - 1)%nat with a by lia.
      repeat split; try done. lia.
    + assert (1 ≤ remaining)%nat as Hpos' by lia.
      replace (Z.of_nat a + 1) with (Z.of_nat (S a)) by lia.
      destruct (IH (S a) (failures a) _ ltac:(lia) Hpos' Hlen' Hmap')
        as (Hat & Hde & Hre & Hle & Hma).
      cbn [attempts delays result final].
      replace ((N - a) `min` (S remaining - 1))%nat
        with (S ((N - S a) `min` (remaining - 1)))%nat by lia.
      rewrite Hat, Hde, Hre, Hle, Hma.
      repeat split; try done.
      * destruct (decide (N - S a < remaining)%nat);
          destruct (decide (N - a < S remaining)%nat); try lia; try done.
        by replace (S a + remaining - 1)%nat with (a + S remaining - 1)%nat by lia.
      * lia.
  - (* attempt [a] succeeds *)
    assert (Hout : settles (first + a) = Fulfilled value).
    { unfold settles, fail_then_succeed. by rewrite decide_False by lia. }
    rewrite Hout in *.
    cbn [attempts delays result final].
    replace (N - a)%nat with 0%nat by lia.
    rewrite Nat.min_0_l, decide_True by lia.
    repeat split; try done. lia.
Qed.

End RetryLoop.

Section Retry.
Import RequestDeduplicator Retry.

Lemma backoff_doubling (base : Z) (a k : nat) :
  doubling ((λ i : nat, base * 2 ^ Z.of_nat i) <$> seq a k).
Proof.
  intros i x y Hx Hy.
  rewrite list_lookup_fmap in Hx, Hy.
  destruct (seq a k !! i) as [n|] eqn:Hn; [|done].
  destruct (seq a k !! S i) as [n'|] eqn:Hn'; [|done].
  apply lookup_seq in Hn as [-> _]. apply lookup_seq in Hn' as [-> _].
  simpl in Hx, Hy. injection Hx as <-. injection Hy as <-.
  replace (Z.of_nat (a + S i)) with (Z.succ (Z.of_nat (a + i))) by lia.
  rewrite Z.pow_succ_r by lia. lia.
Qed.

Lemma backoff_nondecreasing (base : Z) (a k : nat) :
  0 <= base →
  nondecreasing ((λ i : nat, base * 2 ^ Z.of_nat i) <$> seq a k).
Proof.
  intros Hbase i x y Hx Hy.
  rewrite (backoff_doubling base a k i x y Hx Hy).
  rewrite list_lookup_fmap in Hx.
  destruct (seq a k !! i) as [n|] eqn:Hn; [|done].
  simpl in Hx. injection Hx as <-.
  assert (0 <= 2 ^ Z.of_nat n) by (apply Z.pow_nonneg; lia). nia.
Qed.

(** C7, as the code has it. Let the retry limit be [maxRetries], 3
    when the options give none, and the base delay [retryDelay], 1000
    ms when the options give none, both non-negative. When the
    operation fails [N] times with failures the retry condition
    accepts and then succeeds, and the attempt keys are not in use,
    the loop makes [min N limit + 1] attempts, never more than
    [limit + 1], each invoking [requestFn] once; the delay before
    retry number [i+1] is [base * 2^i], so every delay is twice the
    one before it and none is shorter than the one before it; the
    call resolves with the success if [N <= limit], and otherwise
    rejects with the failure of the last attempt. *)
Theorem retryableRequest_bounded_backoff
    (clock : Z → Z) (random : string) (options : RetryOptions) (st : State)
    (failures : nat → JsValue) (N : nat) (value : JsValue) :
  0 <= limit_of options →
  0 <= base_delay_of options →
  (∀ i, condition_of options (failures i) = true) →
  (∀ i : nat, pendingRequests st !!
                attemptKey (key_of clock random options) (Z.of_nat i) = None) →
  (Z.of_nat (attempts (retryableRequest
      (fail_then_succeed (length (operations st)) failures N value)
      clock random options st)) <= limit_of options + 1)
  ∧ attempts (retryableRequest
      (fail_then_succeed (length (operations st)) failures N value)
      clock random options st) = S (N `min` Z.to_nat (limit_of options))
  ∧ length (operations (final (retryableRequest
      (fail_then_succeed (length (operations st)) failures N value)
      clock random options st))) =
    (length (operations st) + S (N `min` Z.to_nat (limit_of options)))%nat
  ∧ delays (retryableRequest
      (fail_then_succeed (length (operations st)) failures N value)
      clock random options st) =
    (λ i : nat, base_delay_of options * 2 ^ Z.of_nat i)
      <$> seq 0 (N `min` Z.to_nat (limit_of options))
  ∧ doubling (delays (retryableRequest
      (fail_then_succeed (length (operations st)) failures N value)
      clock random options st))
  ∧ nondecreasing (delays (retryableRequest
      (fail_then_succeed (length (operations st)) failures N value)
      clock random options st))
  ∧ result (retryableRequest
      (fail_then_succeed (length (operations st)) failures N value)
      clock random options st) =
    (if decide (N ≤ Z.to_nat (limit_of options))%nat then Fulfilled value
     else Rejected (failures (Z.to_nat (limit_of options))))
  ∧ (maxRetries options = None → limit_of options = 3)
  ∧ (retryDelay options = None → base_delay_of options = 1000).
Proof.
  intros Hlimit Hbase Htransient Hfresh.
  unfold retryableRequest.
  destruct (retryLoop_spec clock (limit_of options) (base_delay_of options)
              (condition_of options) (key_of clock random options)
              st failures N value Htransient Hfresh
              (Z.to_nat (limit_of options + 1)) 0%nat JsUndefined st)
    as (Hat & Hde & Hre & Hle & _); [lia|lia|lia|done|].
  cbv zeta in Hat, Hde, Hre, Hle. change (Z.of_nat 0) with 0 in *.
  replace (N - 0)%nat with N in * by lia.
  replace ((N `min` (Z.to_nat (limit_of options + 1) - 1)))%nat
    with (N `min` Z.to_nat (limit_of options))%nat in * by lia.
  rewrite Hat, Hde, Hre, Hle.
  split; [lia|]. split; [done|]. split; [lia|]. split; [done|].
  split; [apply backoff_doubling|]. split; [by apply backoff_nondecreasing|].
  split.
  - destruct (decide (N < Z.to_nat (limit_of options + 1))%nat);
      destruct (decide (N ≤ Z.to_nat (limit_of options))%nat); try lia; try done.
    do 2 f_equal. lia.
  - split; intros H; [unfold limit_of|unfold base_delay_of]; by rewrite H.
Qed.

Lemma retryableRequest_bounded_backoff_witness :
  0 <= limit_of no_options
  ∧ 0 <= base_delay_of no_options
  ∧ attempts (retryableRequest
      (fail_then_succeed 0 (λ _, JsObject true "TypeError" "Failed to fetch" None)
         2 (JsString "ok"))
      (λ _, 0) "0.5" no_options initial) = 3%nat
  ∧ delays (retryableRequest
      (fail_then_succeed 0 (λ _, JsObject true "TypeError" "Failed to fetch" None)
         2 (JsString "ok"))
      (λ _, 0) "0.5" no_options initial) = [1000; 2000].
Proof.
  assert (H1 : 0 <= limit_of no_options) by (vm_compute; discriminate).
  assert (H2 : 0 <= base_delay_of no_options) by (vm_compute; discriminate).
  split; [exact H1|]. split; [exact H2|].
  destruct (retryableRequest_bounded_backoff (λ _, 0) "0.5" no_options initial
              (λ _, JsObject true "TypeError" "Failed to fetch" None) 2
              (JsString "ok") H1 H2)
    as (_ & Ha & _ & Hd & _).
  - reflexivity.
  - intros i. apply lookup_empty.
  - split; [exact Ha|exact Hd].
Defined.

(** C7 as stated fails on the default: with no options the limit is
    3, not 2. Three failures in a row are followed by a fourth attempt,
    which succeeds, where a limit of 2 would have re-raised the third
    failure after three attempts. *)
Lemma retryableRequest_default_limit_is_three :
  attempts (retryableRequest
      (fail_then_succeed 0 (λ _, JsObject true "TypeError" "Failed to fetch" None)
         3 (JsString "ok"))
      (λ _, 0) "0.5" no_options initial) = 4%nat
  ∧ result (retryableRequest
      (fail_then_succeed 0 (λ _, JsObject true "TypeError" "Failed to fetch" None)
         3 (JsString "ok"))
      (λ _, 0) "0.5" no_options initial) = Fulfilled (JsString "ok")
  ∧ delays (retryableRequest
      (fail_then_succeed 0 (λ _, JsObject true "TypeError" "Failed to fetch" None)
         3 (JsString "ok"))
      (λ _, 0) "0.5" no_options initial) = [1000; 2000; 4000]
  ∧ ¬ (Z.of_nat (attempts (retryableRequest
      (fail_then_succeed 0 (λ _, JsObject true "TypeError" "Failed to fetch" None)
         3 (JsString "ok"))
      (λ _, 0) "0.5" no_options initial)) <= 2 + 1).
Proof. vm_compute. repeat split. intros H. apply H. reflexivity. Qed.

End Retry.

(** ** The credential store: setting, reading back, clearing *)

Section Session.
Import JsString TokenManager.

Implicit Types (env : Env) (st : State).

Lemma memory_setSecureItem env key value now st :
  accessToken (setSecureItem env key value now st) = accessToken st
  ∧ refreshToken (setSecureItem env key value now st) = refreshToken st.
Proof.
  unfold setSecureItem. by destruct (hasWindow env), (storageWorks env).
Qed.

Lemma memory_setTokens env access refresh now st :
  accessToken (setTokens env access refresh now st) = Some access
  ∧ refreshToken (setTokens env access refresh now st)
    = (if truthy refresh then refresh else refreshToken st).
Proof.
  unfold setTokens. cbv zeta.
  destruct (memory_setSecureItem env "tokenExpiry"
              (number_to_string (now + LIFETIME)) now
              (match refresh with
               | Some (c :: r) =>
                   setSecureItem env "refreshToken" (c :: r) now
                     (setSecureItem env "accessToken" access now
                        (with_tokens st (Some access)
                           (if truthy refresh then refresh else refreshToken st)))
               | _ =>
                   setSecureItem env "accessToken" access now
                     (with_tokens st (Some access)
                        (if truthy refresh then refresh else refreshToken st))
               end)) as [-> ->].
  destruct refresh as [[|c r]|];
    repeat match goal with
           | |- context [accessToken (setSecureItem ?e ?k ?v ?n ?s)] =>
               destruct (memory_setSecureItem e k v n s) as [-> ->]
           end; done.
Qed.

Lemma getSecureItem_storage env key st st' :
  storage st = storage st' →
  getSecureItem env key st = getSecureItem env key st'.
Proof. intros H. unfold getSecureItem. by rewrite H. Qed.

(** What [setSecureItem] leaves under another key. *)
Lemma getSecureItem_setSecureItem_ne env key key' value now st :
  key ≠ key' →
  getSecureItem env key' (setSecureItem env key value now st)
  = getSecureItem env key' st.
Proof.
  intros Hne. unfold getSecureItem, setSecureItem.
  destruct (hasWindow env), (storageWorks env); cbn [negb]; try done.
  cbn [storage with_storage]. by rewrite lookup_insert_ne.
Qed.

(** An item written is the item read back; only in production, where
    it goes through [TokenCrypto], must it be well formed and free of
    ['|']. *)
Lemma getSecureItem_written env key (value : jsstring) now st :
  usable env = true → value ≠ [] →
  (production env = true → well_formed value = true ∧ 124 ∉ value) →
  getSecureItem env key (setSecureItem env key value now st) = Some value.
Proof.
  unfold usable. intros [Hw Hs]%andb_true_iff Hne Hprod.
  destruct (production env) eqn:Hp.
  - destruct Hprod as [Hwf Hbar]; [done|].
    by apply getSecureItem_setSecureItem.
  - unfold getSecureItem, setSecureItem. rewrite Hw, Hs, Hp.
    cbn [negb storage with_storage]. rewrite lookup_insert_eq.
    by destruct value.
Qed.

Lemma getSecureItem_unusable env key st :
  usable env = false → getSecureItem env key st = None.
Proof.
  unfold usable, getSecureItem.
  by destruct (hasWindow env), (storageWorks env).
Qed.

Lemma stored_by_setTokens env access (c : Z) (r : jsstring) now st :
  usable env = true → access ≠ [] →
  (production env = true →
   (well_formed access = true ∧ 124 ∉ access)
   ∧ (well_formed (c :: r) = true ∧ 124 ∉ c :: r)) →
  getSecureItem env "accessToken" (setTokens env access (Some (c :: r)) now st)
    = Some access
  ∧ getSecureItem env "refreshToken" (setTokens env access (Some (c :: r)) now st)
    = Some (c :: r)
  ∧ getSecureItem env "tokenExpiry" (setTokens env access (Some (c :: r)) now st)
    = Some (number_to_string (now + LIFETIME)).
Proof.
  intros Hu Hne Hprod. unfold setTokens. cbv zeta.
  destruct (number_to_string_plain (now + LIFETIME)) as (Hplain & Hbar & Hnn).
  split; [|split].
  - rewrite !getSecureItem_setSecureItem_ne by done.
    apply getSecureItem_written; [done|done|]. intros Hp. by apply Hprod.
  - rewrite getSecureItem_setSecureItem_ne by done.
    apply getSecureItem_written; [done|done|]. intros Hp. by apply Hprod.
  - apply getSecureItem_written; [done|done|]. intros _.
    split; [by apply well_formed_plain|done].
Qed.

(** X1. Credentials set are the credentials read: after
    [setTokens(access, refresh)] with a non-empty access credential,
    [getAccessToken] answers [access], in any environment; where a
    non-empty refresh credential was given [getRefreshToken] answers
    it, and where none was given the refresh credential held before
    stays the answer. *)
Theorem setTokens_then_get env access refresh now st :
  access ≠ [] →
  (getAccessToken env (setTokens env access refresh now st)).2 = Some access
  ∧ (truthy refresh = true →
     (getRefreshToken env (setTokens env access refresh now st)).2 = refresh)
  ∧ (truthy refresh = false → truthy (refreshToken st) = true →
     (getRefreshToken env (setTokens env access refresh now st)).2
     = refreshToken st).
Proof.
  intros Hne.
  destruct (memory_setTokens env access refresh now st) as [Ha Hr].
  split; [|split].
  - unfold getAccessToken. rewrite Ha. by destruct access.
  - intros Ht. unfold getRefreshToken. rewrite Hr, Ht, Ht. done.
  - intros Ht Hold. unfold getRefreshToken. rewrite Hr, Ht, Hold. done.
Qed.

Lemma setTokens_then_get_witness :
  of_string "access-1" ≠ []
  ∧ (getAccessToken browser
       (setTokens browser (of_string "access-1") None 1700000000000
          (manager signed_in))).2 = Some (of_string "access-1")
  ∧ (getRefreshToken browser
       (setTokens browser (of_string "access-1") None 1700000000000
          (manager signed_in))).2 = Some (of_string "refresh-0").
Proof.
  assert (H : of_string "access-1" ≠ []) by discriminate.
  split; [exact H|].
  destruct (setTokens_then_get browser (of_string "access-1") None 1700000000000
              (manager signed_in) H) as (Ha & _ & Hr).
  split; [exact Ha|]. apply Hr; reflexivity.
Defined.

(** X2. Credentials survive a reload: where the Storage object can be
    used, a new manager over the storage that [setTokens] wrote reads
    back the access credential, the refresh credential and the expiry
    [now + 55 min]. Outside production any non-empty credentials do;
    in production, where they are stored through [TokenCrypto], they
    must be well formed and free of ['|']. *)
Theorem tokens_survive_reload env access (c : Z) (r : jsstring) now st :
  usable env = true → access ≠ [] →
  (production env = true →
   (well_formed access = true ∧ 124 ∉ access)
   ∧ (well_formed (c :: r) = true ∧ 124 ∉ c :: r)) →
  (getAccessToken env
     (newInstance (storage (setTokens env access (Some (c :: r)) now st)))).2
    = Some access
  ∧ (getRefreshToken env
       (newInstance (storage (setTokens env access (Some (c :: r)) now st)))).2
    = Some (c :: r)
  ∧ recorded_expiry env
      (newInstance (storage (setTokens env access (Some (c :: r)) now st)))
    = Some (now + LIFETIME).
Proof.
  intros Hu Hne Hprod.
  destruct (stored_by_setTokens env access c r now st Hu Hne Hprod)
    as (Ha & Hr & He).
  set (st' := setTokens env access (Some (c :: r)) now st) in *.
  assert (Hsame : storage (newInstance (storage st')) = storage st') by done.
  split; [|split].
  - unfold getAccessToken. cbn [accessToken newInstance truthy].
    cbv zeta. cbn [snd]. by rewrite (getSecureItem_storage _ _ _ _ Hsame).
  - unfold getRefreshToken. cbn [refreshToken newInstance truthy].
    cbv zeta. cbn [snd]. by rewrite (getSecureItem_storage _ _ _ _ Hsame).
  - unfold recorded_expiry. rewrite (getSecureItem_storage _ _ _ _ Hsame), He.
    destruct (number_to_string_plain (now + LIFETIME)) as (_ & _ & Hnn).
    destruct (number_to_string (now + LIFETIME)) as [|d ds] eqn:Hs; [done|].
    rewrite <- Hs. apply parseInt_number_to_string.
Qed.

Lemma tokens_survive_reload_witness :
  usable {| hasWindow := true; production := true; storageWorks := true |} = true
  ∧ (getAccessToken {| hasWindow := true; production := true; storageWorks := true |}
       (newInstance (storage
          (setTokens {| hasWindow := true; production := true; storageWorks := true |}
             (of_string "access-1") (Some (of_string "refresh-1")) 1700000000000
             (manager signed_out))))).2 = Some (of_string "access-1").
Proof.
  assert (Hu : usable {| hasWindow := true; production := true;
                         storageWorks := true |} = true) by reflexivity.
  split; [exact Hu|].
  assert (Hnin : ∀ s : string, 124 ∉ of_string s ↔
                   bool_decide (124 ∈ of_string s) = false).
  { intros s. by rewrite bool_decide_eq_false. }
  refine (proj1 (tokens_survive_reload
            {| hasWindow := true; production := true; storageWorks := true |}
            (of_string "access-1") 114 (of_string "efresh-1") 1700000000000
            (manager signed_out) Hu _ _)).
  - discriminate.
  - intros _. split; (split; [reflexivity|]).
    + apply (Hnin "access-1"). by vm_compute.
    + apply (Hnin "refresh-1"). by vm_compute.
Defined.

Lemma getSecureItem_cleared env key st :
  key ∈ stored_keys → getSecureItem env key (clearTokens env st) = None.
Proof. intros Hk. by apply clearTokens_clears. Qed.

Lemma getAccessToken_cleared env st :
  getAccessToken env (clearTokens env st)
  = (with_tokens (clearTokens env st) None None, None).
Proof.
  destruct (clearTokens_clears env st) as (Ha & Hr & Hget & _).
  unfold getAccessToken. rewrite Ha. cbn [truthy]. cbv zeta.
  rewrite !Hget by (unfold stored_keys; set_solver). done.
Qed.

Lemma clearTokens_reads_null env st :
  (getAccessToken env (clearTokens env st)).2 = None
  ∧ (getRefreshToken env (clearTokens env st)).2 = None.
Proof.
  destruct (clearTokens_clears env st) as (Ha & Hr & Hget & _).
  split; [by rewrite getAccessToken_cleared|].
  unfold getRefreshToken. rewrite Hr. cbn [truthy]. cbv zeta.
  rewrite Hget by (unfold stored_keys; set_solver). done.
Qed.

(** X3. After [clearTokens], in any environment and whatever was
    held: [getAccessToken] and [getRefreshToken] answer [null], the
    credential counts as expired and as expiring soon at every clock
    reading, and [validateSecurityState] answers true. *)
Theorem clearTokens_signs_out env st (t : Z) :
  (getAccessToken env (clearTokens env st)).2 = None
  ∧ (getRefreshToken env (clearTokens env st)).2 = None
  ∧ isTokenExpired env t (clearTokens env st) = true
  ∧ isTokenExpiringSoon env t (clearTokens env st) = true
  ∧ (validateSecurityState env t (clearTokens env st)).2 = true.
Proof.
  destruct (clearTokens_clears env st) as (Ha & Hr & Hget & _).
  destruct (clearTokens_reads_null env st) as [Hga Hgr].
  split; [done|]. split; [done|]. split.
  { unfold isTokenExpired. by rewrite Hget by (unfold stored_keys; set_solver). }
  split.
  { unfold isTokenExpiringSoon.
    by rewrite Hget by (unfold stored_keys; set_solver). }
  unfold validateSecurityState. cbv zeta. rewrite getAccessToken_cleared.
  cbn [fst snd truthy andb]. done.
Qed.

(** X4. The two expiry checks agree in order: a credential that
    counts as expired at [t] also counts as expiring soon at [t], and
    still counts as expired at every later clock reading. *)
Theorem expired_is_expiring_soon env st (t t' : Z) :
  isTokenExpired env t st = true →
  isTokenExpiringSoon env t st = true
  ∧ (t <= t' → isTokenExpired env t' st = true).
Proof.
  unfold isTokenExpired, isTokenExpiringSoon, at_or_after, EXPIRING_SOON_WINDOW.
  destruct (getSecureItem env "tokenExpiry" st) as [[|c r]|]; [done| |done].
  cbv zeta. destruct (parseInt (c :: r)) as [e|]; [|done].
  rewrite !Z.leb_le. lia.
Qed.

Lemma expired_is_expiring_soon_witness :
  isTokenExpired browser 1700003300000
    (setTokens browser (of_string "a") None 1700000000000 (manager signed_out))
  = true
  ∧ isTokenExpiringSoon browser 1700003300000
      (setTokens browser (of_string "a") None 1700000000000 (manager signed_out))
    = true.
Proof.
  assert (H : isTokenExpired browser 1700003300000
                (setTokens browser (of_string "a") None 1700000000000
                   (manager signed_out)) = true) by (by vm_compute).
  split; [exact H|].
  exact (proj1 (expired_is_expiring_soon browser _ 1700003300000 1700003300000 H)).
Defined.

Lemma isTokenExpired_after_setTokens env access refresh t0 t st :
  usable env = true →
  isTokenExpired env t (setTokens env access refresh t0 st)
  = (t0 + LIFETIME <=? t).
Proof.
  unfold usable. intros [Hw Hs]%andb_true_iff.
  pose proof (setTokens_records_expiry env access refresh t0 st Hw Hs) as Hrec.
  destruct (number_to_string_plain (t0 + LIFETIME)) as (_ & _ & Hne).
  unfold isTokenExpired. rewrite Hrec.
  destruct (number_to_string (t0 + LIFETIME)) as [|c r] eqn:Hs'; [done|].
  rewrite <- Hs'. apply at_or_after_number.
Qed.

(** X5. [validateSecurityState] after [setTokens]: where the Storage
    object can be used and both credentials given are non-empty, the
    state validates exactly until the recorded lifetime of 55 minutes
    is over. Where the Storage object cannot be used no expiry is ever
    on record, and a manager that holds an access credential never
    validates. *)
Theorem validateSecurityState_after_setTokens env access refresh t0 t st :
  access ≠ [] → truthy refresh = true →
  (usable env = true →
   ((validateSecurityState env t (setTokens env access refresh t0 st)).2 = true
    ↔ t < t0 + LIFETIME))
  ∧ (usable env = false →
     (validateSecurityState env t (setTokens env access refresh t0 st)).2 = false).
Proof.
  intros Hne Hr.
  destruct (memory_setTokens env access refresh t0 st) as [Ha Hrf].
  rewrite Hr in Hrf.
  set (st' := setTokens env access refresh t0 st) in *.
  assert (Hga : getAccessToken env st' = (st', Some access)).
  { unfold getAccessToken. rewrite Ha. by destruct access. }
  assert (Hgr : getRefreshToken env st' = (st', refresh)).
  { unfold getRefreshToken. by rewrite Hrf, Hr. }
  assert (Hta : truthy (Some access) = true) by by destruct access.
  unfold validateSecurityState. cbv zeta.
  rewrite Hga. cbn [fst snd]. rewrite Hgr. cbn [fst snd]. rewrite Hta, Hr.
  cbn [andb negb].
  split.
  - intros Hu. subst st'. rewrite isTokenExpired_after_setTokens by done.
    destruct (Z.leb_spec (t0 + LIFETIME) t); cbn [snd]; split; try done; lia.
  - intros Hu. unfold isTokenExpired.
    by rewrite getSecureItem_unusable by done.
Qed.

Lemma validateSecurityState_after_setTokens_witness :
  of_string "access-1" ≠ []
  ∧ (validateSecurityState browser 1700003299999
       (setTokens browser (of_string "access-1") (Some (of_string "refresh-1"))
          1700000000000 (manager signed_out))).2 = true
  ∧ (validateSecurityState
       {| hasWindow := true; production := false; storageWorks := false |}
       1700000000001
       (setTokens {| hasWindow := true; production := false; storageWorks := false |}
          (of_string "access-1") (Some (of_string "refresh-1"))
          1700000000000 (manager signed_out))).2 = false.
Proof.
  assert (H : of_string "access-1" ≠ []) by discriminate.
  split; [exact H|]. split.
  - apply (proj1 (validateSecurityState_after_setTokens browser
             (of_string "access-1") (Some (of_string "refresh-1"))
             1700000000000 1700003299999 (manager signed_out) H eq_refl)).
    + reflexivity.
    + unfold LIFETIME. lia.
  - apply (proj2 (validateSecurityState_after_setTokens
             {| hasWindow := true; production := false; storageWorks := false |}
             (of_string "access-1") (Some (of_string "refresh-1"))
             1700000000000 1700000000001 (manager signed_out) H eq_refl)).
    reflexivity.
Defined.

End Session.

(** ** The failure handler *)

Section Handler.
Import ErrorClassifier TokenManager SignOut ErrorHandler.

Implicit Types (env : Env) (page : Page) (st : State)
               (options : ErrorHandlingOptions).

Lemma messageMap_not_empty (t : ErrorType) : messageMap t ≠ "".
Proof. by destruct t. Qed.

Lemma toast_message_fixed (se : StructuredError) :
  toast_message se = messageMap (type se).
Proof.
  unfold toast_message, or_else.
  destruct (decide (messageMap (type se) = "")) as [He|]; [|done].
  by destruct (messageMap_not_empty (type se)).
Qed.

Lemma run_handler_shows_nothing env page t st message eff :
  eff ∈ (run_handler env page t st).1.1 → ¬ shows message eff.
Proof.
  destruct t; cbn [run_handler fst];
    intros ->%list_elem_of_singleton [?|?]; discriminate.
Qed.

(** X6. The text [handle] shows is that of the kind, never that of
    the failure. Let the custom handler, if one is given, leave the
    kind of the object it is handed and the [silent] and [showToast]
    options as they are. Then whenever the call of [handle] shows a
    message, in a toast or on the console in place of one, the
    message is the fixed text [messageMap] has for the kind of the
    classified failure; the failure's own message, such as one the
    server sent, is not used. A message is shown exactly when
    [showToast] is not [false] and [silent] is not set. *)
Theorem handle_shows_fixed_text env page error options st se :
  classify error = Returns se →
  keeps_kind page se options st → keeps_options page se options st →
  (∀ message eff, eff ∈ trace (handle env page error options st) →
     shows message eff → message = messageMap (type se))
  ∧ ((∃ message eff, eff ∈ trace (handle env page error options st)
                     ∧ shows message eff)
     ↔ showToast options ≠ Some false ∧ silent options ≠ Some true).
Proof.
  intros Hse Hkind [Hsilent Hshow]. unfold handle. rewrite Hse. cbn [trace].
  unfold keeps_kind in Hkind. rewrite Hsilent, Hshow, Hkind.
  set (ran := run_customHandler page se options st) in *.
  set (logged := if bool_decide (logError options = Some false) then []
                 else [Logged (log_level (type se)) se]).
  set (custom := match ran.2 with
                 | Some handlerError => [CustomHandlerFailed handlerError]
                 | None => []
                 end).
  assert (Hlogged : ∀ message eff, eff ∈ logged → ¬ shows message eff).
  { intros message eff. subst logged. case_bool_decide.
    - by intros ?%elem_of_nil.
    - intros ->%list_elem_of_singleton [?|?]; discriminate. }
  assert (Hcustom : ∀ message eff, eff ∈ custom → ¬ shows message eff).
  { intros message eff. subst custom.
    destruct (ran.2); [|by intros ?%elem_of_nil].
    intros ->%list_elem_of_singleton [?|?]; discriminate. }
  assert (Hhandled : ∀ message eff,
            eff ∈ (if bool_decide (silent options = Some true)
                   then ([], manager_now ran.1, None)
                   else run_handler env (page_now ran.1) (type se)
                          (manager_now ran.1)).1.1 →
            ¬ shows message eff).
  { intros message eff. case_bool_decide.
    - by intros ?%elem_of_nil.
    - apply run_handler_shows_nothing. }
  assert (Htext : toast_message (error_now ran.1) = messageMap (type se))
    by (by rewrite toast_message_fixed, Hkind).
  split.
  - intros message eff Hin Hshows.
    rewrite !elem_of_app in Hin.
    destruct Hin as [Hin|[Hin|[Hin|Hin]]].
    + by destruct (Hlogged message eff Hin).
    + by destruct (Hcustom message eff Hin).
    + by destruct (Hhandled message eff Hin).
    + destruct (negb _ && negb _); [|by apply elem_of_nil in Hin].
      apply list_elem_of_singleton in Hin as ->.
      rewrite <- Htext. unfold showErrorToast in Hshows.
      destruct (toastInstance_now ran.1), Hshows as [Hs|Hs]; congruence.
  - split.
    + intros (message & eff & Hin & Hshows).
      rewrite !elem_of_app in Hin.
      destruct Hin as [Hin|[Hin|[Hin|Hin]]].
      * by destruct (Hlogged message eff Hin).
      * by destruct (Hcustom message eff Hin).
      * by destruct (Hhandled message eff Hin).
      * do 2 case_bool_decide; cbn [negb andb] in Hin;
          try (by apply elem_of_nil in Hin). done.
    + intros [Hs1 Hs2].
      exists (toast_message (error_now ran.1)),
             (showErrorToast (error_now ran.1) (toastInstance_now ran.1)).
      split.
      * rewrite !elem_of_app. do 3 right.
        rewrite bool_decide_eq_false_2, (bool_decide_eq_false_2 _ Hs2) by done.
        cbn [negb andb]. by apply list_elem_of_singleton.
      * unfold showErrorToast, shows.
        destruct (toastInstance_now ran.1); [by left|by right].
Qed.

Lemma handle_shows_fixed_text_witness :
  classify (JsObject true "HTTPError" "email must be an email"
              (Some (Some {| status := 422 |})))
  = Returns {| type := VALIDATION_ERROR; status_code := Some 422;
               message_text := "email must be an email";
               originalError := JsObject true "HTTPError" "email must be an email"
                                  (Some (Some {| status := 422 |})) |}
  ∧ ∀ message eff,
      eff ∈ trace (handle browser {| currentPath := "/users"; storeAvailable := true |}
                     (JsObject true "HTTPError" "email must be an email"
                        (Some (Some {| status := 422 |})))
                     (throwing_handler (JsString "handler failed"))
                     (manager signed_in)) →
      shows message eff → message = ERROR_MESSAGES.VALIDATION_ERROR.
Proof.
  assert (H : classify (JsObject true "HTTPError" "email must be an email"
                          (Some (Some {| status := 422 |})))
              = Returns {| type := VALIDATION_ERROR; status_code := Some 422;
                           message_text := "email must be an email";
                           originalError :=
                             JsObject true "HTTPError" "email must be an email"
                               (Some (Some {| status := 422 |})) |})
    by reflexivity.
  split; [exact H|].
  refine (proj1 (handle_shows_fixed_text browser
                   {| currentPath := "/users"; storeAvailable := true |}
                   _ (throwing_handler (JsString "handler failed"))
                   (manager signed_in) _ H _ _)).
  - reflexivity.
  - split; reflexivity.
Defined.

Lemma classify_authentication (error : JsValue) (se : StructuredError) :
  classify error = Returns se →
  (type se = AUTHENTICATION_ERROR ↔ http_failure error 401).
Proof.
  intros Hse. split.
  - destruct error as [| | b | n | s | isError name message [[[code]|]|]];
      simpl in Hse; try (injection Hse as <-; discriminate); try done.
    + injection Hse as <-. cbn [type]. rewrite getErrorTypeByStatus_table.
      unfold decision_table.
      destruct (decide (code = 401)) as [->|_];
        [intros _; by exists isError, name, message|].
      repeat (destruct (decide _); [discriminate|]). discriminate.
    + destruct isError; [|injection Hse as <-; discriminate].
      destruct (bool_decide _ && includes _ _);
        injection Hse as <-; discriminate.
  - intros (isError & name & message & ->).
    rewrite classify_http in Hse. by injection Hse as <-.
Qed.

(** X7. Handling signs the user out for HTTP 401 and for nothing
    else. Let the custom handler, if one is given, leave the kind of
    the object it is handed, the [silent] and [showToast] options, the
    token manager and the page as they are. When [handle] is not
    silent and
    the failure is HTTP-shaped with status 401, the manager is left
    without credentials ([getAccessToken] and [getRefreshToken] answer
    [null]), and in a window a redirect to [/auth/signin] is scheduled
    after 1000 ms unless the page is [/] or under [/auth/]. For a
    failure of any other kind, and for any failure when [silent] is
    set, the manager is left as it was and nothing is redirected. *)
Theorem handle_signs_out_on_401 env page error options st se :
  classify error = Returns se →
  keeps_kind page se options st → keeps_options page se options st →
  keeps_manager page se options st →
  (http_failure error 401 → silent options ≠ Some true →
     (getAccessToken env (manager_left (handle env page error options st))).2 = None
     ∧ (getRefreshToken env (manager_left (handle env page error options st))).2 = None
     ∧ redirected (handle env page error options st)
       = (if hasWindow env && negb (isAuthPage (currentPath page))
          then Some (1000, "/auth/signin"%string) else None))
  ∧ ((¬ http_failure error 401 ∨ silent options = Some true) →
       manager_left (handle env page error options st) = st
       ∧ redirected (handle env page error options st) = None).
Proof.
  intros Hse Hkind [Hquiet _] [Hmanager Hpage].
  pose proof (classify_authentication error se Hse) as Hauth.
  unfold handle. rewrite Hse. cbn [manager_left redirected].
  unfold keeps_kind in Hkind. rewrite Hquiet, Hkind, Hmanager, Hpage.
  split.
  - intros H401 Hsilent. rewrite (bool_decide_eq_false_2 _ Hsilent).
    apply Hauth in H401. rewrite H401. cbn [run_handler fst snd].
    unfold handleUnauthorizedError. cbv zeta.
    destruct (clearTokens_reads_null env st) as [Ha Hr].
    destruct (clearTokens_reads_null env (clearTokens env st)) as [Ha' Hr'].
    destruct (hasWindow env); cbn [manager_after redirect andb].
    + split; [by destruct (storeAvailable page)|].
      split; [by destruct (storeAvailable page)|]. by destruct (isAuthPage _).
    + done.
  - intros [Hnot|Hsilent].
    + case_bool_decide; [done|].
      assert (type se ≠ AUTHENTICATION_ERROR) as Hty by (by rewrite Hauth).
      by destruct (type se).
    + by rewrite (bool_decide_eq_true_2 _ Hsilent).
Qed.

Lemma handle_signs_out_on_401_witness :
  classify (JsObject true "HTTPError" "Unauthorized" (Some (Some {| status := 401 |})))
  = Returns {| type := AUTHENTICATION_ERROR; status_code := Some 401;
               message_text := "Unauthorized";
               originalError := JsObject true "HTTPError" "Unauthorized"
                                  (Some (Some {| status := 401 |})) |}
  ∧ (getAccessToken browser
       (manager_left (handle browser {| currentPath := "/users"; storeAvailable := true |}
          (JsObject true "HTTPError" "Unauthorized" (Some (Some {| status := 401 |})))
          (throwing_handler (JsString "handler failed"))
          (manager signed_in)))).2 = None
  ∧ redirected (handle browser {| currentPath := "/users"; storeAvailable := true |}
      (JsObject true "HTTPError" "Unauthorized" (Some (Some {| status := 401 |})))
      (throwing_handler (JsString "handler failed"))
      (manager signed_in)) = Some (1000, "/auth/signin"%string).
Proof.
  assert (H : classify (JsObject true "HTTPError" "Unauthorized"
                          (Some (Some {| status := 401 |})))
              = Returns {| type := AUTHENTICATION_ERROR; status_code := Some 401;
                           message_text := "Unauthorized";
                           originalError := JsObject true "HTTPError" "Unauthorized"
                                              (Some (Some {| status := 401 |})) |})
    by reflexivity.
  split; [exact H|].
  destruct (handle_signs_out_on_401 browser
              {| currentPath := "/users"; storeAvailable := true |}
              _ (throwing_handler (JsString "handler failed"))
              (manager signed_in) _ H) as [Hout _].
  - reflexivity.
  - split; reflexivity.
  - split; reflexivity.
  - destruct Hout as (Ha & _ & Hr).
    + by exists true, "HTTPError"%string, "Unauthorized"%string.
    + discriminate.
    + split; [exact Ha|exact Hr].
Defined.

End Handler.

(** ** The deduplication registry: cancelling, sweeping, liveness of entries *)

Section RegistryMore.
Import RequestDeduplicator.

Implicit Types (st : State) (key : string) (request : Entry).

Lemma aborted_by_cancelAll (ab0 : gset nat) (m : gmap string Entry) (c : nat) :
  c ∈ map_fold (λ _ request acc, {[controller request]} ∪ acc) ab0 m ↔
  c ∈ ab0 ∨ ∃ key request, m !! key = Some request ∧ controller request = c.
Proof.
  apply (map_fold_weak_ind (λ acc m,
    c ∈ acc ↔ c ∈ ab0 ∨ ∃ key request, m !! key = Some request
                                        ∧ controller request = c)); clear m.
  - split; [by left|]. intros [?|(? & ? & H & _)]; [done|].
    by rewrite lookup_empty in H.
  - intros i x m acc Hi IH. rewrite elem_of_union, elem_of_singleton, IH.
    split.
    + intros [->|[?|(key & request & Hr & Hc)]].
      * right. exists i, x. by rewrite lookup_insert_eq.
      * by left.
      * right. exists key, request. split; [|done].
        rewrite lookup_insert_ne; [done|]. intros ->. congruence.
    + intros [?|(key & request & Hr & Hc)]; [by right; left|].
      destruct (decide (i = key)) as [->|Hne].
      * rewrite lookup_insert_eq in Hr. injection Hr as ->. by left.
      * rewrite lookup_insert_ne in Hr by done. right; right. eauto.
Qed.

Lemma aborted_by_cleanup now st (c : nat) :
  c ∈ aborted (cleanupExpiredRequests now st) ↔
  c ∈ aborted st ∨ ∃ key request, pendingRequests st !! key = Some request
                                  ∧ expired_at now request
                                  ∧ controller request = c.
Proof.
  destruct (sweep_fold_spec now (aborted st) (pendingRequests st)) as [_ Hc].
  apply Hc.
Qed.

Lemma lookup_cleanup now st key request :
  pendingRequests (cleanupExpiredRequests now st) !! key = Some request ↔
  pendingRequests st !! key = Some request ∧ ¬ expired_at now request.
Proof. rewrite cleanup_pending. by rewrite map_lookup_filter_Some. Qed.

(** X10. [cancelRequest(key)]: with no entry under [key] it answers
    [false] and changes nothing; with one it answers [true], calls
    [abort()] on that entry's controller and on no other, removes the
    entry and leaves every other entry in place, so that one request
    fewer is pending. The operation itself is not settled by it. *)
Theorem cancelRequest_cancels_one key st :
  (pendingRequests st !! key = None →
     cancelRequest key st = (st, false))
  ∧ (∀ request, pendingRequests st !! key = Some request →
       (cancelRequest key st).2 = true
       ∧ pendingRequests (cancelRequest key st).1 !! key = None
       ∧ (∀ key', key' ≠ key →
            pendingRequests (cancelRequest key st).1 !! key'
            = pendingRequests st !! key')
       ∧ (∀ c, c ∈ aborted (cancelRequest key st).1 ↔
               c = controller request ∨ c ∈ aborted st)
       ∧ operations (cancelRequest key st).1 = operations st
       ∧ S (pendingCount (cancelRequest key st).1) = pendingCount st).
Proof.
  unfold cancelRequest. split.
  - by intros ->.
  - intros request Hr. rewrite Hr. cbn [fst snd pendingRequests aborted operations].
    split; [done|]. split; [apply lookup_delete_eq|]. split.
    { intros key' Hne. by rewrite lookup_delete_ne. }
    split; [intros c; set_solver|]. split; [done|].
    unfold pendingCount. cbn [pendingRequests].
    rewrite map_size_delete, Hr.
    assert (size (pendingRequests st) ≠ 0%nat); [|lia].
    intros Hz. apply map_size_empty_inv in Hz. rewrite Hz in Hr.
    by rewrite lookup_empty in Hr.
Qed.

Lemma cancelRequest_cancels_one_witness :
  pendingRequests (run [Deduplicate "GET:/users:" 0] initial).1 !! "GET:/posts:" = None
  ∧ cancelRequest "GET:/posts:" (run [Deduplicate "GET:/users:" 0] initial).1
    = ((run [Deduplicate "GET:/users:" 0] initial).1, false).
Proof.
  assert (H : pendingRequests (run [Deduplicate "GET:/users:" 0] initial).1
              !! "GET:/posts:" = None) by reflexivity.
  split; [exact H|].
  exact (proj1 (cancelRequest_cancels_one "GET:/posts:" _) H).
Defined.

(** X11. [cancelAllRequests()] leaves no request pending and calls
    [abort()] on the controller of every entry there was, and on no
    other; the operations are not settled by it. *)
Theorem cancelAllRequests_cancels_all st :
  pendingRequests (cancelAllRequests st) = ∅
  ∧ pendingCount (cancelAllRequests st) = 0%nat
  ∧ (∀ c, c ∈ aborted (cancelAllRequests st) ↔
          c ∈ aborted st
          ∨ ∃ key request, pendingRequests st !! key = Some request
                           ∧ controller request = c)
  ∧ operations (cancelAllRequests st) = operations st.
Proof.
  split; [done|]. split; [done|]. split; [|done].
  intros c. apply aborted_by_cancelAll.
Qed.

(** X12. The sweep absorbs: a sweep at [now'] after a sweep at an
    earlier or equal clock reading [now] leaves the registry exactly
    as the sweep at [now'] alone does; in particular sweeping twice at
    one clock reading is sweeping once. *)
Theorem cleanupExpiredRequests_absorbs now now' st :
  now <= now' →
  cleanupExpiredRequests now' (cleanupExpiredRequests now st)
  = cleanupExpiredRequests now' st.
Proof.
  intros Hle.
  assert (Hmono : ∀ request, expired_at now request → expired_at now' request).
  { unfold expired_at. intros request. lia. }
  assert (Hp : pendingRequests (cleanupExpiredRequests now'
                                  (cleanupExpiredRequests now st))
               = pendingRequests (cleanupExpiredRequests now' st)).
  { apply map_eq. intros key. apply option_eq. intros request.
    rewrite !lookup_cleanup. split.
    - intros [[Hr _] Hy]. done.
    - intros [Hr Hy]. split; [split; [done|]|done].
      intros He0. apply Hy. by apply Hmono. }
  assert (Ha : aborted (cleanupExpiredRequests now'
                          (cleanupExpiredRequests now st))
               = aborted (cleanupExpiredRequests now' st)).
  { apply set_eq. intros c. rewrite !aborted_by_cleanup. split.
    - intros [[?|(key & request & Hr & He & Hc)]|(key & request & Hr & He & Hc)].
      + by left.
      + right. exists key, request. auto.
      + apply lookup_cleanup in Hr as [Hr _]. right. eauto.
    - intros [?|(key & request & Hr & He & Hc)]; [by left; left|].
      destruct (decide (expired_at now request)) as [He0|Hy].
      + left. right. eauto.
      + right. exists key, request. split; [|done].
        by apply lookup_cleanup. }
  destruct (cleanupExpiredRequests now' (cleanupExpiredRequests now st))
    as [p1 o1 a1] eqn:H1.
  destruct (cleanupExpiredRequests now' st) as [p2 o2 a2] eqn:H2.
  cbn [pendingRequests aborted] in Hp, Ha. subst p2 a2. f_equal.
  assert (operations (cleanupExpiredRequests now' (cleanupExpiredRequests now st))
          = operations (cleanupExpiredRequests now' st)) as Ho by done.
  by rewrite H1, H2 in Ho.
Qed.

Lemma cleanupExpiredRequests_absorbs_witness :
  30001 <= 30001
  ∧ cleanupExpiredRequests 30001
      (cleanupExpiredRequests 30001
         (run [Deduplicate "GET:/users:" 0; Deduplicate "GET:/posts:" 10] initial).1)
    = cleanupExpiredRequests 30001
        (run [Deduplicate "GET:/users:" 0; Deduplicate "GET:/posts:" 10] initial).1.
Proof.
  assert (H : 30001 <= 30001) by lia.
  split; [exact H|].
  exact (cleanupExpiredRequests_absorbs 30001 30001 _ H).
Defined.

Lemma entries_live_initial : entries_live initial.
Proof.
  split.
  - intros key request H. cbn [initial pendingRequests] in H.
    by rewrite lookup_empty in H.
  - intros c H. cbn [initial aborted] in H. by apply elem_of_empty in H.
Qed.

Lemma entries_live_deduplicate key now st :
  entries_live st → entries_live (deduplicate key now st).1.
Proof.
  intros [He Ha]. unfold deduplicate.
  destruct (pendingRequests st !! key) as [existing|] eqn:Hk; [done|].
  cbn [fst]. split; cbn [pendingRequests operations aborted].
  - intros key' request Hr.
    destruct (decide (key = key')) as [<-|Hne].
    + rewrite lookup_insert_eq in Hr. injection Hr as <-.
      cbn [controller promise]. split; [done|]. split.
      * by rewrite lookup_app_r, Nat.sub_diag.
      * intros Hin. apply Ha in Hin. lia.
    + rewrite lookup_insert_ne in Hr by done.
      destruct (He key' request Hr) as (Hc & Hop & Hab).
      split; [done|]. split; [|done].
      rewrite lookup_app_l; [done|]. by eapply lookup_lt_Some.
  - intros c Hin. apply Ha in Hin. rewrite length_app. simpl. lia.
Qed.

Lemma entries_live_settle id outcome st :
  entries_live st → entries_live (settle id outcome st).
Proof.
  intros [He Ha]. unfold settle.
  destruct (operations st !! id) as [op|] eqn:Hid; [|done].
  destruct (settled op) eqn:Hs; [done|].
  split; cbn [pendingRequests operations aborted].
  - intros key request Hr.
    destruct (decide (op_key op = key)) as [<-|Hne];
      [by rewrite lookup_delete_eq in Hr|].
    rewrite lookup_delete_ne in Hr by done.
    destruct (He key request Hr) as (Hc & Hop & Hab).
    split; [done|]. split; [|done].
    rewrite list_lookup_insert_ne; [done|].
    intros ->. rewrite Hid in Hop. injection Hop as ->. done.
  - intros c Hin. rewrite length_insert. by apply Ha.
Qed.

Lemma entries_distinct st key key' request request' :
  entries_live st →
  pendingRequests st !! key = Some request →
  pendingRequests st !! key' = Some request' →
  controller request = controller request' → key = key'.
Proof.
  intros [He _] Hr Hr' Hc.
  destruct (He _ _ Hr) as (H1 & Hop & _), (He _ _ Hr') as (H1' & Hop' & _).
  rewrite <- H1, Hc, H1', Hop' in Hop. by injection Hop.
Qed.

Lemma entries_live_cancelRequest key st :
  entries_live st → entries_live (cancelRequest key st).1.
Proof.
  intros Hlive. pose proof Hlive as [He Ha]. unfold cancelRequest.
  destruct (pendingRequests st !! key) as [request|] eqn:Hk; [|done].
  split; cbn [fst pendingRequests operations aborted].
  - intros key' request' Hr.
    destruct (decide (key = key')) as [<-|Hne];
      [by rewrite lookup_delete_eq in Hr|].
    rewrite lookup_delete_ne in Hr by done.
    destruct (He key' request' Hr) as (Hc & Hop & Hab).
    split; [done|]. split; [done|].
    intros [Heq%elem_of_singleton|?]%elem_of_union; [|done].
    apply Hne. symmetry. by apply (entries_distinct st key' key request' request).
  - intros c [->%elem_of_singleton|Hin]%elem_of_union; [|by apply Ha].
    destruct (He key request Hk) as (-> & Hop & _). by eapply lookup_lt_Some.
Qed.

Lemma entries_live_cancelAll st :
  entries_live st → entries_live (cancelAllRequests st).
Proof.
  intros [He Ha]. split; cbn [cancelAllRequests pendingRequests operations aborted].
  - intros key request H. by rewrite lookup_empty in H.
  - intros c [?|(key & request & Hr & <-)]%aborted_by_cancelAll; [by apply Ha|].
    destruct (He key request Hr) as (-> & Hop & _). by eapply lookup_lt_Some.
Qed.

Lemma entries_live_cleanup now st :
  entries_live st → entries_live (cleanupExpiredRequests now st).
Proof.
  intros Hlive. pose proof Hlive as [He Ha]. split.
  - intros key request [Hr Hy]%lookup_cleanup.
    destruct (He key request Hr) as (Hc & Hop & Hab).
    split; [done|]. split; [done|].
    intros [?|(key' & request' & Hr' & He' & Hc')]%aborted_by_cleanup; [done|].
    assert (key' = key) as ->
      by by apply (entries_distinct st key' key request' request).
    assert (request' = request) as -> by congruence. done.
  - intros c [?|(key & request & Hr & _ & <-)]%aborted_by_cleanup;
      [by apply Ha|].
    destruct (He key request Hr) as (-> & Hop & _).
    change (operations (cleanupExpiredRequests now st)) with (operations st).
    by eapply lookup_lt_Some.
Qed.

Lemma entries_live_step ev st :
  entries_live st → entries_live (step ev st).1.
Proof.
  destruct ev; cbn [step fst].
  - apply entries_live_deduplicate.
  - apply entries_live_settle.
  - apply entries_live_cancelRequest.
  - apply entries_live_cancelAll.
  - apply entries_live_cleanup.
Qed.

Lemma entries_live_run evs : ∀ st,
  entries_live st → entries_live (run evs st).1.
Proof.
  induction evs as [|ev evs IH]; intros st Hlive; [done|].
  cbn [run fst]. apply IH. by apply entries_live_step.
Qed.

(** X13. The registry never hands out a finished or cancelled
    request. In every registry that calls of [deduplicate], settlements,
    [cancelRequest], [cancelAllRequests] and sweeps lead to from the
    empty one, each registered entry belongs to an operation that is
    still running and whose controller has not been aborted; so the
    promise [deduplicate] returns, be it new or shared, is at that
    moment unsettled, and its request has not been cancelled. *)
Theorem deduplicate_hands_out_live_request evs key now :
  entries_live (run evs initial).1
  ∧ running (deduplicate key now (run evs initial).1).2
            (deduplicate key now (run evs initial).1).1
  ∧ ((deduplicate key now (run evs initial).1).2
     ∉ aborted (deduplicate key now (run evs initial).1).1)
  ∧ outcome_of (deduplicate key now (run evs initial).1).2
               (deduplicate key now (run evs initial).1).1 = None.
Proof.
  pose proof (entries_live_run evs initial entries_live_initial) as Hlive.
  split; [done|].
  pose proof (entries_live_deduplicate key now _ Hlive) as [He' _].
  assert (Hk : ∃ request,
             pendingRequests (deduplicate key now (run evs initial).1).1 !! key
             = Some request
             ∧ promise request = (deduplicate key now (run evs initial).1).2).
  { unfold deduplicate.
    destruct (pendingRequests (run evs initial).1 !! key) as [existing|] eqn:Hk.
    - cbn [fst snd]. eauto.
    - cbn [fst snd pendingRequests]. rewrite lookup_insert_eq. eauto. }
  destruct Hk as (request & Hr & Hp).
  destruct (He' key request Hr) as (Hc & Hop & Hab).
  rewrite Hc, Hp in *. split; [|split; [done|]].
  - eexists. split; [exact Hop|done].
  - unfold outcome_of. by rewrite Hop.
Qed.

End RegistryMore.

(** ** Debouncing *)

Section Debouncing.
Import Debounce.

Implicit Types (st : State) (key : string) (ts : list Timer) (t : Timer).

Lemma clearTimeout_length id ts : length (clearTimeout id ts) = length ts.
Proof.
  unfold clearTimeout. destruct (ts !! id) as [t|]; [|done].
  case_decide; [by rewrite length_insert|done].
Qed.

Lemma clearTimeout_other id ts i : i ≠ id → clearTimeout id ts !! i = ts !! i.
Proof.
  intros Hne. unfold clearTimeout. destruct (ts !! id) as [t|]; [|done].
  case_decide; [by rewrite list_lookup_insert_ne|done].
Qed.

Lemma clearTimeout_unarmed id ts i t :
  ts !! i = Some t → status t ≠ Armed → clearTimeout id ts !! i = Some t.
Proof.
  intros Hi Hs. destruct (decide (i = id)) as [->|Hne];
    [|by rewrite clearTimeout_other].
  unfold clearTimeout. rewrite Hi. by rewrite decide_False.
Qed.

Lemma clearTimeout_armed id ts t :
  ts !! id = Some t → status t = Armed →
  clearTimeout id ts !! id = Some (with_status t Cleared).
Proof.
  intros Hi Hs. unfold clearTimeout. rewrite Hi, decide_True by done.
  apply list_lookup_insert_eq. by eapply lookup_lt_Some.
Qed.

Lemma cleared_length st key :
  length (match debounceTimers st !! key with
          | Some existingTimer => clearTimeout existingTimer (timers st)
          | None => timers st
          end) = length (timers st).
Proof. destruct (debounceTimers st !! key); by rewrite ?clearTimeout_length. Qed.

(** What the loop of [clearAll] leaves of a timer. *)
Lemma clearAll_timers (m : gmap string nat) ts i t :
  ts !! i = Some t →
  (status t ≠ Armed →
   map_fold (λ _ timer ts, clearTimeout timer ts) ts m !! i = Some t)
  ∧ (status t = Armed →
     map_fold (λ _ timer ts, clearTimeout timer ts) ts m !! i
       = Some (with_status t Cleared)
     ∨ (map_fold (λ _ timer ts, clearTimeout timer ts) ts m !! i = Some t
        ∧ ∀ k, m !! k ≠ Some i)).
Proof.
  intros Hi.
  apply (map_fold_weak_ind (λ acc m,
    (status t ≠ Armed → acc !! i = Some t)
    ∧ (status t = Armed →
       acc !! i = Some (with_status t Cleared)
       ∨ (acc !! i = Some t ∧ ∀ k, m !! k ≠ Some i)))); clear m.
  - split; [done|]. intros _. right. split; [done|].
    intros k. by rewrite lookup_empty.
  - intros k id m acc Hk [IH1 IH2]. split.
    + intros Hs. apply clearTimeout_unarmed; auto.
    + intros Hs. destruct (IH2 Hs) as [Hc|[Hsame Hnot]].
      * left. by apply clearTimeout_unarmed.
      * destruct (decide (i = id)) as [->|Hne].
        -- left. by apply clearTimeout_armed.
        -- right. rewrite clearTimeout_other by done. split; [done|].
           intros k'. destruct (decide (k = k')) as [->|Hkk].
           ++ rewrite lookup_insert_eq. congruence.
           ++ rewrite lookup_insert_ne by done. apply Hnot.
Qed.

(** A cleared timer stays as it is, whatever comes. *)
Lemma cleared_stable ev st i t :
  timers st !! i = Some t → status t = Cleared →
  timers (step ev st) !! i = Some t.
Proof.
  intros Hi Hs.
  assert (Hna : status t ≠ Armed) by (rewrite Hs; discriminate).
  destruct ev as [key delay|id|id outcome|]; cbn [step].
  - unfold call. cbn [fst timers].
    rewrite lookup_app_l.
    + destruct (debounceTimers st !! key); [|done].
      by apply clearTimeout_unarmed.
    + rewrite cleared_length. by eapply lookup_lt_Some.
  - unfold fire. destruct (timers st !! id) as [t'|] eqn:Hid; [|done].
    case_decide as Ha; [|done]. cbn [timers].
    rewrite list_lookup_insert_ne; [done|]. intros ->. congruence.
  - unfold settle. destruct (timers st !! id) as [t'|] eqn:Hid; [|done].
    destruct (status t') eqn:Hst; try done.
    destruct (settled t'); [done|]. cbn [timers].
    rewrite list_lookup_insert_ne; [done|]. intros ->. congruence.
  - unfold clearAll. cbn [timers].
    by apply (clearAll_timers (debounceTimers st) (timers st) i t Hi).
Qed.

Lemma cleared_stable_run evs : ∀ st i t,
  timers st !! i = Some t → status t = Cleared →
  timers (run evs st) !! i = Some t.
Proof.
  induction evs as [|ev evs IH]; intros st i t Hi Hs; [done|].
  cbn [run foldl]. apply IH; [|done]. by apply cleared_stable.
Qed.

Lemma registered_armed_step ev st :
  registered_armed st → registered_armed (step ev st).
Proof.
  intros [Hreg Hpend].
  destruct ev as [key delay|id|id outcome|]; cbn [step].
  - (* call *)
    unfold call. cbn [fst]. split; cbn [debounceTimers timers].
    + intros key' i Hi. destruct (decide (key = key')) as [<-|Hne].
      * rewrite lookup_insert_eq in Hi. injection Hi as <-.
        exists {| timer_key := key; timer_delay := delay;
                  status := Armed; settled := None |}.
        split; [|done]. cbn [timers].
        rewrite lookup_app_r by (rewrite cleared_length; lia).
        by rewrite cleared_length, Nat.sub_diag.
      * rewrite lookup_insert_ne in Hi by done.
        destruct (Hreg key' i Hi) as (t & Ht & Hk & Hs).
        exists t. split; [|done]. cbn [timers].
        rewrite lookup_app_l.
        -- destruct (debounceTimers st !! key) as [existing|] eqn:He; [|done].
           rewrite clearTimeout_other; [done|]. intros ->.
           destruct (Hreg key existing He) as (t' & Ht' & Hk' & _). congruence.
        -- rewrite cleared_length. by eapply lookup_lt_Some.
    + intros i t Hi Hs.
      destruct (decide (i < length (timers st))%nat) as [Hlt|Hge].
      * rewrite lookup_app_l in Hi
          by (by rewrite cleared_length).
        destruct (debounceTimers st !! key) as [existing|]; [|by eapply Hpend].
        destruct (decide (i = existing)) as [->|Hne];
          [|rewrite clearTimeout_other in Hi by done; by eapply Hpend].
        unfold clearTimeout in Hi.
        destruct (timers st !! existing) as [t'|] eqn:Ht'; [|congruence].
        case_decide as Ha.
        -- rewrite list_lookup_insert_eq in Hi by by eapply lookup_lt_Some.
           injection Hi as <-. cbn [with_status settled].
           eapply Hpend; [done|]. rewrite Ha. discriminate.
        -- rewrite Ht' in Hi. injection Hi as <-. by eapply Hpend.
      * rewrite lookup_app_r in Hi
          by (rewrite cleared_length; lia).
        apply list_lookup_singleton_Some in Hi as [_ <-]. done.
  - (* fire *)
    unfold fire. destruct (timers st !! id) as [t'|] eqn:Hid; [|done].
    case_decide as Ha; [|done]. split; cbn [debounceTimers timers].
    + intros key i Hi.
      destruct (decide (timer_key t' = key)) as [<-|Hne];
        [by rewrite lookup_delete_eq in Hi|].
      rewrite lookup_delete_ne in Hi by done.
      destruct (Hreg key i Hi) as (t & Ht & Hk & Hs).
      exists t. split; [|done]. cbn [timers].
      rewrite list_lookup_insert_ne; [done|]. intros ->. congruence.
    + intros i t Hi Hs.
      destruct (decide (i = id)) as [->|Hne].
      * rewrite list_lookup_insert_eq in Hi by by eapply lookup_lt_Some.
        injection Hi as <-. done.
      * rewrite list_lookup_insert_ne in Hi by done. by eapply Hpend.
  - (* settle *)
    unfold settle. destruct (timers st !! id) as [t'|] eqn:Hid; [|done].
    destruct (status t') eqn:Hst; try done.
    destruct (settled t') eqn:Hse; [done|].
    split; cbn [debounceTimers timers].
    + intros key i Hi.
      assert (debounceTimers st !! key = Some i) as Hi'.
      { destruct outcome; [done|].
        destruct (decide (timer_key t' = key)) as [<-|Hne];
          [by rewrite lookup_delete_eq in Hi|].
        by rewrite lookup_delete_ne in Hi. }
      destruct (Hreg key i Hi') as (t & Ht & Hk & Hs).
      exists t. split; [|done]. cbn [timers].
      rewrite list_lookup_insert_ne; [done|]. intros ->. congruence.
    + intros i t Hi Hs.
      destruct (decide (i = id)) as [->|Hne].
      * rewrite list_lookup_insert_eq in Hi by by eapply lookup_lt_Some.
        injection Hi as <-. done.
      * rewrite list_lookup_insert_ne in Hi by done. by eapply Hpend.
  - (* clearAll *)
    split; cbn [clearAll debounceTimers timers].
    + intros key i Hi. by rewrite lookup_empty in Hi.
    + intros i t Hi Hs.
      assert (is_Some (timers st !! i)) as [t0 Ht0].
      { apply lookup_lt_is_Some. apply lookup_lt_Some in Hi.
        revert Hi. generalize (debounceTimers st). intros m.
        apply (map_fold_weak_ind (λ acc _,
                 (i < length acc)%nat → (i < length (timers st))%nat));
          [done|].
        intros k id m' acc _ IH. by rewrite clearTimeout_length. }
      destruct (clearAll_timers (debounceTimers st) (timers st) i t0 Ht0)
        as [H1 H2].
      destruct (decide (status t0 = Armed)) as [Ha|Hna].
      * destruct (H2 Ha) as [Hc|[Hsame _]].
        -- rewrite Hc in Hi. injection Hi as <-. cbn [with_status settled].
           eapply Hpend; [done|]. rewrite Ha. discriminate.
        -- rewrite Hsame in Hi. injection Hi as <-. by eapply Hpend.
      * rewrite (H1 Hna) in Hi. injection Hi as <-. by eapply Hpend.
Qed.

Lemma registered_armed_run evs : ∀ st,
  registered_armed st → registered_armed (run evs st).
Proof.
  induction evs as [|ev evs IH]; intros st H; [done|].
  cbn [run foldl]. apply IH. by apply registered_armed_step.
Qed.

Lemma registered_armed_initial : registered_armed initial.
Proof.
  split.
  - intros key i H. cbn [initial debounceTimers] in H.
    by rewrite lookup_empty in H.
  - intros i t H. cbn [initial timers] in H. by rewrite lookup_nil in H.
Qed.

(** X14. A debounced call that is superseded never runs and never
    settles. If, in any state the debouncer can reach, the timer of
    call [i] is the one registered under [key], then after one more
    call under [key], and whatever comes later, the timer of [i] is
    cleared: [fn] is never invoked for call [i], and the promise it
    returned is neither resolved nor rejected. *)
Theorem debounce_superseded_never_settles evs0 key i delay evs :
  debounceTimers (run evs0 initial) !! key = Some i →
  (∃ t, timers (run (Call key delay :: evs) (run evs0 initial)) !! i = Some t
        ∧ status t = Cleared)
  ∧ ¬ invoked i (run (Call key delay :: evs) (run evs0 initial))
  ∧ outcome_of i (run (Call key delay :: evs) (run evs0 initial)) = None.
Proof.
  intros Hi.
  pose proof (registered_armed_run evs0 initial registered_armed_initial)
    as [Hreg Hpend].
  destruct (Hreg key i Hi) as (t & Ht & Hk & Hs).
  assert (Hnone : settled t = None).
  { eapply Hpend; [done|]. rewrite Hs. discriminate. }
  assert (Hafter : timers (call key delay (run evs0 initial)).1 !! i
                   = Some (with_status t Cleared)).
  { unfold call. cbn [fst timers]. rewrite Hi.
    rewrite lookup_app_l
      by (rewrite clearTimeout_length; by eapply lookup_lt_Some).
    by apply clearTimeout_armed. }
  assert (Hfinal : timers (run (Call key delay :: evs) (run evs0 initial)) !! i
                   = Some (with_status t Cleared)).
  { cbn [run foldl step]. by apply cleared_stable_run. }
  split; [eauto|]. split.
  - intros (t' & Ht' & Hf). rewrite Hfinal in Ht'. by injection Ht' as <-.
  - unfold outcome_of. by rewrite Hfinal.
Qed.

Lemma debounce_superseded_never_settles_witness :
  debounceTimers (run [Call "search_ab" 300] initial) !! "search_ab" = Some 0%nat
  ∧ outcome_of 0
      (run [Call "search_ab" 300; Fire 0; Fire 1;
            Settle 1 (Fulfilled (JsString "hits")); Settle 0 (Fulfilled JsNull)]
         (run [Call "search_ab" 300] initial)) = None.
Proof.
  assert (H : debounceTimers (run [Call "search_ab" 300] initial) !! "search_ab"
              = Some 0%nat) by reflexivity.
  split; [exact H|].
  exact (proj2 (proj2 (debounce_superseded_never_settles
                         [Call "search_ab" 300] "search_ab" 0 300
                         [Fire 0; Fire 1; Settle 1 (Fulfilled (JsString "hits"));
                          Settle 0 (Fulfilled JsNull)] H))).
Defined.

Lemma armed_registered_step ev st :
  no_rejection ev → armed_registered st → armed_registered (step ev st).
Proof.
  intros Hev J.
  destruct ev as [key delay|id|id outcome|]; cbn [step].
  - (* call *)
    unfold call. cbn [fst]. intros i key' (t & Ht & Hk & Hs).
    cbn [timers debounceTimers] in *.
    destruct (decide (i < length (timers st))%nat) as [Hlt|Hge].
    + rewrite lookup_app_l in Ht
        by (by rewrite cleared_length).
      assert (timers st !! i = Some t ∧ debounceTimers st !! key ≠ Some i)
        as [Ht0 Hnot].
      { destruct (debounceTimers st !! key) as [existing|] eqn:He; [|done].
        destruct (decide (i = existing)) as [->|Hne].
        - exfalso. unfold clearTimeout in Ht.
          destruct (timers st !! existing) as [t'|] eqn:Ht'; [|congruence].
          case_decide as Ha.
          + rewrite list_lookup_insert_eq in Ht by by eapply lookup_lt_Some.
            injection Ht as <-. done.
          + congruence.
        - rewrite clearTimeout_other in Ht by done. split; [done|congruence]. }
      assert (debounceTimers st !! key' = Some i) as Hreg
        by (apply J; by exists t).
      rewrite lookup_insert_ne; [done|]. intros ->. done.
    + rewrite lookup_app_r in Ht
        by (rewrite cleared_length; lia).
      apply list_lookup_singleton_Some in Ht as [Hz <-].
      cbn [timer_key] in Hk. subst key'. rewrite lookup_insert_eq. f_equal.
      rewrite cleared_length in Hz. lia.
  - (* fire *)
    unfold fire. destruct (timers st !! id) as [t'|] eqn:Hid; [|done].
    case_decide as Ha; [|done]. intros i key (t & Ht & Hk & Hs).
    cbn [timers debounceTimers] in *.
    destruct (decide (i = id)) as [->|Hne].
    + rewrite list_lookup_insert_eq in Ht by by eapply lookup_lt_Some.
      injection Ht as <-. done.
    + rewrite list_lookup_insert_ne in Ht by done.
      assert (debounceTimers st !! key = Some i) as Hreg by (apply J; by exists t).
      rewrite lookup_delete_ne; [done|]. intros Heq.
      assert (debounceTimers st !! timer_key t' = Some id) as Hreg'
        by (apply J; by exists t').
      congruence.
  - (* settle *)
    unfold settle. destruct (timers st !! id) as [t'|] eqn:Hid; [|done].
    destruct (status t') eqn:Hst; try done.
    destruct (settled t') eqn:Hse; [done|].
    destruct outcome as [value|reason]; [|done].
    intros i key (t & Ht & Hk & Hs). cbn [timers debounceTimers] in *.
    destruct (decide (i = id)) as [->|Hne].
    + rewrite list_lookup_insert_eq in Ht by by eapply lookup_lt_Some.
      injection Ht as <-. done.
    + rewrite list_lookup_insert_ne in Ht by done. apply J. by exists t.
  - (* clearAll *)
    intros i key (t & Ht & Hk & Hs). exfalso.
    cbn [clearAll timers] in Ht.
    assert (is_Some (timers st !! i)) as [t0 Ht0].
    { apply lookup_lt_is_Some. apply lookup_lt_Some in Ht.
      revert Ht. generalize (debounceTimers st). intros m.
      apply (map_fold_weak_ind (λ acc _,
               (i < length acc)%nat → (i < length (timers st))%nat));
        [done|].
      intros k id m' acc _ IH. by rewrite clearTimeout_length. }
    destruct (clearAll_timers (debounceTimers st) (timers st) i t0 Ht0)
      as [H1 H2].
    destruct (decide (status t0 = Armed)) as [Ha|Hna].
    + destruct (H2 Ha) as [Hc|[Hsame Hnot]].
      * rewrite Hc in Ht. injection Ht as <-. done.
      * rewrite Hsame in Ht. injection Ht as <-.
        apply (Hnot key). apply J. by exists t0.
    + rewrite (H1 Hna) in Ht. injection Ht as <-. done.
Qed.

Lemma armed_registered_run evs : ∀ st,
  Forall no_rejection evs → armed_registered st → armed_registered (run evs st).
Proof.
  induction evs as [|ev evs IH]; intros st Hevs J; [done|].
  apply Forall_cons in Hevs as [Hev Hevs].
  cbn [run foldl]. apply IH; [done|]. by apply armed_registered_step.
Qed.

(** X15. One timer per key, as long as [fn] does not reject. In any
    run of calls, timers firing, [fn] fulfilling and clean-ups, at
    most one timer is armed under a key at any time, and it is the one
    registered in [debounceTimers]: of the calls made under one key in
    a burst, only the last can still run. *)
Theorem debounce_one_armed_timer evs i j key :
  Forall no_rejection evs →
  armed i key (run evs initial) → armed j key (run evs initial) →
  i = j ∧ debounceTimers (run evs initial) !! key = Some i.
Proof.
  intros Hevs Hi Hj.
  assert (J : armed_registered (run evs initial)).
  { apply armed_registered_run; [done|].
    intros i' key' (t & Ht & _). cbn [initial timers] in Ht.
    by rewrite lookup_nil in Ht. }
  pose proof (J i key Hi) as H1. pose proof (J j key Hj) as H2.
  split; [congruence|done].
Qed.

Lemma debounce_one_armed_timer_witness :
  Forall no_rejection [Call "k" 300; Call "k" 300; Call "k" 300]
  ∧ armed 2 "k" (run [Call "k" 300; Call "k" 300; Call "k" 300] initial)
  ∧ debounceTimers (run [Call "k" 300; Call "k" 300; Call "k" 300] initial) !! "k"
    = Some 2%nat.
Proof.
  assert (H1 : Forall no_rejection [Call "k" 300; Call "k" 300; Call "k" 300])
    by (by repeat constructor).
  assert (H2 : armed 2 "k" (run [Call "k" 300; Call "k" 300; Call "k" 300] initial))
    by (eexists; split; [reflexivity|done]).
  split; [exact H1|]. split; [exact H2|].
  exact (proj2 (debounce_one_armed_timer _ 2 2 "k" H1 H2 H2)).
Defined.

(** Once an [fn] has rejected the guarantee is gone: the [catch]
    deletes the key a second time, by then that of a newer timer, and
    the next call does not clear it. Here timers 1 and 2 are both
    armed under ["k"]. *)
Example debounce_rejection_leaves_two_armed :
  armed 1 "k" (run [Call "k" 300; Fire 0; Call "k" 300;
                    Settle 0 (Rejected (JsString "failed")); Call "k" 300] initial)
  ∧ armed 2 "k" (run [Call "k" 300; Fire 0; Call "k" 300;
                      Settle 0 (Rejected (JsString "failed")); Call "k" 300] initial).
Proof. split; (eexists; split; [reflexivity|done]). Qed.

End Debouncing.

(** ** Throttling *)

Section Throttling.
Import Throttle.

Implicit Types (st : State) (key : string) (t : Timer).

Lemma executed_at_snoc key key' now st ts tm :
  executed_at key {| throttleState := tm; timers := ts;
                     executions := executions st ++ [(key', now)] |}
  = if decide (key' = key) then executed_at key st ++ [now]
    else executed_at key st.
Proof.
  unfold executed_at. cbn [executions].
  rewrite filter_app, fmap_app, filter_cons, filter_nil. cbn [fst].
  case_decide; [done|]. by rewrite app_nil_r.
Qed.

Lemma spaced_snoc limit (l : list Z) (y : Z) :
  spaced limit l →
  (∀ x, last l = Some x → limit <= y - x) →
  spaced limit (l ++ [y]).
Proof.
  intros Hl Hy i a b Ha Hb.
  destruct (decide (S i < length l)%nat) as [Hlt|Hge].
  - rewrite lookup_app_l in Ha by lia. rewrite lookup_app_l in Hb by done.
    by eapply Hl.
  - assert (S i = length l) as Hi.
    { apply lookup_lt_Some in Hb. rewrite length_app in Hb. simpl in Hb. lia. }
    rewrite lookup_app_l in Ha by lia.
    rewrite lookup_app_r in Hb by lia.
    replace (S i - length l)%nat with 0%nat in Hb by lia.
    injection Hb as <-. apply Hy.
    rewrite last_lookup. rewrite <- Hi. done.
Qed.

Lemma waiting_old id key st tm ex t' :
  (id < length (timers st))%nat →
  waiting id key {| throttleState := tm; timers := timers st ++ [t'];
                    executions := ex |} →
  waiting id key st.
Proof.
  intros Hlt (t & Ht & Hk & Hf). cbn [timers] in Ht.
  rewrite lookup_app_l in Ht by done. by exists t.
Qed.

Lemma schedule_invariant_call limit key now st :
  schedule_invariant limit st → on_time (Call key now) st →
  schedule_invariant limit (call limit key now st).1.
Proof.
  intros (I1 & I2 & I3 & I4) Hon. cbn [on_time] in Hon.
  unfold call. cbv zeta.
  set (state := default {| lastExecuted := 0; isThrottled := false |}
                        (throttleState st !! key)).
  assert (Hstate : ∀ e, throttleState st !! key = Some e → state = e).
  { intros e He. subst state. by rewrite He. }
  assert (Hwait : ∀ id, waiting id key st →
            isThrottled state = true ∧ now < lastExecuted state + limit).
  { intros id Hw. destruct (I2 id key Hw) as (e & t & He & Hth & Ht & Hdue).
    rewrite (Hstate e He). split; [done|]. rewrite <- Hdue.
    destruct Hw as (t' & Ht' & Hk & Hf).
    assert (t' = t) as -> by congruence. by eapply Hon. }
  destruct (Z.leb_spec limit (now - lastExecuted state)) as [Hrun|Hwaitb].
  - (* executed at once *)
    cbn [fst]. split; [|split; [|split]].
    + intros key' x. rewrite executed_at_snoc. cbn [throttleState].
      case_decide as Hk.
      * subst key'. rewrite last_snoc. intros [= <-].
        rewrite lookup_insert_eq. eauto.
      * intros Hx. rewrite lookup_insert_ne by done. by apply I1.
    + intros id key' Hw.
      assert (waiting id key' st) as Hw0 by done.
      destruct (decide (key = key')) as [<-|Hne].
      * destruct (Hwait id Hw0) as [_ Hlt]. lia.
      * destruct (I2 id key' Hw0) as (e & t & He & Hth & Ht & Hdue).
        exists e, t. cbn [throttleState timers].
        by rewrite lookup_insert_ne.
    + intros id id' key' Hw Hw'. by apply (I3 id id' key').
    + intros key'. rewrite executed_at_snoc. case_decide as Hk; [|apply I4].
      subst key'. apply spaced_snoc; [apply I4|].
      intros x Hx. destruct (I1 key x Hx) as (e & He & <-).
      rewrite <- (Hstate e He). lia.
  - destruct (isThrottled state) eqn:Hth; cbn [negb fst]; [done|].
    (* deferred *)
    assert (Hnone : ∀ id, ¬ waiting id key st).
    { intros id Hw. destruct (Hwait id Hw) as [? _]. congruence. }
    split; [|split; [|split]].
    + intros key' x Hx.
      assert (last (executed_at key' st) = Some x) as Hx0 by done.
      destruct (I1 key' x Hx0) as (e & He & Hl). cbn [throttleState].
      destruct (decide (key = key')) as [<-|Hne].
      * rewrite lookup_insert_eq. eexists. split; [done|].
        cbn [lastExecuted]. by rewrite (Hstate e He).
      * rewrite lookup_insert_ne by done. eauto.
    + intros id key' Hw.
      destruct (decide (id < length (timers st))%nat) as [Hlt|Hge].
      * apply waiting_old in Hw; [|done].
        destruct (decide (key = key')) as [<-|Hne];
          [by destruct (Hnone id)|].
        destruct (I2 id key' Hw) as (e & t & He & Hth' & Ht & Hdue).
        exists e, t. cbn [throttleState timers].
        rewrite lookup_insert_ne by done.
        rewrite lookup_app_l by done. done.
      * destruct Hw as (t & Ht & Hk & Hf). cbn [timers] in Ht.
        rewrite lookup_app_r in Ht by lia.
        apply list_lookup_singleton_Some in Ht as [Hz <-].
        cbn [timer_key] in Hk. subst key'.
        eexists _, _. cbn [throttleState timers].
        rewrite lookup_insert_eq. split; [done|]. split; [done|].
        split.
        -- rewrite lookup_app_r by lia.
           replace (id - length (timers st))%nat with 0%nat by lia. done.
        -- unfold due. cbn [set_at remainingTime lastExecuted]. lia.
    + intros id id' key' Hw Hw'.
      destruct (decide (id < length (timers st))%nat) as [Hlt|Hge];
        destruct (decide (id' < length (timers st))%nat) as [Hlt'|Hge'].
      * apply waiting_old in Hw, Hw'; try done. by apply (I3 id id' key').
      * apply waiting_old in Hw; [|done].
        destruct Hw' as (t & Ht & Hk & Hf). cbn [timers] in Ht.
        rewrite lookup_app_r in Ht by lia.
        apply list_lookup_singleton_Some in Ht as [_ <-].
        cbn [timer_key] in Hk. subst key'. by destruct (Hnone id).
      * apply waiting_old in Hw'; [|done].
        destruct Hw as (t & Ht & Hk & Hf). cbn [timers] in Ht.
        rewrite lookup_app_r in Ht by lia.
        apply list_lookup_singleton_Some in Ht as [_ <-].
        cbn [timer_key] in Hk. subst key'. by destruct (Hnone id').
      * destruct Hw as (t & Ht & _), Hw' as (t' & Ht' & _).
        apply lookup_lt_Some in Ht, Ht'. cbn [timers] in Ht, Ht'.
        rewrite length_app in Ht, Ht'. simpl in Ht, Ht'. lia.
    + intros key'. apply I4.
Qed.

Lemma schedule_invariant_fire limit id now st :
  schedule_invariant limit st → on_time (Fire id now) st →
  schedule_invariant limit (fire id now st).
Proof.
  intros (I1 & I2 & I3 & I4) (t & Ht & Hf & Hdue). unfold fire.
  rewrite Ht, Hf.
  assert (Hw : waiting id (timer_key t) st) by (by exists t).
  destruct (I2 id _ Hw) as (e & t0 & He & Hth & Ht0 & Hdue0).
  assert (t0 = t) as -> by congruence. rewrite He.
  assert (Hother : ∀ id' key',
            waiting id' key'
              {| throttleState := <[timer_key t := {| lastExecuted := now;
                                                      isThrottled := false |}]>
                                    (throttleState st);
                 timers := <[id := {| timer_key := timer_key t;
                                      set_at := set_at t;
                                      remainingTime := remainingTime t;
                                      fired := true |}]> (timers st);
                 executions := executions st ++ [(timer_key t, now)] |} →
            id' ≠ id ∧ waiting id' key' st ∧ key' ≠ timer_key t).
  { intros id' key' (t' & Ht' & Hk' & Hf'). cbn [timers] in Ht'.
    destruct (decide (id' = id)) as [->|Hne].
    - rewrite list_lookup_insert_eq in Ht' by by eapply lookup_lt_Some.
      injection Ht' as <-. done.
    - rewrite list_lookup_insert_ne in Ht' by done.
      assert (waiting id' key' st) as Hw' by (by exists t').
      split; [done|]. split; [done|].
      intros ->. apply Hne. by apply (I3 id' id (timer_key t)). }
  split; [|split; [|split]].
  - intros key' x. rewrite executed_at_snoc. cbn [throttleState].
    case_decide as Hk.
    + subst key'. rewrite last_snoc. intros [= <-].
      rewrite lookup_insert_eq. eauto.
    + intros Hx. rewrite lookup_insert_ne by done. by apply I1.
  - intros id' key' Hw'. destruct (Hother id' key' Hw') as (Hne & Hw0 & Hk).
    destruct (I2 id' key' Hw0) as (e' & t' & He' & Hth' & Ht' & Hdue').
    exists e', t'. cbn [throttleState timers].
    rewrite lookup_insert_ne by done.
    by rewrite list_lookup_insert_ne.
  - intros id1 id2 key' H1 H2.
    destruct (Hother id1 key' H1) as (_ & H1' & _).
    destruct (Hother id2 key' H2) as (_ & H2' & _).
    by apply (I3 id1 id2 key').
  - intros key'. rewrite executed_at_snoc. case_decide as Hk; [|apply I4].
    subst key'. apply spaced_snoc; [apply I4|].
    intros x Hx. destruct (I1 _ x Hx) as (e' & He' & <-).
    assert (e' = e) as -> by congruence. lia.
Qed.

Lemma schedule_invariant_run limit evs : ∀ st,
  schedule_invariant limit st → punctual limit evs st →
  schedule_invariant limit (run limit evs st).
Proof.
  induction evs as [|ev evs IH]; intros st I Hp; [done|].
  destruct Hp as [Hon Hp]. cbn [run foldl]. apply IH; [|done].
  destruct ev as [key now|id now]; cbn [step].
  - by apply schedule_invariant_call.
  - by apply schedule_invariant_fire.
Qed.

Lemma schedule_invariant_initial limit : schedule_invariant limit initial.
Proof.
  split; [|split; [|split]].
  - intros key x H. done.
  - intros id key (t & Ht & _). cbn [initial timers] in Ht.
    by rewrite lookup_nil in Ht.
  - intros id id' key (t & Ht & _). cbn [initial timers] in Ht.
    by rewrite lookup_nil in Ht.
  - intros key i x y H. done.
Qed.

Lemma on_time_call key now st :
  Forall (λ t, timer_key t = key → fired t = false → now < due t) (timers st) →
  on_time (Call key now) st.
Proof.
  intros Hall id t Ht. rewrite Forall_lookup in Hall. by eapply Hall.
Qed.

(** X16. Throttling spaces the executions, provided the timers are
    punctual. In every schedule of calls and timer callbacks in which
    a timer fires once and not before it is due, and no call comes
    under a key whose timer is overdue, two successive invocations of
    [fn] under one key are at least [limit] apart, and under one key
    at most one deferred call is waiting at any time. *)
Theorem throttle_spaces_executions limit evs :
  punctual limit evs initial →
  (∀ key, spaced limit (executed_at key (run limit evs initial)))
  ∧ (∀ id id' key, waiting id key (run limit evs initial) →
                   waiting id' key (run limit evs initial) → id = id').
Proof.
  intros Hp.
  destruct (schedule_invariant_run limit evs initial
              (schedule_invariant_initial limit) Hp) as (_ & _ & I3 & I4).
  done.
Qed.

Lemma throttle_spaces_executions_witness :
  punctual 1000 [Call "save" 5000; Call "save" 5400; Call "save" 5600;
                 Fire 0 6000; Call "save" 7000] initial
  ∧ executed_at "save"
      (run 1000 [Call "save" 5000; Call "save" 5400; Call "save" 5600;
                 Fire 0 6000; Call "save" 7000] initial)
    = [5000; 6000; 7000]
  ∧ spaced 1000
      (executed_at "save"
         (run 1000 [Call "save" 5000; Call "save" 5400; Call "save" 5600;
                    Fire 0 6000; Call "save" 7000] initial)).
Proof.
  assert (H : punctual 1000 [Call "save" 5000; Call "save" 5400; Call "save" 5600;
                             Fire 0 6000; Call "save" 7000] initial).
  { cbn [punctual]. repeat split;
      try (apply on_time_call; vm_compute; repeat constructor;
           try (intros _ _; reflexivity); intros _ Hf; discriminate Hf).
    eexists. split; [by vm_compute|]. split; [done|]. by vm_compute. }
  split; [exact H|]. split; [by vm_compute|].
  exact (proj1 (throttle_spaces_executions 1000 _ H) "save").
Defined.

(** With a timer that fires late the spacing is lost: the call at
    6500 runs at once, the overdue timer at 6600. *)
Example throttle_late_timer_runs_twice :
  executed_at "save"
    (run 1000 [Call "save" 5000; Call "save" 5400; Call "save" 6500;
               Fire 0 6600] initial)
  = [5000; 6500; 6600].
Proof. by vm_compute. Qed.

End Throttling.

(** ** [cleanup] and [getStatus] *)

Section Cleanup.
Import Lifecycle.

(** X17. [cleanup()] empties all three stores, so that [getStatus]
    reports no pending request, no debounce timer and no throttling
    entry; it aborts the controller of every registered request and
    clears every registered debounce timer, whose call will therefore
    never settle. It does not reach the timers of deferred throttled
    calls: such a timer still fires after [cleanup()], and invokes
    [fn] without recording the execution in [throttleState]. *)
Theorem cleanup_empties_the_stores (st : State) :
  getStatus (cleanup st)
    = {| pendingCount := 0; debounceCount := 0; throttleCount := 0 |}
  ∧ (∀ key request,
       RequestDeduplicator.pendingRequests (registry st) !! key = Some request →
       RequestDeduplicator.controller request
         ∈ RequestDeduplicator.aborted (registry (cleanup st)))
  ∧ (∀ key i t,
       Debounce.debounceTimers (debouncing st) !! key = Some i →
       Debounce.timers (debouncing st) !! i = Some t →
       Debounce.status t = Debounce.Armed →
       Debounce.timers (debouncing (cleanup st)) !! i
         = Some (Debounce.with_status t Debounce.Cleared))
  ∧ Throttle.timers (throttling (cleanup st)) = Throttle.timers (throttling st)
  ∧ (∀ id key now,
       Throttle.waiting id key (throttling st) →
       Throttle.executions (Throttle.fire id now (throttling (cleanup st)))
         = Throttle.executions (throttling st) ++ [(key, now)]
       ∧ Throttle.throttleState (Throttle.fire id now (throttling (cleanup st)))
         = ∅).
Proof.
  split; [done|]. split.
  { intros key request Hr. cbn [cleanup registry].
    apply aborted_by_cancelAll. right. eauto. }
  split.
  { intros key i t Hi Ht Ha. cbn [cleanup debouncing Debounce.clearAll
                                  Debounce.timers].
    destruct (clearAll_timers (Debounce.debounceTimers (debouncing st))
                (Debounce.timers (debouncing st)) i t Ht) as [_ H2].
    destruct (H2 Ha) as [Hc|[_ Hnot]]; [done|]. by destruct (Hnot key). }
  split; [done|].
  intros id key now (t & Ht & Hk & Hf).
  unfold Throttle.fire. cbn [cleanup throttling Throttle.clear Throttle.timers
                             Throttle.throttleState Throttle.executions].
  rewrite Ht, Hf. cbn [Throttle.executions Throttle.throttleState].
  rewrite lookup_empty, Hk. done.
Qed.

Lemma cleanup_empties_the_stores_witness :
  Throttle.waiting 0 "save"
    (Throttle.run 1000 [Throttle.Call "save" 5000; Throttle.Call "save" 5400]
       Throttle.initial)
  ∧ Throttle.executions
      (Throttle.fire 0 6000
         (throttling (cleanup
            {| registry := RequestDeduplicator.initial;
               debouncing := Debounce.initial;
               throttling :=
                 Throttle.run 1000 [Throttle.Call "save" 5000;
                                    Throttle.Call "save" 5400]
                   Throttle.initial |})))
    = [("save"%string, 5000); ("save"%string, 6000)].
Proof.
  assert (H : Throttle.waiting 0 "save"
                (Throttle.run 1000 [Throttle.Call "save" 5000;
                                    Throttle.Call "save" 5400]
                   Throttle.initial))
    by (eexists; split; [by vm_compute|done]).
  split; [exact H|].
  destruct (cleanup_empties_the_stores
              {| registry := RequestDeduplicator.initial;
                 debouncing := Debounce.initial;
                 throttling :=
                   Throttle.run 1000 [Throttle.Call "save" 5000;
                                      Throttle.Call "save" 5400]
                     Throttle.initial |}) as (_ & _ & _ & _ & Hfire).
  exact (proj1 (Hfire 0%nat "save"%string 6000 H)).
Defined.

End Cleanup.

(** ** The API client *)

Section Client.
Import JsString TokenManager ApiClient.

Implicit Types (env : Env) (w : World).

(** X18. A failed proactive renewal strips the request of its
    credential. When the call of [refreshAccessToken] that the
    [beforeRequest] hook awaits made the ticket and the ticket is
    rejected, the call, resuming, clears the credential pair; the hook
    goes on, finds no access credential, and sets no [Authorization]
    header: the request does not go out with the credential held
    before. *)
Theorem failed_renewal_sends_no_credential env w c p e :
  calls w !! c = Some {| ticket := Some p; creator := true; outcome := None |} →
  tickets w !! p = Some (Settled (Rejected e)) →
  (beforeRequest_end env (resume env c w)).2 = None
  ∧ calls (resume env c w) !! c
    = Some {| ticket := Some p; creator := true; outcome := Some (Rejected e) |}.
Proof.
  intros Hc Hp.
  assert (Hres : resume env c w
                 = finish w c {| ticket := Some p; creator := true;
                                 outcome := None |} (Rejected e)
                     (clearTokens env (with_slot (manager w) false None))).
  { unfold resume. rewrite Hc. cbn [outcome ticket creator]. by rewrite Hp. }
  rewrite Hres. split.
  - unfold beforeRequest_end. cbv zeta. cbn [finish manager snd].
    destruct (clearTokens_reads_null env (with_slot (manager w) false None))
      as [-> _]. done.
  - unfold finish. cbn [calls ticket creator].
    apply list_lookup_insert_eq. by eapply lookup_lt_Some.
Qed.

Lemma failed_renewal_sends_no_credential_witness :
  calls (run browser
           [CallRefresh;
            Respond 0 (inr (JsObject true "TimeoutError" "Request timed out" None)) 0]
           signed_in) !! 0%nat
  = Some {| ticket := Some 0%nat; creator := true; outcome := None |}
  ∧ (beforeRequest_end browser
       (resume browser 0
          (run browser
             [CallRefresh;
              Respond 0 (inr (JsObject true "TimeoutError" "Request timed out" None)) 0]
             signed_in))).2 = None.
Proof.
  assert (H1 : calls (run browser
           [CallRefresh;
            Respond 0 (inr (JsObject true "TimeoutError" "Request timed out" None)) 0]
           signed_in) !! 0%nat
         = Some {| ticket := Some 0%nat; creator := true; outcome := None |})
    by reflexivity.
  assert (H2 : tickets (run browser
           [CallRefresh;
            Respond 0 (inr (JsObject true "TimeoutError" "Request timed out" None)) 0]
           signed_in) !! 0%nat
         = Some (Settled (Rejected REFRESH_FAILED))) by reflexivity.
  split; [exact H1|].
  exact (proj1 (failed_renewal_sends_no_credential browser _ 0%nat 0%nat _ H1 H2)).
Defined.

(** X19. Where the Storage object cannot be used, every request asks
    for a renewal. No expiry can be recorded there, so the credential
    always counts as expiring soon: whenever the manager holds a
    refresh credential the [beforeRequest] hook calls
    [refreshAccessToken], at any clock reading, however recently the
    credentials were set; and when no renewal is in the slot that call
    makes a POST to the renewal endpoint. *)
Theorem unusable_storage_renews_every_request env now w :
  usable env = false →
  truthy (refreshToken (manager w)) = true →
  (beforeRequest_begin env now w).2 = Some (length (calls w))
  ∧ length (calls (beforeRequest_begin env now w).1) = S (length (calls w))
  ∧ (refreshPromise (manager w) = None →
     length (requests (beforeRequest_begin env now w).1)
     = S (length (requests w))).
Proof.
  intros Hu Hr. unfold beforeRequest_begin.
  assert (Hsoon : isTokenExpiringSoon env now (manager w) = true).
  { unfold isTokenExpiringSoon. by rewrite getSecureItem_unusable. }
  assert (Hgot : getRefreshToken env (manager w) = (manager w, refreshToken (manager w))).
  { unfold getRefreshToken. by rewrite Hr. }
  rewrite Hsoon. cbv zeta. rewrite Hgot. cbn [fst snd]. rewrite Hr. cbn [fst snd].
  assert (Hw : with_manager w (manager w) = w) by (by destruct w).
  rewrite Hw. split; [done|]. split.
  - unfold refreshAccessToken. cbv zeta. rewrite Hgot. cbn [fst snd].
    destruct (isRefreshing (manager w)), (refreshPromise (manager w));
      destruct (refreshToken (manager w)) as [[|t0 tr]|]; try done;
      cbn [calls]; rewrite length_app; simpl; lia.
  - intros Hnone. rewrite refreshAccessToken_empty_slot by done.
    rewrite Hgot. cbn [snd].
    destruct (refreshToken (manager w)) as [[|t0 tr]|]; try done.
    cbn [requests]. rewrite length_app. simpl. lia.
Qed.

Lemma unusable_storage_renews_every_request_witness :
  usable {| hasWindow := true; production := false; storageWorks := false |} = false
  ∧ (beforeRequest_begin
       {| hasWindow := true; production := false; storageWorks := false |}
       1700000000001
       (with_manager signed_out
          (setTokens {| hasWindow := true; production := false; storageWorks := false |}
             (of_string "access-1") (Some (of_string "refresh-1")) 1700000000000
             (manager signed_out)))).2 = Some 0%nat.
Proof.
  assert (H : usable {| hasWindow := true; production := false;
                        storageWorks := false |} = false) by reflexivity.
  split; [exact H|].
  exact (proj1 (unusable_storage_renews_every_request
                  {| hasWindow := true; production := false; storageWorks := false |}
                  1700000000001
                  (with_manager signed_out
                     (setTokens {| hasWindow := true; production := false;
                                   storageWorks := false |}
                        (of_string "access-1") (Some (of_string "refresh-1"))
                        1700000000000 (manager signed_out)))
                  H eq_refl)).
Defined.

(** X20. The client's [handleApiError] always rejects, and with the
    error it was given whenever that error can be classified; the
    handling that went before does not replace it. Only for an object
    whose [response] property holds no response, on which [classify]
    raises, is the rejection the [TypeError] raised there, not the
    error given, and nothing has been handled. *)
Theorem handleApiError_rethrows env page error options st :
  (¬ ErrorClassifier.nullish_response error →
     (handleApiError env page error options st).2 = error)
  ∧ (ErrorClassifier.nullish_response error →
     (∃ reason, (handleApiError env page error options st).2
                = JsObject true "TypeError" reason None)
     ∧ ErrorHandler.trace (handleApiError env page error options st).1 = []
     ∧ ErrorHandler.manager_left (handleApiError env page error options st).1 = st).
Proof.
  unfold handleApiError, ErrorHandler.handle. cbv zeta. split.
  - intros Hnot. destruct (classify_returns error Hnot) as [se ->]. done.
  - intros (isError & name & message & ->). cbn. eauto.
Qed.

Lemma handleApiError_rethrows_witness :
  ¬ ErrorClassifier.nullish_response (JsString "offline")
  ∧ (handleApiError browser
       {| SignOut.currentPath := "/users"; SignOut.storeAvailable := true |}
       (JsString "offline") ErrorHandler.no_options (manager signed_in)).2
    = JsString "offline".
Proof.
  assert (H : ¬ ErrorClassifier.nullish_response (JsString "offline")).
  { intros (? & ? & ? & ?). discriminate. }
  split; [exact H|].
  exact (proj1 (handleApiError_rethrows browser
                  {| SignOut.currentPath := "/users";
                     SignOut.storeAvailable := true |}
                  (JsString "offline") ErrorHandler.no_options
                  (manager signed_in)) H).
Defined.

End Client.

Section Utils.
Import RequestDeduplicator.
Context {KyOptions : Type}.

Implicit Types (st : @ApiUtils.State KyOptions)
               (options : option (@ApiUtils.ExtendedOptions KyOptions)).

Lemma dispatch_plain method url data options now st :
  ApiUtils.plain options →
  ApiUtils.dispatch method true url data options now st
  = (let r := deduplicate (ApiUtils.createRequestKey url method data) now
                (ApiUtils.registry st) in
     ({| ApiUtils.registry := r.1;
        ApiUtils.sent :=
          match pendingRequests (ApiUtils.registry st)
                  !! ApiUtils.createRequestKey url method data with
          | Some _ => ApiUtils.sent st
          | None => ApiUtils.sent st
                    ++ [{| ApiUtils.sent_method := method;
                           ApiUtils.sent_url := url;
                           ApiUtils.sent_data := data;
                           ApiUtils.sent_options := ApiUtils.kyOptions <$> options |}]
          end |},
      ApiUtils.Shared r.2)).
Proof.
  intros [Hon Hkey]. unfold ApiUtils.dispatch. cbv zeta.
  rewrite (bool_decide_eq_false_2 _ Hon). cbn [negb].
  destruct Hkey as [->| ->]; [done|]. by rewrite decide_True.
Qed.

(** X21. [apiUtils.get] shares a request by URL alone. When two calls
    of [get] name the same URL and neither sets a key of its own nor
    switches deduplication off, and the second comes while the
    request of the first is registered, then one request only is
    handed to ky, with the options of the first call, and the second
    call awaits the promise of the first, whatever options the second
    was given (other search parameters or headers, say). The other
    methods share nothing unless asked to: two calls of [post] with
    the same URL and body and no [deduplication] option hand two
    requests to ky. *)
Theorem get_shares_request_by_url url options options' now now' st data :
  ApiUtils.plain options → ApiUtils.plain options' →
  pendingRequests (ApiUtils.registry st)
    !! ApiUtils.createRequestKey url "GET" None = None →
  (ApiUtils.get url options' now' (ApiUtils.get url options now st).1).2
    = (ApiUtils.get url options now st).2
  ∧ ApiUtils.sent (ApiUtils.get url options' now' (ApiUtils.get url options now st).1).1
    = ApiUtils.sent st
      ++ [{| ApiUtils.sent_method := "GET"; ApiUtils.sent_url := url;
             ApiUtils.sent_data := None;
             ApiUtils.sent_options := ApiUtils.kyOptions <$> options |}]
  ∧ length (ApiUtils.sent
              (ApiUtils.post url data None now'
                 (ApiUtils.post url data None now st).1).1)
    = S (S (length (ApiUtils.sent st))).
Proof.
  intros Hp Hp' Hnone. unfold ApiUtils.get.
  rewrite !dispatch_plain by done. cbv zeta. cbn [fst snd ApiUtils.registry
                                                 ApiUtils.sent].
  rewrite Hnone.
  assert (Hreg : pendingRequests
                   (deduplicate (ApiUtils.createRequestKey url "GET" None) now
                      (ApiUtils.registry st)).1
                   !! ApiUtils.createRequestKey url "GET" None
                 = Some {| promise := length (operations (ApiUtils.registry st));
                           controller := length (operations (ApiUtils.registry st));
                           timestamp := now |}).
  { unfold deduplicate. rewrite Hnone. cbn [fst pendingRequests].
    apply lookup_insert_eq. }
  rewrite Hreg. split; [|split; [done|]].
  - unfold deduplicate at 1. rewrite Hreg. cbn [snd promise].
    unfold deduplicate. by rewrite Hnone.
  - unfold ApiUtils.post, ApiUtils.dispatch. cbv zeta.
    cbn [mbind option_bind].
    rewrite !(bool_decide_eq_false_2 (None = Some true)) by done.
    cbn [fst ApiUtils.sent]. rewrite !length_app. simpl. lia.
Qed.

End Utils.

Section UtilsWitness.

Lemma get_shares_request_by_url_witness :
  ApiUtils.plain (Some {| ApiUtils.deduplication := None;
                          ApiUtils.kyOptions := "page=1"%string |})
  ∧ ApiUtils.sent
      (ApiUtils.get "users"
         (Some {| ApiUtils.deduplication := None;
                  ApiUtils.kyOptions := "page=2"%string |}) 5
         (ApiUtils.get "users"
            (Some {| ApiUtils.deduplication := None;
                     ApiUtils.kyOptions := "page=1"%string |}) 0
            {| ApiUtils.registry := RequestDeduplicator.initial;
               ApiUtils.sent := [] |}).1).1
    = [{| ApiUtils.sent_method := "GET"; ApiUtils.sent_url := "users";
          ApiUtils.sent_data := None;
          ApiUtils.sent_options := Some "page=1"%string |}].
Proof.
  assert (H1 : ApiUtils.plain (Some {| ApiUtils.deduplication := None;
                                       ApiUtils.kyOptions := "page=1"%string |}))
    by (split; [discriminate|by left]).
  assert (H2 : ApiUtils.plain (Some {| ApiUtils.deduplication := None;
                                       ApiUtils.kyOptions := "page=2"%string |}))
    by (split; [discriminate|by left]).
  split; [exact H1|].
  exact (proj1 (proj2 (get_shares_request_by_url "users" _ _ 0 5
                         {| ApiUtils.registry := RequestDeduplicator.initial;
                            ApiUtils.sent := [] |} None H1 H2 eq_refl))).
Defined.

End UtilsWitness.

(** ** The credential transform: what [decrypt] answers *)

Section Decrypt.
Import JsString TokenCrypto.

Lemma before_first_free (separator : Z) (s : jsstring) :
  separator ∉ before_first separator s.
Proof.
  induction s as [|c rest IH]; cbn [before_first]; [apply not_elem_of_nil|].
  destruct (Z.eqb_spec c separator) as [->|Hne]; [apply not_elem_of_nil|].
  intros [Heq|Hin]%elem_of_cons; [congruence|done].
Qed.

Lemma strip_padding_keeps (data : jsstring) (c : Z) :
  c ∈ data → c ≠ 61 → c ∈ strip_padding data.
Proof.
  intros Hin Hne. unfold strip_padding. case_decide; [|done].
  destruct (reverse data) as [|c1 [|c2 rest]] eqn:Hrev; try done.
  assert (Hdata : data = reverse rest ++ [c2; c1]).
  { rewrite <- (reverse_involutive data), Hrev.
    rewrite !reverse_cons, <- app_assoc. done. }
  destruct (Z.eqb_spec c1 61) as [->|H1]; cbn [andb]; [|done].
  rewrite Hdata in Hin.
  apply elem_of_app in Hin as [Hin|Hin].
  - destruct (Z.eqb_spec c2 61) as [->|H2]; [done|].
    rewrite reverse_cons. apply elem_of_app. by left.
  - apply elem_of_cons in Hin as [Heq|Hin].
    + subst c2. destruct (Z.eqb_spec c 61) as [->|H2]; [done|].
      rewrite reverse_cons. apply elem_of_app. right. by left.
    + apply list_elem_of_singleton in Hin. congruence.
Qed.

Lemma atob_rejects (s : jsstring) (c : Z) :
  c ∈ s → is_ascii_whitespace c = false → c ≠ 61 → base64_value c = None →
  atob s = None.
Proof.
  intros Hin Hws Hpad Hval. unfold atob. cbv zeta. case_decide; [done|].
  assert (Hc : c ∈ strip_padding (filter (λ c, is_ascii_whitespace c = false) s)).
  { apply strip_padding_keeps; [|done]. by apply list_elem_of_filter. }
  destruct (mapM base64_value _) as [sextets|] eqn:Hm; [|done].
  exfalso.
  assert (is_Some (mapM base64_value
            (strip_padding (filter (λ c, is_ascii_whitespace c = false) s))))
    as Hsome by (rewrite Hm; eauto).
  apply mapM_is_Some in Hsome. rewrite Forall_forall in Hsome.
  destruct (Hsome c Hc) as [v Hv]. simpl in Hv. congruence.
Qed.

(** X22. What [decrypt] answers. It never answers a text that
    contains ['|'], whatever it is given. And it answers [null] for
    every text that holds a character outside the base64 alphabet,
    the padding sign and ASCII white space -- the ['.'], ['-'] and
    ['_'] of a token stored unencrypted, for one. *)
Theorem decrypt_answers (encryptedText : jsstring) :
  (∀ text, decrypt encryptedText = Some text → 124 ∉ text)
  ∧ (∀ c, c ∈ encryptedText → is_ascii_whitespace c = false → c ≠ 61 →
          base64_value c = None → decrypt encryptedText = None).
Proof.
  split.
  - intros text. unfold decrypt.
    destruct (atob encryptedText ≫= decodeURIComponent) as [decoded|];
      [|done].
    cbn [mbind option_bind]. intros [= <-]. apply before_first_free.
  - intros c Hin Hws Hpad Hval. unfold decrypt.
    by rewrite (atob_rejects encryptedText c).
Qed.

Lemma decrypt_answers_witness :
  (46 ∈ of_string "eyJhbGciOi.payload.sig")
  ∧ decrypt (of_string "eyJhbGciOi.payload.sig") = None.
Proof.
  assert (H : 46 ∈ of_string "eyJhbGciOi.payload.sig").
  { apply list_elem_of_lookup. by exists 10%nat. }
  split; [exact H|].
  apply (proj2 (decrypt_answers (of_string "eyJhbGciOi.payload.sig")) 46 H);
    [reflexivity|discriminate|reflexivity].
Defined.

End Decrypt.

(** ** Bounded retry: waiting time, refusals *)

Section RetryMore.
Import RequestDeduplicator Retry.

Lemma geometric_sum (base : Z) (k : nat) : ∀ a : nat,
  total_delay ((λ i : nat, base * 2 ^ Z.of_nat i) <$> seq a k)
  = base * 2 ^ Z.of_nat a * (2 ^ Z.of_nat k - 1).
Proof.
  induction k as [|k IH]; intros a.
  - cbn. lia.
  - cbn [seq fmap list_fmap total_delay foldr].
    change (foldr Z.add 0 ?l) with (total_delay l). rewrite IH.
    replace (Z.of_nat (S a)) with (Z.succ (Z.of_nat a)) by lia.
    replace (Z.of_nat (S k)) with (Z.succ (Z.of_nat k)) by lia.
    rewrite !Z.pow_succ_r by lia. lia.
Qed.

(** X23. How long a retried request waits. When the operation fails
    [N] times with failures the retry condition accepts and then
    succeeds, the delays of [retryableRequest] add up to
    [base * (2^k - 1)], where [k = min N limit] is the number of
    retries made: with the default options never more than 7000 ms.
    And the registry is left with the entries it had: no attempt
    stays registered. *)
Theorem retryableRequest_total_backoff
    (clock : Z → Z) (random : string) (options : RetryOptions) (st : State)
    (failures : nat → JsValue) (N : nat) (value : JsValue) :
  0 <= limit_of options →
  (∀ i, condition_of options (failures i) = true) →
  (∀ i : nat, pendingRequests st !!
                attemptKey (key_of clock random options) (Z.of_nat i) = None) →
  total_delay (delays (retryableRequest
      (fail_then_succeed (length (operations st)) failures N value)
      clock random options st))
  = base_delay_of options * (2 ^ Z.of_nat (N `min` Z.to_nat (limit_of options)) - 1)
  ∧ pendingRequests (final (retryableRequest
      (fail_then_succeed (length (operations st)) failures N value)
      clock random options st)) = pendingRequests st
  ∧ (maxRetries options = None → retryDelay options = None →
     total_delay (delays (retryableRequest
         (fail_then_succeed (length (operations st)) failures N value)
         clock random options st)) <= 7000).
Proof.
  intros Hlimit Htransient Hfresh.
  unfold retryableRequest.
  destruct (retryLoop_spec clock (limit_of options) (base_delay_of options)
              (condition_of options) (key_of clock random options)
              st failures N value Htransient Hfresh
              (Z.to_nat (limit_of options + 1)) 0%nat JsUndefined st)
    as (_ & Hde & _ & _ & Hmap); [lia|lia|lia|done|].
  cbv zeta in Hde, Hmap. change (Z.of_nat 0) with 0 in *.
  replace (N - 0)%nat with N in * by lia.
  replace ((N `min` (Z.to_nat (limit_of options + 1) - 1)))%nat
    with (N `min` Z.to_nat (limit_of options))%nat in * by lia.
  rewrite Hde, Hmap, geometric_sum. change (Z.of_nat 0) with 0.
  rewrite Z.pow_0_r, Z.mul_1_r. split; [done|]. split; [done|].
  intros Hm Hd. unfold limit_of, base_delay_of. rewrite Hm, Hd. cbn [default].
  change (Z.to_nat 3) with 3%nat.
  assert (Hk : (N `min` 3 = 0 ∨ N `min` 3 = 1 ∨ N `min` 3 = 2 ∨ N `min` 3 = 3)%nat)
    by lia.
  destruct Hk as [-> | [-> | [-> | ->]]]; cbn; lia.
Qed.

Lemma retryableRequest_total_backoff_witness :
  0 <= limit_of no_options
  ∧ total_delay (delays (retryableRequest
      (fail_then_succeed 0 (λ _, JsObject true "TypeError" "Failed to fetch" None)
         5 (JsString "ok"))
      (λ _, 0) "0.5" no_options initial)) = 7000.
Proof.
  assert (H1 : 0 <= limit_of no_options) by (vm_compute; discriminate).
  split; [exact H1|].
  refine (proj1 (retryableRequest_total_backoff (λ _, 0) "0.5" no_options initial
                   (λ _, JsObject true "TypeError" "Failed to fetch" None) 5
                   (JsString "ok") H1 _ _)).
  - reflexivity.
  - intros i. apply lookup_empty.
Defined.

(** X24. A failure the retry condition refuses is not retried. When
    the first attempt fails with an error for which [retryCondition]
    answers false, [retryableRequest] rejects with that error at
    once: one attempt, one invocation of [requestFn], no delay,
    whatever the retry limit. *)
Theorem retryableRequest_refused_failure
    (settles : nat → Settlement JsValue) (clock : Z → Z) (random : string)
    (options : RetryOptions) (st : State) (error : JsValue) :
  0 <= limit_of options →
  pendingRequests st !! attemptKey (key_of clock random options) 0 = None →
  settles (length (operations st)) = Rejected error →
  condition_of options error = false →
  result (retryableRequest settles clock random options st) = Rejected error
  ∧ attempts (retryableRequest settles clock random options st) = 1%nat
  ∧ delays (retryableRequest settles clock random options st) = []
  ∧ length (operations (final (retryableRequest settles clock random options st)))
    = S (length (operations st)).
Proof.
  intros Hlimit Hfresh Hfail Hcond. unfold retryableRequest.
  replace (Z.to_nat (limit_of options + 1))
    with (S (Z.to_nat (limit_of options))) by lia.
  assert (Hcall : deduplicate (attemptKey (key_of clock random options) 0)
                    (clock 0) st
                  = ({| pendingRequests :=
                          <[attemptKey (key_of clock random options) 0 :=
                              {| promise := length (operations st);
                                 controller := length (operations st);
                                 timestamp := clock 0 |}]> (pendingRequests st);
                        operations :=
                          operations st
                          ++ [{| op_key := attemptKey (key_of clock random options) 0;
                                 settled := None |}];
                        aborted := aborted st |},
                     length (operations st))).
  { unfold deduplicate. by rewrite Hfresh. }
  cbn [retryLoop]. cbv zeta. rewrite Hcall. cbn [fst snd].
  rewrite Hfail, Hcond. cbn [negb]. rewrite orb_true_r.
  cbn [result attempts delays final].
  split; [done|]. split; [done|]. split; [done|].
  unfold settle. cbn [operations].
  rewrite lookup_app_r, Nat.sub_diag by done. cbn.
  rewrite length_insert, length_app. simpl. lia.
Qed.

Lemma retryableRequest_refused_failure_witness :
  0 <= limit_of {| maxRetries := None; retryDelay := None;
                   retryCondition := Some (λ _, false); key := Some "save"%string |}
  ∧ attempts (retryableRequest (λ _, Rejected (JsString "denied")) (λ _, 0) "0.5"
                {| maxRetries := None; retryDelay := None;
                   retryCondition := Some (λ _, false);
                   key := Some "save"%string |} initial) = 1%nat.
Proof.
  assert (H1 : 0 <= limit_of {| maxRetries := None; retryDelay := None;
                                retryCondition := Some (λ _, false);
                                key := Some "save"%string |})
    by (vm_compute; discriminate).
  split; [exact H1|].
  refine (proj1 (proj2 (retryableRequest_refused_failure
                          (λ _, Rejected (JsString "denied")) (λ _, 0) "0.5"
                          {| maxRetries := None; retryDelay := None;
                             retryCondition := Some (λ _, false);
                             key := Some "save"%string |} initial
                          (JsString "denied") H1 _ _ _))).
  - apply lookup_empty.
  - reflexivity.
  - reflexivity.
Defined.

End RetryMore.

(** ** Request keys *)

Section RequestKey.
Import ApiUtils.

Lemma colon_splits (m : string) : ∀ (m' r r' : string),
  has_colon m = false → has_colon m' = false →
  m +:+ ":" +:+ r = m' +:+ ":" +:+ r' → m = m' ∧ r = r'.
Proof.
  induction m as [|c m IH]; intros m' r r' Hm Hm' Heq.
  - destruct m' as [|c' m'']; cbn in Heq.
    + by injection Heq.
    + injection Heq as <- _. cbn in Hm'. done.
  - destruct m' as [|c' m'']; cbn in Heq.
    + injection Heq as -> _. cbn in Hm. done.
    + injection Heq as <- Heq. cbn in Hm, Hm'.
      apply orb_false_iff in Hm as [_ Hm]. apply orb_false_iff in Hm' as [_ Hm'].
      destruct (IH m'' r r' Hm Hm' Heq) as [-> ->]. done.
Qed.

(** X25. Request keys keep methods apart. Two keys made by
    [createRequestKey] for methods without a [':'] are equal only if
    the methods are equal, so a GET never shares a registry entry with
    a POST, PUT, PATCH or DELETE; and if the URLs hold no [':'] either,
    equal keys mean equal URLs and equal serialised bodies. *)
Theorem createRequestKey_separates (url url' method method' : string)
    (data data' : option Data) :
  has_colon method = false → has_colon method' = false →
  createRequestKey url method data = createRequestKey url' method' data' →
  method = method'
  ∧ (has_colon url = false → has_colon url' = false →
     url = url'
     ∧ createRequestKey "" "" data = createRequestKey "" "" data').
Proof.
  intros Hm Hm' Heq. unfold createRequestKey in *. cbv zeta in *.
  destruct (colon_splits _ _ _ _ Hm Hm' Heq) as [-> Hrest].
  split; [done|]. intros Hu Hu'.
  destruct (colon_splits _ _ _ _ Hu Hu' Hrest) as [-> Hhash].
  split; [done|]. cbn. by rewrite Hhash.
Qed.

Lemma createRequestKey_separates_witness :
  has_colon "GET" = false ∧ has_colon "POST" = false
  ∧ createRequestKey "users" "GET" None ≠ createRequestKey "users" "POST" None.
Proof.
  assert (H1 : has_colon "GET" = false) by reflexivity.
  assert (H2 : has_colon "POST" = false) by reflexivity.
  split; [exact H1|]. split; [exact H2|].
  intros Heq.
  pose proof (proj1 (createRequestKey_separates "users" "users" "GET" "POST"
                       None None H1 H2 Heq)) as Hm.
  discriminate Hm.
Defined.

End RequestKey.

(** ** Debounced search *)

Section Searching.
Import DebouncedSearch.

Implicit Types (st : State) (d : Debounce.State) (query : string).

Lemma debounce_call_length key delay d :
  length (Debounce.timers (Debounce.call key delay d).1)
  = S (length (Debounce.timers d)).
Proof.
  unfold Debounce.call. cbn [fst Debounce.timers].
  rewrite length_app, cleared_length. cbn [length]. lia.
Qed.

Lemma debounce_fire_length id d :
  length (Debounce.timers (Debounce.fire id d)) = length (Debounce.timers d).
Proof.
  unfold Debounce.fire. destruct (Debounce.timers d !! id); [|done].
  case_decide; [|done]. cbn [Debounce.timers]. by rewrite length_insert.
Qed.

Lemma debounce_settle_length id outcome d :
  length (Debounce.timers (Debounce.settle id outcome d))
  = length (Debounce.timers d).
Proof.
  unfold Debounce.settle. destruct (Debounce.timers d !! id) as [t|]; [|done].
  destruct (Debounce.status t); try done.
  destruct (Debounce.settled t); [done|].
  cbn [Debounce.timers]. by rewrite length_insert.
Qed.

(** A call and a firing timer leave the promises as they are. *)
Lemma debounce_call_settled key delay d i t :
  Debounce.timers d !! i = Some t →
  ∃ t', Debounce.timers (Debounce.call key delay d).1 !! i = Some t'
        ∧ Debounce.settled t' = Debounce.settled t.
Proof.
  intros Hi. unfold Debounce.call. cbn [fst Debounce.timers].
  rewrite lookup_app_l by (rewrite cleared_length; by eapply lookup_lt_Some).
  destruct (Debounce.debounceTimers d !! key) as [existing|]; [|eauto].
  destruct (decide (i = existing)) as [->|Hne];
    [|rewrite clearTimeout_other by done; eauto].
  destruct (decide (Debounce.status t = Debounce.Armed)) as [Ha|Hna].
  - rewrite (clearTimeout_armed _ _ _ Hi Ha). eauto.
  - rewrite (clearTimeout_unarmed _ _ _ _ Hi Hna). eauto.
Qed.

Lemma debounce_fire_settled id d i t :
  Debounce.timers d !! i = Some t →
  ∃ t', Debounce.timers (Debounce.fire id d) !! i = Some t'
        ∧ Debounce.settled t' = Debounce.settled t.
Proof.
  intros Hi. unfold Debounce.fire.
  destruct (Debounce.timers d !! id) as [t0|] eqn:Hid; [|eauto].
  case_decide; [|eauto]. cbn [Debounce.timers].
  destruct (decide (i = id)) as [->|Hne].
  - rewrite list_lookup_insert_eq by by eapply lookup_lt_Some.
    assert (t0 = t) as -> by congruence. eauto.
  - rewrite list_lookup_insert_ne by done. eauto.
Qed.

Lemma debounce_settle_other id outcome d i :
  i ≠ id →
  Debounce.timers (Debounce.settle id outcome d) !! i = Debounce.timers d !! i.
Proof.
  intros Hne. unfold Debounce.settle.
  destruct (Debounce.timers d !! id) as [t|]; [|done].
  destruct (Debounce.status t); try done.
  destruct (Debounce.settled t); [done|].
  cbn [Debounce.timers]. by rewrite list_lookup_insert_ne.
Qed.

Lemma debounce_settle_settled id outcome d t :
  Debounce.timers d !! id = Some t →
  ∃ t', Debounce.timers (Debounce.settle id outcome d) !! id = Some t'
        ∧ (Debounce.settled t' = Debounce.settled t
           ∨ (Debounce.settled t = None ∧ Debounce.settled t' = Some outcome)).
Proof.
  intros Hi. unfold Debounce.settle. rewrite Hi.
  destruct (Debounce.status t); eauto.
  destruct (Debounce.settled t) eqn:Hs; [eauto|].
  cbn [Debounce.timers].
  rewrite list_lookup_insert_eq by by eapply lookup_lt_Some.
  eexists. split; [done|]. by right.
Qed.

Lemma searched_made_step delay ev st :
  searched_made st → searched_made (step delay ev st).
Proof.
  intros Hmade. destruct ev as [query|id|id outcome]; cbn [step].
  - intros i Hi. cbn [search fst searched debouncing] in *.
    rewrite debounce_call_length. specialize (Hmade i Hi). lia.
  - unfold fire.
    destruct (Debounce.timers (debouncing st) !! id) as [t|] eqn:Hid; [|done].
    case_decide; [|done]. case_decide.
    + intros i Hi. cbn [resume searched debouncing] in *.
      rewrite debounce_settle_length, debounce_fire_length. by apply Hmade.
    + intros i Hi. cbn [searched debouncing] in *.
      rewrite debounce_fire_length.
      apply elem_of_app in Hi as [Hi|Hi]; [by apply Hmade|].
      apply list_elem_of_singleton in Hi as ->. by eapply lookup_lt_Some.
  - unfold settle. case_decide; [|done].
    destruct (Debounce.outcome_of id (debouncing st)); [done|].
    intros i Hi. cbn [resume searched debouncing] in *.
    rewrite debounce_settle_length. by apply Hmade.
Qed.

Lemma searched_made_run delay evs : ∀ st,
  searched_made st → searched_made (run delay evs st).
Proof.
  induction evs as [|ev evs IH]; intros st H; [done|].
  cbn [run foldl]. apply IH. by apply searched_made_step.
Qed.

Lemma searched_made_initial : searched_made initial.
Proof. intros id Hid. cbn [initial searched] in Hid. by apply elem_of_nil in Hid. Qed.

(** A cancelled call stays cancelled. *)
Lemma cancelled_step delay ev st id :
  cancelled id st → cancelled id (step delay ev st).
Proof.
  intros (Hab & Hns & t & Ht & Hset).
  destruct ev as [query|id'|id' outcome]; cbn [step].
  - split; [|split]; cbn [search fst aborted searched debouncing].
    + destruct (currentController st); [|done].
      apply elem_of_union. by right.
    + done.
    + destruct (debounce_call_settled (searchKey query) delay _ _ _ Ht)
        as (t' & Ht' & Hs').
      exists t'. split; [done|]. by rewrite Hs'.
  - unfold fire.
    destruct (Debounce.timers (debouncing st) !! id') as [t0|] eqn:Hid';
      [|by split; [|split; [|exists t]]].
    case_decide; [|by split; [|split; [|exists t]]].
    destruct (debounce_fire_settled id' _ _ _ Ht) as (t1 & Ht1 & Hs1).
    case_decide as Hin.
    + split; [|split]; cbn [resume aborted searched debouncing]; [done..|].
      destruct (decide (id = id')) as [->|Hne].
      * destruct (debounce_settle_settled id' (Rejected REQUEST_CANCELLED) _ _ Ht1)
          as (t2 & Ht2 & [Hs2|[_ Hs2]]).
        -- exists t2. split; [done|]. by rewrite Hs2, Hs1.
        -- exists t2. split; [done|]. by right.
      * exists t1. rewrite debounce_settle_other by done.
        split; [done|]. by rewrite Hs1.
    + split; [|split]; cbn [aborted searched debouncing]; [done| |].
      * intros Hi. apply elem_of_app in Hi as [Hi|Hi]; [done|].
        apply list_elem_of_singleton in Hi as ->. done.
      * exists t1. split; [done|]. by rewrite Hs1.
  - unfold settle.
    case_decide as Hin; [|by split; [|split; [|exists t]]].
    destruct (Debounce.outcome_of id' (debouncing st));
      [by split; [|split; [|exists t]]|].
    split; [|split]; cbn [resume aborted searched debouncing]; [done..|].
    exists t. rewrite debounce_settle_other by (intros ->; done). done.
Qed.

Lemma cancelled_run delay evs : ∀ st id,
  cancelled id st → cancelled id (run delay evs st).
Proof.
  induction evs as [|ev evs IH]; intros st id H; [done|].
  cbn [run foldl]. apply IH. by apply cancelled_step.
Qed.

(** X26. A search directly followed by another never reaches
    [searchFn]. In any state the searcher can reach, when a call of
    the debounced search is followed by a second call before anything
    else happens, then whatever comes later [searchFn] is never
    invoked for the first call, and the promise of the first call is
    either never settled or rejected with [Error("Request cancelled")]:
    it is never resolved with results. *)
Theorem search_followed_is_cancelled delay evs0 query query' evs :
  let id := (search delay query (run delay evs0 initial)).2 in
  let final := run delay (evs0 ++ [Search query; Search query'] ++ evs) initial in
  (id ∉ searched final)
  ∧ id ∈ aborted final
  ∧ (Debounce.outcome_of id (debouncing final) = None
     ∨ Debounce.outcome_of id (debouncing final)
       = Some (Rejected REQUEST_CANCELLED)).
Proof.
  intros id final. subst id final.
  assert (run delay (evs0 ++ [Search query; Search query'] ++ evs) initial
          = run delay evs
              (search delay query'
                 (search delay query (run delay evs0 initial)).1).1) as ->
    by (unfold run; by rewrite !foldl_app).
  set (st := run delay evs0 initial).
  assert (Hmade : searched_made st)
    by apply searched_made_run, searched_made_initial.
  set (id := (search delay query st).2).
  assert (Hc : cancelled id (search delay query' (search delay query st).1).1).
  { split; [|split].
    - cbn [search fst snd aborted currentController]. set_solver.
    - cbn [search fst searched]. intros Hin. specialize (Hmade _ Hin).
      subst id. cbn [search snd Debounce.call] in Hmade. lia.
    - assert (Debounce.timers (debouncing (search delay query st).1) !! id
              = Some {| Debounce.timer_key := searchKey query;
                        Debounce.timer_delay := delay;
                        Debounce.status := Debounce.Armed;
                        Debounce.settled := None |}) as Hnew.
      { subst id. cbn [search fst snd debouncing Debounce.call Debounce.timers].
        rewrite lookup_app_r by (rewrite cleared_length; lia).
        by rewrite cleared_length, Nat.sub_diag. }
      destruct (debounce_call_settled (searchKey query') delay _ _ _ Hnew)
        as (t' & Ht' & Hs').
      exists t'. split; [done|]. left. by rewrite Hs'. }
  pose proof (cancelled_run delay evs _ _ Hc) as (Hab & Hns & t & Ht & Hset).
  split; [done|]. split; [done|].
  unfold Debounce.outcome_of. rewrite Ht. done.
Qed.

Lemma searchKey_inj query query' : searchKey query = searchKey query' → query = query'.
Proof. unfold searchKey. by intros ?%(inj (String.app "search_")). Qed.

(** X27. A search that is followed by another can still reach
    [searchFn]. Three searches are made, no two successive ones for
    the same query; the timer of the first, which the second call
    cancelled, fires between the second and the third call. Its
    rejection sets [currentController] to [null] although the variable
    holds the controller of the second call by then, so the third call
    aborts nothing, and when the timer of the second call fires
    [searchFn] is invoked for the second query. *)
Theorem search_not_cancelled_after_rejection delay query0 query1 query2 :
  query0 ≠ query1 → query1 ≠ query2 →
  let st := run delay [Search query0; Search query1; Fire 0; Search query2;
                       Fire 1] initial in
  searched st = [1%nat]
  ∧ aborted st = {[0%nat]}
  ∧ Debounce.outcome_of 0 (debouncing st) = Some (Rejected REQUEST_CANCELLED).
Proof.
  intros H01 H12 st. subst st.
  assert (K01 : searchKey query0 ≠ searchKey query1)
    by (intros ?%searchKey_inj; done).
  assert (K12 : searchKey query1 ≠ searchKey query2)
    by (intros ?%searchKey_inj; done).
  set (timer := λ query status settled,
         {| Debounce.timer_key := searchKey query; Debounce.timer_delay := delay;
            Debounce.status := status; Debounce.settled := settled |}).
  assert (E1 : (search delay query0 initial).1
               = {| currentController := Some 0%nat; aborted := ∅;
                    debouncing :=
                      {| Debounce.debounceTimers := <[searchKey query0 := 0%nat]> ∅;
                         Debounce.timers := [timer query0 Debounce.Armed None] |};
                    searched := [] |}).
  { unfold search, Debounce.call.
    cbn [fst snd initial debouncing currentController aborted searched
         Debounce.initial Debounce.timers Debounce.debounceTimers].
    by rewrite lookup_empty. }
  assert (E2 : (search delay query1 (search delay query0 initial).1).1
               = {| currentController := Some 1%nat; aborted := {[0%nat]} ∪ ∅;
                    debouncing :=
                      {| Debounce.debounceTimers :=
                           <[searchKey query1 := 1%nat]>
                             (<[searchKey query0 := 0%nat]> ∅);
                         Debounce.timers := [timer query0 Debounce.Armed None;
                                             timer query1 Debounce.Armed None] |};
                    searched := [] |}).
  { rewrite E1. unfold search, Debounce.call.
    cbn [fst snd debouncing currentController aborted searched
         Debounce.timers Debounce.debounceTimers].
    by rewrite lookup_insert_ne, lookup_empty. }
  assert (E3 : fire 0 (search delay query1 (search delay query0 initial).1).1
               = {| currentController := None; aborted := {[0%nat]} ∪ ∅;
                    debouncing :=
                      {| Debounce.debounceTimers :=
                           delete (searchKey query0)
                             (delete (searchKey query0)
                                (<[searchKey query1 := 1%nat]>
                                   (<[searchKey query0 := 0%nat]> ∅)));
                         Debounce.timers :=
                           [timer query0 Debounce.Fired
                              (Some (Rejected REQUEST_CANCELLED));
                            timer query1 Debounce.Armed None] |};
                    searched := [] |}).
  { rewrite E2. unfold fire.
    cbn [debouncing Debounce.timers aborted lookup list_lookup].
    rewrite decide_True by done.
    rewrite decide_True by (apply elem_of_union; left; by apply elem_of_singleton).
    reflexivity. }
  set (registered := delete (searchKey query0)
                       (delete (searchKey query0)
                          (<[searchKey query1 := 1%nat]>
                             (<[searchKey query0 := 0%nat]> ∅)))) in E3.
  assert (Hfree : registered !! searchKey query2 = None).
  { subst registered. destruct (decide (searchKey query0 = searchKey query2)) as [<-|K02].
    - by rewrite lookup_delete_eq.
    - rewrite !lookup_delete_ne by done.
      by rewrite lookup_insert_ne, lookup_insert_ne, lookup_empty. }
  assert (E4 : (search delay query2
                  (fire 0 (search delay query1
                             (search delay query0 initial).1).1)).1
               = {| currentController := Some 2%nat; aborted := {[0%nat]} ∪ ∅;
                    debouncing :=
                      {| Debounce.debounceTimers :=
                           <[searchKey query2 := 2%nat]> registered;
                         Debounce.timers :=
                           [timer query0 Debounce.Fired
                              (Some (Rejected REQUEST_CANCELLED));
                            timer query1 Debounce.Armed None;
                            timer query2 Debounce.Armed None] |};
                    searched := [] |}).
  { rewrite E3. unfold search, Debounce.call.
    cbn [fst snd debouncing currentController aborted searched
         Debounce.timers Debounce.debounceTimers].
    by rewrite Hfree. }
  cbn [run foldl step]. rewrite E4. unfold fire.
  cbn [debouncing Debounce.timers aborted lookup list_lookup].
  rewrite decide_True by done.
  rewrite decide_False.
  - cbn [searched aborted debouncing app]. split; [done|]. split.
    + apply (right_id_L ∅ (∪)).
    + unfold Debounce.outcome_of, Debounce.fire.
      cbn [Debounce.timers lookup list_lookup].
      rewrite decide_True by done. reflexivity.
  - rewrite elem_of_union, elem_of_singleton, elem_of_empty. intros [?|[]].
    discriminate.
Qed.

Lemma search_not_cancelled_after_rejection_witness :
  "a" ≠ "ab" ∧ "ab" ≠ "abc"
  ∧ searched (run 300 [Search "a"; Search "ab"; Fire 0; Search "abc"; Fire 1]
                initial) = [1%nat].
Proof.
  assert (H01 : "a" ≠ "ab") by discriminate.
  assert (H12 : "ab" ≠ "abc") by discriminate.
  split; [exact H01|]. split; [exact H12|].
  exact (proj1 (search_not_cancelled_after_rejection 300 "a" "ab" "abc" H01 H12)).
Defined.

End Searching.
